(** * The validator's query-score-weight pipeline (neurons/validator.py)

  A shallow embedding of the parts of [neurons/validator.py] that carry
  the pipeline's semantics: the weight accumulator ([set_weights]), the
  round loop ([query_synapse]), the task supply ([call_openai],
  [get_list], [update_counters_and_get_new_list], [get_question]), the
  peer dispatcher ([query_miner], [start_query]) and the scoring gate
  ([score_responses]).

  Modelling conventions.
  - A Python call that may raise returns an [outcome]; only subclasses of
    [Exception] are modelled (the [except Exception] handlers of the
    source catch exactly those).
  - Every external collaborator (the OpenAI client, the dendrite, the
    ledger, telemetry, the random generator) is an input of the model:
    its answers are arguments or fields of a record of collaborators,
    universally quantified in the theorems.
  - Where a statement is about the values of the scores, tensors hold
    IEEE 754 binary32 numbers and Python floats are binary64 numbers,
    with the operations of the standard library's [SpecFloat]
    ([Float32], [Accumulator32]).  Where only the control flow and the
    shapes matter (the round loop, the failure cases), tensors are lists
    of rationals ([Qc], canonical fractions with Leibniz equality) and
    the arithmetic is exact ([Tensor], [Accumulator], [RoundLoop]).
  - Module-level globals ([state], [moving_average_scores], the lists of
    the [template] module) are fields of explicit state records.
  - Concurrent calls are tasks of a cooperative event loop, stepped by
    an arbitrary schedule; a task gives way only where the source
    awaits something that is not ready. *)

From Stdlib Require Import QArith Qcanon.
From Stdlib Require SpecFloat.
From stdpp Require Import numbers.
From stdpp Require Import list strings gmap.

Open Scope Qc_scope.

(** ** Exceptions and results *)

Inductive exn : Type :=
| NameError
| KeyError
| ValueError
| TypeError
| IndexError
| UnboundLocalError
| RuntimeError
| TimeoutError
| AttributeError
| TransportError
| DeserializationError.

Inductive outcome (A : Type) : Type :=
| Ok (a : A)
| Raise (e : exn).
Arguments Ok {A} a.
Arguments Raise {A} e.

Definition is_ok {A} (o : outcome A) : bool :=
match o with Ok _ => true | Raise _ => false end.

#[global] Instance exn_eq_dec : EqDecision exn.
Proof. solve_decision. Defined.

#[global] Instance outcome_eq_dec {A} `{EqDecision A} : EqDecision (outcome A).
Proof. solve_decision. Defined.

(** ** One-dimensional tensors *)

Module Tensor.

Abbreviation tensor := (list Qc).

(** [torch.zeros(n)] *)
Definition zeros (n : nat) : tensor := replicate n 0.

(** [a * t] for a Python scalar [a] *)
Definition scale (a : Qc) (t : tensor) : tensor := (fun x => a * x) <$> t.

(** [t / n] for a Python integer [n] *)
Definition div_scalar (t : tensor) (n : Z) : tensor :=
  (fun x => x / Q2Qc (inject_Z n)) <$> t.

(** [s + t]: elementwise, with the broadcasting rule of one-dimensional
    tensors (sizes are compatible when equal or when one of them is 1);
    incompatible sizes raise [RuntimeError]. *)
Definition add (s t : tensor) : outcome tensor :=
  if decide (length s = length t) then Ok (zip_with Qcplus s t)
  else match s, t with
       | [x], _ => Ok ((fun y => x + y) <$> t)
       | _, [y] => Ok ((fun x => x + y) <$> s)
       | _, _ => Raise RuntimeError
       end.

(** [t += s]: in place, so the result keeps the shape of [t]; [s] is
    broadcast to it or the call raises [RuntimeError] before writing. *)
Definition iadd (t s : tensor) : outcome tensor :=
  if decide (length s = length t) then Ok (zip_with Qcplus t s)
  else match s with
       | [y] => Ok ((fun x => x + y) <$> t)
       | _ => Raise RuntimeError
       end.

End Tensor.
Import Tensor.

(** ** Floating-point numbers *)

Module Float32.

(** A Python [float] (binary64) or an element of a [torch.float32] tensor
    (binary32): a zero, an infinity, NaN, or sign, mantissa and exponent. *)
Abbreviation float := SpecFloat.spec_float.

(** Operations on Python floats, rounded to the nearest binary64. *)
Definition div64 (x y : float) : float := SpecFloat.SFdiv 53 1024 x y.
Definition sub64 (x y : float) : float := SpecFloat.SFsub 53 1024 x y.

(** A Python [int] as a float. *)
Definition of_int (n : Z) : float := SpecFloat.binary_normalize 53 1024 n 0 false.

(** The decimal literal [n / d] for a power of ten [d], such as [.3] and
    [1.1]: the binary64 number nearest to the fraction, which is what the
    correctly rounded division of the two integers gives. *)
Definition literal (n d : Z) : float := div64 (of_int n) (of_int d).

(** Operations on the elements of a float32 tensor, rounded to the
    nearest binary32. *)
Definition mul32 (x y : float) : float := SpecFloat.SFmul 24 128 x y.
Definition add32 (x y : float) : float := SpecFloat.SFadd 24 128 x y.

(** The conversion of a Python scalar to the dtype of the tensor it is
    combined with. *)
Definition to_float32 (x : float) : float :=
  match x with
  | SpecFloat.S754_finite s m e =>
      SpecFloat.binary_normalize 24 128 (SpecFloat.cond_Zopp s (Z.pos m)) e s
  | _ => x
  end.

(** The rational a finite float stands for. *)
Definition to_Qc (x : float) : Qc :=
  match x with
  | SpecFloat.S754_finite s m e =>
      Q2Qc (inject_Z (SpecFloat.cond_Zopp s (Z.pos m)) * Qpower (2 # 1) e)
  | _ => 0
  end.

Abbreviation tensor32 := (list float).

(** [a * t] for a Python scalar [a] and a float32 tensor [t]: the scalar
    is converted to float32 and the product is taken in float32. *)
Definition scale (a : float) (t : tensor32) : tensor32 :=
  mul32 (to_float32 a) <$> t.

(** [s + t] on float32 tensors, with the broadcasting rule of [Tensor.add]. *)
Definition add (s t : tensor32) : outcome tensor32 :=
  if decide (length s = length t) then Ok (zip_with add32 s t)
  else match s, t with
       | [x], _ => Ok ((fun y => add32 x y) <$> t)
       | _, [y] => Ok ((fun x => add32 x y) <$> s)
       | _, _ => Raise RuntimeError
       end.

(** The float32 number with mantissa [m] and exponent [e]. *)
Definition f32 (m : positive) (e : Z) : float := SpecFloat.S754_finite false m e.

End Float32.

(** ** WeightAccumulator: [set_weights]

    [Accumulator] has the control flow and the shapes of [set_weights],
    over exact rationals; [Accumulator32] further down is the same
    function over float32 tensors, with the values the code computes. *)

Module Accumulator.

(** The global [moving_average_scores] and two logs kept for the
    statements below (most recent first): the [scores] arguments the
    function received, and the weight vectors it passed to
    [subtensor.set_weights]. *)
Record accumulator : Type := {
  moving_average_scores : option tensor;
  received : list tensor;
  submitted : list tensor
}.

Definition alpha : Qc := Q2Qc (3 # 10).

(** [set_weights(scores, ...)]; [submit] is the result of the call
    [subtensor.set_weights(...)] of the ledger. *)
Definition set_weights (scores : tensor) (submit : outcome unit)
    (st : accumulator) : outcome unit * accumulator :=
  let st1 :=
    match moving_average_scores st with
    | None => {| moving_average_scores := Some scores; (* scores.clone() *)
                 received := scores :: received st;
                 submitted := submitted st |}
    | Some m => {| moving_average_scores := Some m;
                   received := scores :: received st;
                   submitted := submitted st |}
    end in
  match moving_average_scores st1 with
  | None => (Raise TypeError, st1)
  | Some m =>
      match add (scale alpha scores) (scale (1 - alpha) m) with
      | Raise e => (Raise e, st1)
      | Ok m' =>
          (submit, {| moving_average_scores := Some m';
                      received := received st1;
                      submitted := m' :: submitted st1 |})
      end
  end.

(** The vector the accumulator holds after a call. *)
Definition committed (r : outcome unit * accumulator) : option tensor :=
  moving_average_scores (snd r).

(** The recurrence of the specification, per peer index. *)
Definition ema (v prev : tensor) : tensor :=
  zip_with (fun x p => Q2Qc (3 # 10) * x + Q2Qc (7 # 10) * p) v prev.

End Accumulator.

(** ** [set_weights] on float32 tensors *)

Module Accumulator32.
Import Float32.

(** The global [moving_average_scores] (a float32 tensor, as [scores]
    is: [torch.zeros] and what is derived from it have the default dtype)
    and the log of the weight vectors passed to [subtensor.set_weights],
    most recent first. *)
Record accumulator : Type := {
  moving_average_scores : option tensor32;
  submitted : list tensor32
}.

(** [alpha = .3] and [1 - alpha], Python floats *)
Definition alpha : float := literal 3 10.
Definition one_minus_alpha : float := sub64 (of_int 1) alpha.

(** [set_weights(scores, ...)], lines 243-253; [submit] is the result of
    the call [subtensor.set_weights(...)] of the ledger. *)
Definition set_weights (scores : tensor32) (submit : outcome unit)
    (st : accumulator) : outcome unit * accumulator :=
  let st1 :=
    match moving_average_scores st with
    | None => {| moving_average_scores := Some scores; (* scores.clone() *)
                 submitted := submitted st |}
    | Some m => st
    end in
  match moving_average_scores st1 with
  | None => (Raise TypeError, st1)
  | Some m =>
      match add (scale alpha scores) (scale one_minus_alpha m) with
      | Raise e => (Raise e, st1)
      | Ok m' =>
          (submit, {| moving_average_scores := Some m';
                      submitted := m' :: submitted st1 |})
      end
  end.

(** The vector the accumulator holds after a call. *)
Definition committed (r : outcome unit * accumulator) : option tensor32 :=
  moving_average_scores (snd r).

(** The recurrence per peer index, in float32: both products are rounded,
    then their sum. *)
Definition ema_at (x p : float) : float :=
  add32 (mul32 (to_float32 alpha) x) (mul32 (to_float32 one_minus_alpha) p).

Definition ema (v prev : tensor32) : tensor32 := zip_with ema_at v prev.

Definition fresh_accumulator : accumulator :=
  {| moving_average_scores := None; submitted := [] |}.

End Accumulator32.

(** ** RoundCoordinator: the loop of [query_synapse] *)

Module RoundLoop.
Import Accumulator.

(** The locals [steps_passed] and [total_scores] of [query_synapse] and
    the accumulator's global. *)
Record loop_state : Type := {
  steps_passed : Z;
  total_scores : tensor;
  acc : accumulator
}.

(** What the collaborators answer during one iteration of the loop:
    [subtensor.metagraph(config.netuid)] (the number of hotkeys),
    [get_available_uids], [get_and_score_embeddings] (the score tensor of
    the pair it returns; the function is not defined in the file, so a call
    raises [NameError] unless another module provides it) and
    [subtensor.set_weights]. *)
Record round_env : Type := {
  metagraph_sync : outcome nat;
  available_uids : outcome (list nat);
  get_and_score : outcome tensor;
  ledger_submit : outcome unit
}.

(** The category handed to the dispatcher: line 563 runs the embeddings
    validator in every round (the text and images alternation is commented
    out). *)
Definition round_category (steps : Z) : string := "embeddings".

Definition with_total (st : loop_state) (t : tensor) : loop_state :=
  {| steps_passed := steps_passed st; total_scores := t; acc := acc st |}.

Definition with_steps (st : loop_state) (n : Z) : loop_state :=
  {| steps_passed := n; total_scores := total_scores st; acc := acc st |}.

Definition with_acc (st : loop_state) (a : accumulator) : loop_state :=
  {| steps_passed := steps_passed st; total_scores := total_scores st; acc := a |}.

(** The commit block, lines 577-583, entered with the merged sum. *)
Definition commit (n : nat) (submit : outcome unit) (st : loop_state)
    : outcome unit * loop_state :=
  let avg_scores := div_scalar (total_scores st) (steps_passed st + 1) in
  let st1 := with_steps st 0 in
  match set_weights avg_scores submit (acc st1) with
  | (Raise e, a) => (Raise e, with_acc st1 a)
  | (Ok _, a) => (Ok tt, with_total (with_acc st1 a) (zeros n))
  end.

(** The body of the [try] block, lines 550-586.  An empty reachable set
    ends the iteration through [continue], which is a normal exit that
    leaves the state alone. *)
Definition round_body (env : round_env) (st : loop_state)
    : outcome unit * loop_state :=
  match metagraph_sync env with
  | Raise e => (Raise e, st)
  | Ok n =>
      match available_uids env with
      | Raise e => (Raise e, st)
      | Ok [] => (Ok tt, st)
      | Ok (_ :: _) =>
          match get_and_score env with
          | Raise e => (Raise e, st)
          | Ok scores =>
              match iadd (total_scores st) scores with
              | Raise e => (Raise e, st)
              | Ok total =>
                  let st1 := with_total st total in
                  if decide (steps_passed st1 `mod` 5 = 4)%Z then
                    match commit n (ledger_submit env) st1 with
                    | (Raise e, st2) => (Raise e, st2)
                    | (Ok _, st2) =>
                        (Ok tt, with_steps st2 (steps_passed st2 + 1))
                    end
                  else (Ok tt, with_steps st1 (steps_passed st1 + 1))
              end
          end
      end
  end.

(** One iteration with its two [except] clauses: both log the exception
    and fall through to the next iteration. *)
Definition round (env : round_env) (s : loop_state * list exn)
    : loop_state * list exn :=
  match round_body env s.1 with
  | (Ok _, st') => (st', s.2)
  | (Raise e, st') => (st', e :: s.2)
  end.

(** Lines 546-547, for a metagraph of [n] hotkeys. *)
Definition initial (n : nat) (a : accumulator) : loop_state :=
  {| steps_passed := 0; total_scores := zeros n; acc := a |}.

(** A prefix of the endless loop of [query_synapse]: one [round_env] per
    iteration. *)
Definition query_synapse (envs : list round_env) (s : loop_state * list exn)
    : loop_state * list exn :=
  foldl (fun s env => round env s) s envs.

(** Whether the iteration gets as far as the commit block: discovery,
    scoring and the merge succeed in a round whose counter is 4 modulo 5. *)
Definition reaches_commit (env : round_env) (st : loop_state) : bool :=
  match metagraph_sync env, available_uids env, get_and_score env with
  | Ok _, Ok (_ :: _), Ok scores =>
      bool_decide (is_ok (iadd (total_scores st) scores) = true) &&
      bool_decide (steps_passed st `mod` 5 = 4)%Z
  | _, _, _ => false
  end.

(** A round in which every collaborator answers: the peers [0 .. n-1] are
    all reachable and [scores] holds one score for each. *)
Definition ok_round (scores : tensor) : round_env :=
  {| metagraph_sync := Ok (length scores);
     available_uids := Ok (seq 0 (length scores));
     get_and_score := Ok scores;
     ledger_submit := Ok tt |}.

(** The same round when the ledger call raises. *)
Definition ledger_down_round (scores : tensor) : round_env :=
  {| metagraph_sync := Ok (length scores);
     available_uids := Ok (seq 0 (length scores));
     get_and_score := Ok scores;
     ledger_submit := Raise TransportError |}.

Definition fresh_accumulator : accumulator :=
  {| moving_average_scores := None; received := []; submitted := [] |}.

(** The state a round leaves when its commit block raises: the round's
    scores are merged, the counter is reset, and the accumulator is as
    [set_weights] left it. *)
Definition failed_commit_state (env : round_env) (st : loop_state)
    (total : tensor) : loop_state :=
  {| steps_passed := 0;
     total_scores := total;
     acc := (set_weights (div_scalar total (steps_passed st + 1))
                         (ledger_submit env) (acc st)).2 |}.

(** The average of a commit window as the specification words it: the
    elementwise sum of the window's round vectors over their number. *)
Definition window_sum (n : nat) (window : list tensor) : tensor :=
  foldl (zip_with Qcplus) (zeros n) window.

Definition window_average (n : nat) (window : list tensor) : tensor :=
  div_scalar (window_sum n window) (Z.of_nat (length window)).

End RoundLoop.

(** ** TaskSupply: the rotating queues and their refill *)

Module Supply.

(** The four lists of the [template] module that [get_list] falls back
    to: [template.question_themes], [template.image_themes],
    [template.text_questions], [template.image_questions]. *)
Inductive dflt : Type :=
| question_themes
| image_themes
| text_questions
| image_questions.

#[global] Instance dflt_eq_dec : EqDecision dflt.
Proof. solve_decision. Defined.

(** A Python list object held by a queue.  A list extracted from an
    oracle answer (or loaded from the state file) is referenced by its
    queue alone and is stored by value.  The fallback of [get_list] returns
    the list object of the [template] module itself, not a copy: a queue
    that holds it pops from the module's list. *)
Inductive listref : Type :=
| Own (l : list string)
| Default (d : dflt).

#[global] Instance listref_eq_dec : EqDecision listref.
Proof. solve_decision. Defined.

(** The interactions with the oracle, logged for the statements below. *)
Inductive event : Type :=
| EvCreate
| EvCallOpenai
| EvGetList (list_type : string)
| EvRefill (category item_type : string).

#[global] Instance event_eq_dec : EqDecision event.
Proof. solve_decision. Defined.

(** The global [state] (a dictionary of dictionaries whose values are
    [None] or a list), the current contents of the lists of [template],
    the numbers of completions requested and of seeds drawn so far, and
    the log of events (most recent first). *)
Record supply : Type := {
  state : gmap string (gmap string (option listref));
  template_lists : dflt -> list string;
  created : nat;
  draws : nat;
  trace : list event
}.

(** A chat completion request: [model], the content of the single user
    message, [temperature] and [seed]. *)
Record request : Type := {
  model : string;
  content : string;
  temperature : Qc;
  seed : Z
}.

(** The collaborators.  [create n req] is the result of lines 87-93 for
    the [n]-th request sent: the completion call followed by the selection
    of [choices[0].message.content], which may be [None].  [randint n] is
    the [n]-th draw of [random.randint(1, 10000)].  [extract_python_list]
    is [template.utils.extract_python_list], which is not part of the
    file. *)
Record oracle : Type := {
  create : nat -> request -> outcome (option string);
  randint : nat -> Z;
  extract_python_list : string -> outcome (option (list string))
}.

(** State and exceptions threaded through the supply's functions. *)
Definition M (A : Type) : Type := supply -> outcome A * supply.

#[global] Instance M_ret : MRet M := fun A a w => (Ok a, w).

#[global] Instance M_bind : MBind M := fun A B f m w =>
  match m w with
  | (Ok a, w') => f a w'
  | (Raise e, w') => (Raise e, w')
  end.

Definition raise {A} (e : exn) : M A := fun w => (Raise e, w).

Definition set_state (w : supply)
    (s : gmap string (gmap string (option listref))) : supply :=
  {| state := s; template_lists := template_lists w; created := created w;
     draws := draws w; trace := trace w |}.

Definition set_template (w : supply) (d : dflt) (l : list string) : supply :=
  {| state := state w;
     template_lists := fun d' => if decide (d' = d) then l else template_lists w d';
     created := created w; draws := draws w; trace := trace w |}.

Definition log (ev : event) (w : supply) : supply :=
  {| state := state w; template_lists := template_lists w;
     created := created w; draws := draws w; trace := ev :: trace w |}.

Definition count_create (w : supply) : supply :=
  {| state := state w; template_lists := template_lists w;
     created := S (created w); draws := draws w; trace := EvCreate :: trace w |}.

Definition count_draw (w : supply) : supply :=
  {| state := state w; template_lists := template_lists w;
     created := created w; draws := S (draws w); trace := trace w |}.

(** The elements of a list object, and Python's truth value of a queue
    ([None] and the empty list are false). *)
Definition contents (w : supply) (r : listref) : list string :=
  match r with
  | Own l => l
  | Default d => template_lists w d
  end.

Definition truthy (w : supply) (items : option listref) : bool :=
  match items with
  | None => false
  | Some r => bool_decide (contents w r <> [])
  end.

(** [state[category][item_type]], a [KeyError] when a key is absent. *)
Definition state_get (category item_type : string) : M (option listref) :=
  fun w =>
    match state w !! category with
    | None => (Raise KeyError, w)
    | Some queues =>
        match queues !! item_type with
        | None => (Raise KeyError, w)
        | Some items => (Ok items, w)
        end
    end.

(** [state[category][item_type] = items] *)
Definition state_set (category item_type : string) (items : option listref)
    : M unit :=
  fun w =>
    match state w !! category with
    | None => (Raise KeyError, w)
    | Some queues =>
        (Ok tt, set_state w (<[category := <[item_type := items]> queues]> (state w)))
    end.

(** The queue stored under a key, when both keys exist. *)
Definition slot (w : supply) (category item_type : string)
    : option (option listref) :=
  state w !! category ≫= fun queues => queues !! item_type.

(** [items.pop()] on a non-empty list object: the last element, and the
    object after the removal (the module's list is updated in place). *)
Definition pop (r : listref) (w : supply) : option string * listref * supply :=
  match r with
  | Own l => (last l, Own (removelast l), w)
  | Default d =>
      (last (template_lists w d), Default d,
       set_template w d (removelast (template_lists w d)))
  end.

Section WithOracle.
Context (O : oracle).

(** Lines 83-101.  The function catches every exception of an attempt and
    returns [None] after two failed attempts. *)
Fixpoint call_openai_attempts (attempts : nat) (req : request) (w : supply)
    : option string * supply :=
  match attempts with
  | 0%nat => (None, w)
  | S k =>
      match create O (created w) req with
      | Ok response => (response, count_create w)
      | Raise _ => call_openai_attempts k req (count_create w)
      end
  end.

Definition call_openai (req : request) (w : supply) : option string * supply :=
  call_openai_attempts 2 req (log EvCallOpenai w).

(** [answer.replace("\n", " ")] *)
Fixpoint replace_newlines (s : string) : string :=
  match s with
  | EmptyString => EmptyString
  | String c s' =>
      String (if Ascii.eqb c (Ascii.ascii_of_nat 10)
              then Ascii.ascii_of_nat 32 else c)
             (replace_newlines s')
  end.

(** How an f-string prints [theme]. *)
Definition format_theme (theme : option string) : string :=
  match theme with
  | Some t => t
  | None => "None"
  end.

(** The dictionary [list_type_mapping] of lines 127-144: the fallback list
    and the prompt of each list type. *)
Definition list_type_mapping (list_type : string) (theme : option string)
    : option (dflt * string) :=
  if decide (list_type = "text_themes") then
    Some (question_themes,
      "Create a Python list of 50 unique and thought-provoking themes, each suitable for generating meaningful text-based questions. Limit each theme to a maximum of four words. The themes should be diverse and encompass a range of topics, including technology, philosophy, society, history, science, and art. Format the themes as elements in a Python list, and provide only the list without any additional text or explanations.")
  else if decide (list_type = "images_themes") then
    Some (image_themes,
      "Generate a Python list of 50 unique and broad creative themes for artistic inspiration. Each theme should be no more than four words, open to interpretation, and suitable for various artistic expressions. Present the list in a single-line Python list structure.")
  else if decide (list_type = "text_questions") then
    Some (text_questions,
      "Generate a Python list of 20 creative and thought-provoking questions, each related to the theme '"
      +:+ format_theme theme +:+
      "'. Ensure each question is concise, no more than 15 words, and tailored to evoke in-depth exploration or discussion about '"
      +:+ format_theme theme +:+
      "'. Format the output as elements in a Python list, and include only the list without any additional explanations or text.")
  else if decide (list_type = "images_questions") then
    Some (image_questions,
      "Provide a Python list of 20 creative and detailed scenarios for image generation, each inspired by the theme '"
      +:+ format_theme theme +:+
      "'. The scenarios should be diverse, encompassing elements such as natural landscapes, historical settings, futuristic scenes, and imaginative contexts related to '"
      +:+ format_theme theme +:+
      "'. Each element in the list should be a concise but descriptive scenario, designed to inspire visually rich images. Format these as elements in a Python list.")
  else None.

(** One pass of the loop of lines 156-169 per unit of [retries]: draw a
    seed, ask the oracle, normalise the answer, extract.  An exception of
    the extraction is caught and the loop goes on ([retry += 1] in the
    handler does not change the iteration of [range]). *)
Fixpoint get_list_retries (retries : nat) (prompt : string) (w : supply)
    : option (list string) * supply :=
  match retries with
  | 0%nat => (None, w)
  | S k =>
      let random_seed := randint O (draws w) in
      let '(answer, w1) :=
        call_openai {| model := "gpt-3.5-turbo"; content := prompt;
                       temperature := Q2Qc (33 # 100); seed := random_seed |}
                    (count_draw w) in
      let answer :=
        match answer with
        | Some a => if decide (a = "") then "" else replace_newlines a
        | None => ""
        end in
      match extract_python_list O answer with
      | Ok (Some (x :: l)) => (Some (x :: l), w1)
      | Ok _ => get_list_retries k prompt w1
      | Raise _ => get_list_retries k prompt w1
      end
  end.

Definition max_retries : nat := 3.

(** Lines 125-172.  The result is [None] for a list type outside the
    mapping, the extracted list of the first attempt that yields a
    non-empty one, and otherwise the list object of [template]. *)
Definition get_list (list_type : string) (theme : option string)
    (w : supply) : option listref * supply :=
  match list_type_mapping list_type theme with
  | None => (None, log (EvGetList list_type) w)
  | Some (default, prompt) =>
      match get_list_retries max_retries prompt (log (EvGetList list_type) w) with
      | (Some extracted_list, w') => (Some (Own extracted_list), w')
      | (None, w') => (Some (Default default), w')
      end
  end.

(** *** The answers [get_list] is given

    What the claim about [get_list] speaks of, written from the
    collaborators alone: the answer of the oracle to one call, whether an
    answer holds a list, and the answers to successive calls. *)

(** The answer to a call made when [n] requests have been sent: the
    content of the first of two requests that does not raise, [None] when
    both raise; and the number of requests used. *)
Definition oracle_answer (req : request) (n : nat) : option string * nat :=
  match create O n req with
  | Ok response => (response, 1%nat)
  | Raise _ =>
      match create O (S n) req with
      | Ok response => (response, 2%nat)
      | Raise _ => (None, 2%nat)
      end
  end.

(** The list an answer holds: the non-empty list the extraction finds in
    the answer with its line breaks replaced; none when the answer is
    absent or empty of a list, or when the extraction raises. *)
Definition validated (answer : option string) : option (list string) :=
  match extract_python_list O
          (match answer with Some a => replace_newlines a | None => "" end) with
  | Ok (Some (x :: l)) => Some (x :: l)
  | _ => None
  end.

(** The answers to [k] successive calls with [prompt], the first made
    when [n] requests have been sent and [d] seeds drawn. *)
Fixpoint answers (k : nat) (prompt : string) (n d : nat)
    : list (option string) :=
  match k with
  | 0%nat => []
  | S k' =>
      let '(answer, used) :=
        oracle_answer {| model := "gpt-3.5-turbo"; content := prompt;
                         temperature := Q2Qc (33 # 100);
                         seed := randint O d |} n in
      answer :: answers k' prompt (n + used) (S d)
  end.

(** [get_list] never raises; lifted into [M]. *)
Definition get_list_m (list_type : string) (theme : option string)
    : M (option listref) :=
  fun w => let '(r, w') := get_list list_type theme w in (Ok r, w').

(** The truth value of a queue in the current state. *)
Definition is_truthy (items : option listref) : M bool :=
  fun w => (Ok (truthy w items), w).

(** [items.pop()] together with its effect on the queue: the queue and
    the local variable name the same list object, so the queue under
    [state[category][item_type]] sees the removal. *)
Definition pop_from (category item_type : string) (r : listref)
    : M (option string * listref) :=
  fun w =>
    let '(item, r', w') := pop r w in
    match state_set category item_type (Some r') w' with
    | (Ok _, w'') => (Ok (item, r'), w'')
    | (Raise e, w'') => (Raise e, w'')
    end.

(** [x.pop() if x else None], with the list object as it is afterwards. *)
Definition pop_if_truthy (category item_type : string)
    (items : option listref) : M (option string * option listref) :=
  t ← is_truthy items;
  match items with
  | Some r =>
      if t : bool then
        '(item, r') ← pop_from category item_type r; mret (item, Some r')
      else mret (None, items)
  | None => mret (None, None)
  end.

(** Lines 188-193.  The refill of the themes is the first branch of
    [get_items] (line 179). *)
Definition get_current_theme (category : string) : M (option string) :=
  themes ← state_get category "themes";
  t ← is_truthy themes;
  themes ← (if t : bool then mret themes
            else themes' ← (fun w => get_list_m (category +:+ "_themes") None
                                       (log (EvRefill category "themes") w));
                 _ ← state_set category "themes" themes';
                 mret themes');
  '(theme, _) ← pop_if_truthy category "themes" themes;
  mret theme.

(** Lines 177-186. *)
Definition get_items (category item_type : string) (theme : option string)
    : M (option listref) :=
  fun w =>
    let w := log (EvRefill category item_type) w in
    if decide (item_type = "themes") then
      get_list_m (category +:+ "_themes") None w
    else
      (theme ← match theme with
               | Some t => mret (Some t)
               | None =>
                   theme ← get_current_theme category;
                   match theme with
                   | None => raise ValueError
                   | Some t => mret (Some t)
                   end
               end;
       get_list_m (category +:+ "_questions") theme) w.

(** Lines 204-207: fetch new items when the queue is empty.  The debug
    line of line 207 takes [len(items)], a [TypeError] when the refill
    returned [None]. *)
Definition refill_if_empty (category item_type : string)
    (theme : option string) (items : option listref) : M (option listref) :=
  t ← is_truthy items;
  if t : bool then mret items
  else items' ← get_items category item_type theme;
       _ ← state_set category item_type items';
       match items' with
       | None => raise TypeError
       | Some _ => mret items'
       end.

(** Lines 209-211: serve the last element and store [None] in place of
    an exhausted queue. *)
Definition serve (category item_type : string) (items : option listref)
    : M (option string) :=
  '(item, items) ← pop_if_truthy category item_type items;
  t ← is_truthy items;
  _ ← (if t : bool then mret tt else state_set category item_type None);
  mret item.

(** Lines 174-213, the body under the lock. *)
Definition update_counters_and_get_new_list
    (category item_type : string) (theme : option string)
    : M (option string) :=
  items ← state_get category item_type;
  items ← refill_if_empty category item_type theme items;
  serve category item_type items.

(** Lines 215-220. *)
Definition get_question (category : string) : M (option string) :=
  if decide (category ∈ ["text"; "images"]) then
    update_counters_and_get_new_list category "questions" None
  else raise ValueError.

(** [n] consecutive calls for the same key, with their results in call
    order. *)
Fixpoint take_many (n : nat) (category item_type : string)
    (theme : option string) (w : supply)
    : list (outcome (option string)) * supply :=
  match n with
  | 0%nat => ([], w)
  | S k =>
      let '(r, w1) := update_counters_and_get_new_list category item_type theme w in
      let '(rs, w2) := take_many k category item_type theme w1 in
      (r :: rs, w2)
  end.

End WithOracle.

(** The number of refills started for a key, of oracle calls
    ([call_openai]) and of completion requests, in a log. *)
Definition refills (category item_type : string) (w : supply) : nat :=
  length (filter (fun ev => ev = EvRefill category item_type) (trace w)).

Definition oracle_calls (w : supply) : nat :=
  length (filter (fun ev => ev = EvCallOpenai) (trace w)).

Definition requests_sent (w : supply) : nat :=
  length (filter (fun ev => ev = EvCreate) (trace w)).

(** What the oracle-facing functions leave alone, and what they log. *)
Definition oracle_event (ev : event) : Prop :=
  match ev with
  | EvRefill _ _ => False
  | _ => True
  end.

Definition calls_in (evs : list event) : nat :=
  length (filter (fun ev => ev = EvCallOpenai) evs).

Definition creates_in (evs : list event) : nat :=
  length (filter (fun ev => ev = EvCreate) evs).

Record oracle_step (w w' : supply) (evs : list event) : Prop := {
  step_state : state w' = state w;
  step_template : template_lists w' = template_lists w;
  step_trace : trace w' = evs ++ trace w;
  step_events : Forall oracle_event evs
}.

(** Categories are never removed from [state], and a function that is
    [quiet] for a key starts no refill of it. *)
Definition keeps_categories (w w' : supply) : Prop :=
  forall category, is_Some (state w !! category) -> is_Some (state w' !! category).

Definition quiet (category item_type : string) (w w' : supply) : Prop :=
  keeps_categories w w' /\
  refills category item_type w' = refills category item_type w.

(** *** Sample collaborators for the examples *)

(** A toy extraction: the answer is split at its commas. *)
Fixpoint split_commas (s : string) : list string :=
  match s with
  | EmptyString => [EmptyString]
  | String c s' =>
      if Ascii.eqb c (Ascii.ascii_of_nat 44) then EmptyString :: split_commas s'
      else match split_commas s' with
           | x :: xs => String c x :: xs
           | [] => [String c EmptyString]
           end
  end.

Definition toy_extract (s : string) : outcome (option (list string)) :=
  if decide (s = "") then Ok None else Ok (Some (split_commas s)).

(** An oracle that gives the same answer to every request, and one that
    is unreachable. *)
Definition oracle_answering (answer : string) : oracle :=
  {| create := fun _ _ => Ok (Some answer);
     randint := fun _ => 1%Z;
     extract_python_list := toy_extract |}.

Definition oracle_down : oracle :=
  {| create := fun _ _ => Raise TransportError;
     randint := fun _ => 1%Z;
     extract_python_list := toy_extract |}.

(** A state with the categories [text] and [images], the given queue of
    text questions and every other queue exhausted. *)
Definition sample_supply (questions : option listref) : supply :=
  {| state :=
       {[ "text" := {[ "themes" := None; "questions" := questions ]};
          "images" := {[ "themes" := None; "questions" := None ]} ]};
     template_lists := fun _ => ["d1"; "d2"];
     created := 0; draws := 0; trace := [] |}.

End Supply.

(** ** PeerDispatcher: [query_miner] and [start_query] *)

Module Dispatch.
Import Supply.

(** What a peer sends back.  A unary call returns the list of synapses of
    the dendrite, of which the scorers read [completion] (images) and
    [embeddings]; the text category returns the concatenated stream. *)
Record synapse : Type := {
  completion : option string;
  embeddings : option (list (list Qc))
}.

Inductive response : Type :=
| Synapses (l : list synapse)
| Text (s : string).

(** A chunk of a stream is a list ([isinstance(chunk, list)]) or
    something else; a stream yields its chunks and then ends or raises. *)
Inductive chunk : Type :=
| ChunkList (parts : list string)
| ChunkOther.

Record stream : Type := {
  chunks : list chunk;
  ending : outcome unit
}.

(** What the dendrite does for one peer: the result of the unary call of
    line 270 and of the streaming call of line 275 (a [TimeoutError] of
    [asyncio.wait_for] included). *)
Record dendrite_answer : Type := {
  unary : outcome (list synapse);
  streaming : outcome (list stream)
}.

(** Lines 277-280: only list chunks contribute, through their first
    element. *)
Fixpoint read_chunks (cs : list chunk) (responses : string) : outcome string :=
  match cs with
  | [] => Ok responses
  | ChunkList [] :: _ => Raise IndexError
  | ChunkList (part :: _) :: cs' => read_chunks cs' (responses +:+ part)
  | ChunkOther :: cs' => read_chunks cs' responses
  end.

Definition read_stream (resp : stream) : outcome string :=
  match read_chunks (chunks resp) "" with
  | Ok responses =>
      match ending resp with
      | Ok _ => Ok responses
      | Raise e => Raise e
      end
  | Raise e => Raise e
  end.

(** The body of the [try] block, lines 267-286.  Lines 267 and 270 read
    a module-level name [timeout], which the file never binds
    ([timeout_global] is [None] then and the lookup raises [NameError]).
    A synapse type that matches no branch leaves [responses] unbound at
    the [return]. *)
Definition query_miner_body (timeout_global : option Z) (uid : nat)
    (syn_type : string) (d : dendrite_answer) : outcome (nat * option response) :=
  match timeout_global with
  | None => Raise NameError
  | Some _ =>
      if decide (syn_type = "image" \/ syn_type = "embeddings") then
        match unary d with
        | Ok responses => Ok (uid, Some (Synapses responses))
        | Raise e => Raise e
        end
      else if decide (syn_type = "text") then
        match streaming d with
        | Ok [] => Ok (uid, Some (Text ""))
        | Ok (resp :: _) =>
            match read_stream resp with
            | Ok responses => Ok (uid, Some (Text responses))
            | Raise e => Raise e
            end
        | Raise e => Raise e
        end
      else Raise UnboundLocalError
  end.

(** Lines 265-289: the handler turns every exception into [(uid, None)]. *)
Definition query_miner (timeout_global : option Z) (uid : nat)
    (syn_type : string) (d : dendrite_answer) : outcome (nat * option response) :=
  match query_miner_body timeout_global uid syn_type d with
  | Ok r => Ok r
  | Raise _ => Ok (uid, None)
  end.

(** The response part of the result of [query_miner]. *)
Definition query_result (timeout_global : option Z) (uid : nat)
    (syn_type : string) (d : dendrite_answer) : option response :=
  match query_miner_body timeout_global uid syn_type d with
  | Ok r => r.2
  | Raise _ => None
  end.

(** [asyncio.gather] over the tasks: the results in the order of the tasks, or
    the first exception. *)
Fixpoint gather {A} (tasks : list (outcome A)) : outcome (list A) :=
  match tasks with
  | [] => Ok []
  | Ok a :: tasks' =>
      match gather tasks' with
      | Ok rs => Ok (a :: rs)
      | Raise e => Raise e
      end
  | Raise e :: _ => Raise e
  end.

(** A batch: one [query_miner] task per peer, awaited together. *)
Definition dispatch_batch (timeout_global : option Z) (syn_type : string)
    (peers : list (nat * dendrite_answer))
    : outcome (list (nat * option response)) :=
  gather ((fun p => query_miner timeout_global p.1 syn_type p.2) <$> peers).

(** The loop of [ImageValidator.start_query], lines 324-330: one question
    per peer, in order. *)
Fixpoint ask_questions (O : oracle) (available_uids : list nat)
    : M (list (nat * option string)) :=
  match available_uids with
  | [] => mret []
  | uid :: uids =>
      messages ← get_question O "images";
      rest ← ask_questions O uids;
      mret ((uid, messages) :: rest)
  end.

(** [ImageValidator.query_type] *)
Definition images_query_type : string := "images".

(** Lines 320-333.  [dendrite uid] is what the dendrite does for the
    peer [uid]; the second component is [uid_to_messages].  The lookup of
    the peer's axon and the construction of the synapse are taken to
    succeed. *)
Definition start_query (O : oracle) (timeout_global : option Z)
    (dendrite : nat -> dendrite_answer) (available_uids : list nat)
    : M (list (nat * option response) * gmap nat (option string)) :=
  asked ← ask_questions O available_uids;
  match dispatch_batch timeout_global images_query_type
          ((fun a => (a.1, dendrite a.1)) <$> asked) with
  | Ok query_responses =>
      mret (query_responses,
            foldl (fun m a => <[a.1 := a.2]> m) ∅ asked)
  | Raise e => raise e
  end.

(** Sample peers: one that answers and one whose call times out. *)
Definition peer_up : dendrite_answer :=
  {| unary := Ok [ {| completion := Some "url"; embeddings := None |} ];
     streaming := Ok [ {| chunks := [ChunkList ["a"]; ChunkList ["b"]];
                          ending := Ok tt |} ] |}.

Definition peer_down : dendrite_answer :=
  {| unary := Raise TimeoutError; streaming := Raise TimeoutError |}.

End Dispatch.

(** ** ScoringStrategy: the gate of [score_responses] *)

Module Scoring.
Import Dispatch.

(** Python's truth value of a response: [None], the empty string and the
    empty list are false. *)
Definition truthy_response (r : option response) : bool :=
  match r with
  | None => false
  | Some (Text s) => bool_decide (s <> "")
  | Some (Synapses l) => bool_decide (l <> [])
  end.

(** What the collaborators of a scoring pass answer: [random.random()];
    the reference answers of the oracle for the listed peers (text:
    [call_openai] tasks, which return [None] on failure and do not raise);
    the result of awaiting the reference embeddings
    ([call_openai_embeddings] tasks) and the score tasks together; and the
    telemetry call [wandb.log], made when [config.wandb_on] holds. *)
Record scoring_env : Type := {
  random_number : Qc;
  reference_answers : list nat -> list (option string);
  reference_embeddings : list nat -> outcome (list (list (list Qc)));
  gather_scores : list nat -> outcome (list (option Qc));
  wandb_on : bool;
  wandb_log : outcome unit
}.

(** Awaiting no task yields the empty list. *)
Definition gather_or_empty {A} (g : list nat -> outcome (list A))
    (tasks : list nat) : outcome (list A) :=
  match tasks with
  | [] => Ok []
  | _ :: _ => g tasks
  end.

(** The loops of lines 431-435 and 510-514: one task per peer that
    answered, when the gate is open; [uid_to_question[uid]] raises
    [KeyError] for a peer without a question. *)
Fixpoint first_tasks {Q : Type} (will_score_all : bool)
    (query_responses : list (nat * option response))
    (uid_to_question : gmap nat Q) : outcome (list nat) :=
  match query_responses with
  | [] => Ok []
  | (uid, response) :: rest =>
      if will_score_all && truthy_response response then
        match uid_to_question !! uid with
        | None => Raise KeyError
        | Some _ =>
            match first_tasks will_score_all rest uid_to_question with
            | Ok tasks => Ok (uid :: tasks)
            | Raise e => Raise e
            end
        end
      else first_tasks will_score_all rest uid_to_question
  end.

(** [next(res for u, res in query_responses if u == uid)]; exhausting the
    generator inside the coroutine surfaces as a [RuntimeError]. *)
Definition find_response (query_responses : list (nat * option response))
    (uid : nat) : outcome (option response) :=
  match filter (fun p => p.1 = uid) query_responses with
  | [] => Raise RuntimeError
  | p :: _ => Ok p.2
  end.

(** The loops of lines 447-450 and 531-534, on the pairs of [zip]. *)
Definition record_scores (scores : gmap nat Qc)
    (scored : list (nat * option Qc)) : gmap nat Qc :=
  foldl (fun m p => <[p.1 := default 0 p.2]> m) scores scored.

Definition telemetry (env : scoring_env) : outcome unit :=
  if wandb_on env then wandb_log env else Ok tt.

(** The common tail: await the tasks of [score_tasks] (here all fresh),
    record the scores, log, return [scores, uid_scores_dict]. *)
Definition finish (env : scoring_env) (score_tasks : list nat)
    (scores : gmap nat Qc) : outcome (gmap nat Qc * gmap nat Qc) :=
  match gather_or_empty (gather_scores env) score_tasks with
  | Raise e => Raise e
  | Ok scored_responses =>
      let scores := record_scores scores (zip score_tasks scored_responses) in
      match telemetry env with
      | Raise e => Raise e
      | Ok _ => Ok (scores, scores)
      end
  end.

(** The second [asyncio.gather] of the text and embeddings scorers,
    lines 445 and 529, and what follows it.  The gather is given every
    entry of [score_tasks]: the coroutines of the first phase, which the
    first gather has already awaited, and after them the score tasks
    appended by the second loop.  A task made from a coroutine that has
    finished raises [RuntimeError] (cannot reuse already awaited
    coroutine) at its first step, and it is the first in the list: the
    gather raises as soon as there is a first-phase task.  Without one,
    nothing was appended either and the list is empty. *)
Definition regather (env : scoring_env) (first_phase appended : list nat)
    (scores : gmap nat Qc) : outcome (gmap nat Qc * gmap nat Qc) :=
  match first_phase with
  | [] => finish env (first_phase ++ appended) scores
  | _ :: _ => Raise RuntimeError
  end.

Definition truthy_answer (a : option string) : bool :=
  match a with
  | None => false
  | Some s => bool_decide (s <> "")
  end.

(** The gate of [TextValidator], line 428: open when the draw is below
    [1/8], which is a float without rounding. *)
Definition text_gate (env : scoring_env) : bool :=
  bool_decide (random_number env < Q2Qc (1 # 8)).

(** Lines 439-443: a score task is appended for every peer whose
    reference answer is not empty. *)
Fixpoint text_second_loop (query_responses : list (nat * option response))
    (pairs : list (nat * option string)) : outcome (list nat) :=
  match pairs with
  | [] => Ok []
  | (uid, openai_answer) :: rest =>
      if truthy_answer openai_answer then
        match find_response query_responses uid with
        | Raise e => Raise e
        | Ok _ =>
            match text_second_loop query_responses rest with
            | Ok tasks => Ok (uid :: tasks)
            | Raise e => Raise e
            end
        end
      else text_second_loop query_responses rest
  end.

(** [TextValidator.score_responses], lines 421-455. *)
Definition text_score_responses (env : scoring_env)
    (query_responses : list (nat * option response))
    (uid_to_question : gmap nat (option string))
    : outcome (gmap nat Qc * gmap nat Qc) :=
  let will_score_all := text_gate env in
  match first_tasks will_score_all query_responses uid_to_question with
  | Raise e => Raise e
  | Ok score_tasks =>
      match gather_or_empty (fun tasks => Ok (reference_answers env tasks))
              score_tasks with
      | Raise e => Raise e
      | Ok openai_responses =>
          match text_second_loop query_responses
                  (zip score_tasks openai_responses) with
          | Raise e => Raise e
          | Ok appended => regather env score_tasks appended ∅
          end
      end
  end.

(** The gate of [EmbeddingsValidator], line 507: open when the draw is
    below [1/1.1], a Python float: the division of 1 by the float nearest
    to 1.1, rounded.  The draw of [random.random()] is a float as well,
    and comparing two floats compares the rationals they stand for. *)
Definition embeddings_threshold : Qc :=
  Float32.to_Qc (Float32.div64 (Float32.of_int 1) (Float32.literal 11 10)).

Definition embeddings_gate (env : scoring_env) : bool :=
  bool_decide (random_number env < embeddings_threshold).

(** [response[0].embeddings], lines 520-521, of the response found for
    the peer. *)
Definition first_embeddings (r : option response)
    : outcome (option (list (list Qc))) :=
  match r with
  | None => Raise TypeError
  | Some (Text s) => if decide (s = "") then Raise IndexError else Raise AttributeError
  | Some (Synapses []) => Raise IndexError
  | Some (Synapses (syn :: _)) => Ok (embeddings syn)
  end.

(** Lines 518-527: a score task is appended for a peer that returned
    embeddings, the others are scored 0 on the spot. *)
Fixpoint embeddings_second_loop (query_responses : list (nat * option response))
    (pairs : list (nat * list (list Qc))) (scores : gmap nat Qc)
    : outcome (list nat * gmap nat Qc) :=
  match pairs with
  | [] => Ok ([], scores)
  | (uid, openai_answer) :: rest =>
      match find_response query_responses uid with
      | Raise e => Raise e
      | Ok response =>
          match first_embeddings response with
          | Raise e => Raise e
          | Ok (Some response_embeddings) =>
              match embeddings_second_loop query_responses rest scores with
              | Ok (tasks, scores') => Ok (uid :: tasks, scores')
              | Raise e => Raise e
              end
          | Ok None =>
              embeddings_second_loop query_responses rest (<[uid := 0]> scores)
          end
      end
  end.

(** [EmbeddingsValidator.score_responses], lines 501-539. *)
Definition embeddings_score_responses (env : scoring_env)
    (query_responses : list (nat * option response))
    (uid_to_question : gmap nat (list string))
    : outcome (gmap nat Qc * gmap nat Qc) :=
  let will_score_all := embeddings_gate env in
  match first_tasks will_score_all query_responses uid_to_question with
  | Raise e => Raise e
  | Ok score_tasks =>
      match gather_or_empty (reference_embeddings env) score_tasks with
      | Raise e => Raise e
      | Ok openai_responses =>
          match embeddings_second_loop query_responses
                  (zip score_tasks openai_responses) ∅ with
          | Raise e => Raise e
          | Ok (appended, scores) => regather env score_tasks appended scores
          end
      end
  end.

(** The score of a peer in a score mapping, 0 when it has none. *)
Definition peer_score (scores : gmap nat Qc) (uid : nat) : Qc :=
  default 0 (scores !! uid).

(** Modelled from the spec: the merge of a score mapping into the round's
    score vector.  The function that does it, [get_and_score_embeddings],
    is called at line 563 and defined nowhere in the file; the
    specification gives the vector one entry per peer known this round,
    0 for a peer that was not scored (the vector starts as
    [torch.zeros(len(metagraph.hotkeys))], line 552). *)
Definition round_score_vector (n : nat) (scores : gmap nat Qc) : tensor :=
  peer_score scores <$> seq 0 n.

(** Sample collaborators: a closed gate and an open one. *)
Definition env_closed : scoring_env :=
  {| random_number := Q2Qc (99 # 100);
     reference_answers := fun tasks => (fun _ => Some "reference") <$> tasks;
     reference_embeddings := fun tasks => Ok ((fun _ => [[Q2Qc 1]]) <$> tasks);
     gather_scores := fun tasks => Ok ((fun _ => Some (Q2Qc 1)) <$> tasks);
     wandb_on := true;
     wandb_log := Ok tt |}.

(** A closed gate with telemetry on and the telemetry service down. *)
Definition env_closed_log_down : scoring_env :=
  {| random_number := Q2Qc (99 # 100);
     reference_answers := fun tasks => (fun _ => Some "reference") <$> tasks;
     reference_embeddings := fun tasks => Ok ((fun _ => [[Q2Qc 1]]) <$> tasks);
     gather_scores := fun tasks => Ok ((fun _ => Some (Q2Qc 1)) <$> tasks);
     wandb_on := true;
     wandb_log := Raise TransportError |}.

Definition env_open : scoring_env :=
  {| random_number := Q2Qc (1 # 100);
     reference_answers := fun tasks => (fun _ => Some "reference") <$> tasks;
     reference_embeddings := fun tasks => Ok ((fun _ => [[Q2Qc 1]]) <$> tasks);
     gather_scores := fun tasks => Ok ((fun _ => Some (Q2Qc 1)) <$> tasks);
     wandb_on := true;
     wandb_log := Ok tt |}.

End Scoring.

(** ** The event loop: concurrent calls under [list_update_lock] *)

Module EventLoop.
Import Supply.

(** A call of [update_counters_and_get_new_list] that runs as a task of
    the event loop. *)
Record call : Type := {
  category : string;
  item_type : string;
  theme : option string
}.

(** Where a task is.  Tasks are cooperative: a task runs until it awaits
    something that is not ready.  A call suspends at two places only: in
    [list_update_lock.acquire()] when the lock is taken (line 197), and,
    holding the lock, in the requests of a refill (line 205). *)
Inductive phase : Type :=
| Pending
| Waiting
| Refilling
| Returned (r : outcome (option string)).

#[global] Instance phase_eq_dec : EqDecision phase.
Proof. solve_decision. Defined.

(** The tasks with their phases, the queue of the lock (first come, first
    served), the task that holds the lock across a suspension, and the
    state of the supply. *)
Record loop : Type := {
  tasks : list (call * phase);
  waiters : list nat;
  holder : option nat;
  world : supply
}.

Definition set_phase (i : nat) (c : call) (p : phase) (s : loop) : loop :=
  {| tasks := <[i := (c, p)]> (tasks s); waiters := waiters s;
     holder := holder s; world := world s |}.

Section WithOracle.
Context (O : oracle).

(** The body under the lock runs to its end and the lock is released.
    While a task is suspended in a refill no other task runs the body, so
    the state it resumes with is the state it read. *)
Definition complete (i : nat) (c : call) (s : loop) : loop :=
  let '(r, w') :=
    update_counters_and_get_new_list O (category c) (item_type c) (theme c)
      (world s) in
  {| tasks := <[i := (c, Returned r)]> (tasks s); waiters := waiters s;
     holder := None; world := w' |}.

(** The task has the lock and runs lines 198-204: with a queue that is
    not empty (or a missing key) it never awaits and finishes within the
    step; otherwise it starts the refill and suspends, holding the lock. *)
Definition enter (i : nat) (c : call) (s : loop) : loop :=
  match slot (world s) (category c) (item_type c) with
  | Some items =>
      if truthy (world s) items then complete i c s
      else {| tasks := <[i := (c, Refilling)]> (tasks s); waiters := waiters s;
              holder := Some i; world := world s |}
  | None => complete i c s
  end.

(** The event loop runs task [i]; nothing happens when the task cannot
    go on. *)
Definition step (i : nat) (s : loop) : loop :=
  match tasks s !! i with
  | Some (c, Pending) =>
      match holder s, waiters s with
      | None, [] => enter i c s
      | _, _ =>
          {| tasks := <[i := (c, Waiting)]> (tasks s);
             waiters := waiters s ++ [i];
             holder := holder s; world := world s |}
      end
  | Some (c, Waiting) =>
      match holder s, waiters s with
      | None, j :: rest =>
          if decide (i = j) then
            enter i c {| tasks := tasks s; waiters := rest;
                         holder := None; world := world s |}
          else s
      | _, _ => s
      end
  | Some (c, Refilling) => complete i c s
  | _ => s
  end.

(** A schedule is the order in which the loop picks tasks. *)
Definition run (schedule : list nat) (s : loop) : loop :=
  foldl (fun s i => step i s) s schedule.

End WithOracle.

Definition spawn (calls : list call) (w : supply) : loop :=
  {| tasks := (fun c => (c, Pending)) <$> calls; waiters := [];
     holder := None; world := w |}.

(** The calls that are in a refill. *)
Definition refilling (s : loop) : list (call * phase) :=
  filter (fun t => t.2 = Refilling) (tasks s).

Definition all_returned (s : loop) : Prop :=
  Forall (fun t => exists r, t.2 = Returned r) (tasks s).

(** The lock is held across a suspension by the refilling task and by no
    other. *)
Definition lock_invariant (s : loop) : Prop :=
  forall i : nat,
    holder s = Some i <-> exists c, tasks s !! i = Some (c, Refilling).

(** The queue of the lock holds the waiting tasks, each once. *)
Definition queue_invariant (s : loop) : Prop :=
  NoDup (waiters s) /\
  forall i : nat,
    i ∈ waiters s <-> exists c, tasks s !! i = Some (c, Waiting).

(** The states two calls [c] can reach from the state [w0] of an
    exhausted queue; [first] tells which of the two got the lock. *)
Definition pair_of (first : bool) (c : call) (p q : phase)
    : list (call * phase) :=
  if first then [(c, p); (c, q)] else [(c, q); (c, p)].

Definition index_of (first : bool) : nat := if first then 0%nat else 1%nat.

Inductive two_calls (O : oracle) (c : call) (w0 : supply) : loop -> Prop :=
| both_pending :
    two_calls O c w0 (spawn [c; c] w0)
| one_refilling first :
    two_calls O c w0
      {| tasks := pair_of first c Refilling Pending; waiters := [];
         holder := Some (index_of first); world := w0 |}
| one_refilling_one_waiting first :
    two_calls O c w0
      {| tasks := pair_of first c Refilling Waiting;
         waiters := [index_of (negb first)];
         holder := Some (index_of first); world := w0 |}
| one_returned first :
    let r := update_counters_and_get_new_list O (category c) (item_type c)
               (theme c) w0 in
    two_calls O c w0
      {| tasks := pair_of first c (Returned r.1) Pending; waiters := [];
         holder := None; world := r.2 |}
| one_returned_one_waiting first :
    let r := update_counters_and_get_new_list O (category c) (item_type c)
               (theme c) w0 in
    two_calls O c w0
      {| tasks := pair_of first c (Returned r.1) Waiting;
         waiters := [index_of (negb first)];
         holder := None; world := r.2 |}
| both_returned first :
    let r := update_counters_and_get_new_list O (category c) (item_type c)
               (theme c) w0 in
    let r' := update_counters_and_get_new_list O (category c) (item_type c)
                (theme c) r.2 in
    two_calls O c w0
      {| tasks := pair_of first c (Returned r.1) (Returned r'.1); waiters := [];
         holder := None; world := r'.2 |}.

(** Sample calls. *)
Definition text_themes : call :=
  {| category := "text"; item_type := "themes"; theme := None |}.

Definition images_themes : call :=
  {| category := "images"; item_type := "themes"; theme := None |}.

End EventLoop.

(** ** Reachable peers: [check_uid] and [get_available_uids] *)

Module Discovery.
Import Dispatch.

(** Lines 222-234.  [probe] is the result of the [IsAlive] call of
    line 225 down to [response.is_success]; the handler turns an exception
    into [None]. *)
Definition check_uid (probe : outcome bool) (uid : nat) : outcome (option nat) :=
  match probe with
  | Ok true => Ok (Some uid)
  | Ok false => Ok None
  | Raise _ => Ok None
  end.

(** Lines 236-241: one probe per uid of the metagraph, awaited together,
    and the results that are not [None].  The lookup of each axon is taken
    to succeed. *)
Definition get_available_uids (probe : nat -> outcome bool)
    (uids : list nat) : outcome (list nat) :=
  match gather ((fun uid => check_uid (probe uid) uid) <$> uids) with
  | Ok results => Ok (omap id results)
  | Raise e => Raise e
  end.

(** The round of [query_synapse] whose reachable set comes from the
    probes of the metagraph's uids [0 .. n-1]. *)
Definition discovered_round (n : nat) (probe : nat -> outcome bool)
    (scores : outcome (list Qc)) (submit : outcome unit)
    : RoundLoop.round_env :=
  {| RoundLoop.metagraph_sync := Ok n;
     RoundLoop.available_uids := get_available_uids probe (seq 0 n);
     RoundLoop.get_and_score := scores;
     RoundLoop.ledger_submit := submit |}.

End Discovery.

(** ** [TextValidator.start_query] and the text of a stream *)

Module TextQuery.
Import Supply Dispatch.

(** The loop of a [start_query] that draws its questions from the queue
    of [category] (lines 324-326 and 409-411). *)
Fixpoint ask_questions_for (O : oracle) (category : string)
    (available_uids : list nat) : M (list (nat * option string)) :=
  match available_uids with
  | [] => mret []
  | uid :: uids =>
      prompt ← get_question O category;
      rest ← ask_questions_for O category uids;
      mret ((uid, prompt) :: rest)
  end.

(** [TextValidator.query_type] *)
Definition text_query_type : string := "text".

(** [TextValidator.start_query], lines 406-419; the second component is
    [uid_to_question]. *)
Definition start_query (O : oracle) (timeout_global : option Z)
    (dendrite : nat -> dendrite_answer) (available_uids : list nat)
    : M (list (nat * option response) * gmap nat (option string)) :=
  asked ← ask_questions_for O "text" available_uids;
  match dispatch_batch timeout_global text_query_type
          ((fun a => (a.1, dendrite a.1)) <$> asked) with
  | Ok query_responses =>
      mret (query_responses,
            foldl (fun m a => <[a.1 := a.2]> m) ∅ asked)
  | Raise e => raise e
  end.

(** What a chunk adds to the text: the first element of a list chunk. *)
Definition chunk_text (c : chunk) : string :=
  match c with
  | ChunkList (part :: _) => part
  | _ => ""
  end.

Definition join (parts : list string) : string :=
  foldr String.append "" parts.

(** A chunk that [read_chunks] can read. *)
Definition readable (c : chunk) : Prop := c <> ChunkList [].

End TextQuery.

(** ** [ImageValidator.score_responses] *)

Module ImageScoring.
Import Dispatch Scoring.

(** The collaborators of the image scorer: those of a scoring pass
    ([gather_scores] awaits the [template.reward.image_score] tasks) and
    the download of a generated image, lines 349-355 ([requests.get],
    [Image.open], [wandb.Image]).  A completion is modelled by the url it
    holds under the key "url". *)
Record image_env : Type := {
  scoring : scoring_env;
  download : string -> outcome unit
}.

(** The loop of lines 340-367.  A peer without a response or without a
    completion is scored 0 on the spot; for the others the image is
    downloaded and a score task is created.  An exception of the download
    leaves the function.  [response[0]] of a text response is a
    character, which has no [completion]. *)
Fixpoint first_loop (env : image_env)
    (query_responses : list (nat * option response))
    (uid_to_messages : gmap nat (option string)) (scores : gmap nat Qc)
    : outcome (list nat * gmap nat Qc) :=
  match query_responses with
  | [] => Ok ([], scores)
  | (uid, response) :: rest =>
      if truthy_response response then
        match response with
        | Some (Synapses (syn :: _)) =>
            match completion syn with
            | Some image_url =>
                match download env image_url with
                | Raise e => Raise e
                | Ok _ =>
                    match uid_to_messages !! uid with
                    | None => Raise KeyError
                    | Some _ =>
                        match first_loop env rest uid_to_messages scores with
                        | Ok (tasks, scores') => Ok (uid :: tasks, scores')
                        | Raise e => Raise e
                        end
                    end
                end
            | None => first_loop env rest uid_to_messages (<[uid := 0]> scores)
            end
        | Some (Synapses []) => Raise IndexError
        | Some (Text _) => Raise AttributeError
        | None => Raise TypeError
        end
      else first_loop env rest uid_to_messages (<[uid := 0]> scores)
  end.

(** Lines 335-385: the loop, then the tail shared with the other
    scorers (await the score tasks, record each score or 0, log). *)
Definition score_responses (env : image_env)
    (query_responses : list (nat * option response))
    (uid_to_messages : gmap nat (option string))
    : outcome (gmap nat Qc * gmap nat Qc) :=
  match first_loop env query_responses uid_to_messages ∅ with
  | Raise e => Raise e
  | Ok (score_tasks, scores) => finish (scoring env) score_tasks scores
  end.

(** The responses the loop scores 0 on the spot: none, an empty one, or
    one whose first synapse has no completion. *)
Definition scored_zero (r : option response) : Prop :=
  truthy_response r = false \/
  exists syn rest, r = Some (Synapses (syn :: rest)) /\ completion syn = None.

(** Awaiting tasks gives one result per task. *)
Definition one_result_per_task (env : scoring_env) : Prop :=
  forall (tasks : list nat) (results : list (option Qc)),
    gather_scores env tasks = Ok results -> length results = length tasks.

(** Sample collaborators: every download and every score task succeeds;
    and the same with the image host unreachable. *)
Definition env_up : image_env :=
  {| scoring := env_open; download := fun _ => Ok tt |}.

Definition env_host_down : image_env :=
  {| scoring := env_open; download := fun _ => Raise TransportError |}.

End ImageScoring.

(** ** [ImageValidator.get_and_score] *)

Module ImageRound.
Import Supply Dispatch Scoring ImageScoring.

(** Lines 387-389: the queries, then their scores. *)
Definition get_and_score (O : oracle) (timeout_global : option Z)
    (env : image_env) (dendrite : nat -> dendrite_answer)
    (available_uids : list nat) : M (gmap nat Qc * gmap nat Qc) :=
  started ← Dispatch.start_query O timeout_global dendrite available_uids;
  match score_responses env started.1 started.2 with
  | Ok scored => mret scored
  | Raise e => raise e
  end.

End ImageRound.

(** ** [TextValidator.get_and_score] *)

Module TextRound.
Import Supply Dispatch Scoring TextQuery.

(** Lines 457-459: the queries, then their scores. *)
Definition get_and_score (O : oracle) (timeout_global : option Z)
    (env : scoring_env) (dendrite : nat -> dendrite_answer)
    (available_uids : list nat) : M (gmap nat Qc * gmap nat Qc) :=
  started ← TextQuery.start_query O timeout_global dendrite available_uids;
  match text_score_responses env started.1 started.2 with
  | Ok scored => mret scored
  | Raise e => raise e
  end.

End TextRound.

(** ** [EmbeddingsValidator.start_query] and [call_openai_embeddings] *)

Module EmbeddingsQuery.

(** Lines 484-492: every peer receives
    [len(random_texts) // len(available_uids)] consecutive texts, the peer
    at position [index] those from [index * num_texts_per_uid] on.  [None]
    stands for the [ZeroDivisionError] of an empty peer list.  (The call of
    line 483 passes four arguments to [get_random_texts], which is
    declared without [self] and takes three: as the file stands the method
    raises [TypeError] before this loop.) *)
Fixpoint assign_from (num_texts_per_uid : nat) (random_texts : list string)
    (index : nat) (available_uids : list nat) : list (nat * list string) :=
  match available_uids with
  | [] => []
  | uid :: uids =>
      let start_index := (index * num_texts_per_uid)%nat in
      (uid, take num_texts_per_uid (drop start_index random_texts))
        :: assign_from num_texts_per_uid random_texts (S index) uids
  end.

Definition assign_texts (random_texts : list string)
    (available_uids : list nat) : option (list (nat * list string)) :=
  match available_uids with
  | [] => None
  | _ :: _ =>
      let num_texts_per_uid :=
        (length random_texts / length available_uids)%nat in
      Some (assign_from num_texts_per_uid random_texts 0 available_uids)
  end.

(** Line 104: [texts[i:i + batch_size]] for [i] in
    [range(0, len(texts), batch_size)]; [None] stands for the [ValueError]
    of a zero step. *)
Definition batches {A} (texts : list A) (batch_size : nat)
    : option (list (list A)) :=
  match batch_size with
  | 0%nat => None
  | S _ =>
      Some ((fun j => take batch_size (drop (j * batch_size) texts))
              <$> seq 0 ((length texts + batch_size - 1) / batch_size))
  end.

Section WithStrip.
(** [blank text] tells that [text.strip()] is empty. *)
Context (blank : string -> bool).

(** Lines 106-113: the requests that are sent, one per batch that keeps
    a text once the blank ones are removed. *)
Definition requests (texts : list string) (batch_size : nat)
    : option (list (list string)) :=
  match batches texts batch_size with
  | None => None
  | Some bs =>
      Some (filter (fun b => b <> [])
              ((fun batch => filter (fun text => blank text = false) batch) <$> bs))
  end.

(** Lines 115-123.  [embed] is the result of one embeddings request,
    down to the list of [item.embedding]; [completion_order] is the order
    in which [asyncio.as_completed] yields the tasks.  A request that
    fails is logged and skipped. *)
Definition collect (embed : list string -> outcome (list (list Qc)))
    (completed : list (list string)) : list (list Qc) :=
  concat ((fun request => match embed request with
                          | Ok batch_embeddings => batch_embeddings
                          | Raise _ => []
                          end) <$> completed).

Definition call_openai_embeddings
    (embed : list string -> outcome (list (list Qc)))
    (completion_order : list (list string) -> list (list string))
    (texts : list string) (batch_size : nat) : option (list (list Qc)) :=
  match requests texts batch_size with
  | None => None
  | Some tasks => Some (collect embed (completion_order tasks))
  end.

End WithStrip.

End EmbeddingsQuery.

(** ** More sample states *)

Module Samples.
Import Supply.

(** A state file that carries a category outside the four list types. *)
Definition stray_supply : supply :=
  {| state := {[ "embeddings" := {[ "themes" := None; "questions" := None ]} ]};
     template_lists := fun _ => ["d1"; "d2"];
     created := 0; draws := 0; trace := [] |}.

(** The queue of text themes holds the list object of [template]. *)
Definition fallback_supply : supply :=
  {| state :=
       {[ "text" := {[ "themes" := Some (Default question_themes);
                      "questions" := None ]} ]};
     template_lists := fun _ => ["d1"; "d2"];
     created := 0; draws := 0; trace := [] |}.

End Samples.

(** * Properties *)

(** ** WeightAccumulator *)

Section AccumulatorFacts.
Import Accumulator.

Lemma one_minus_alpha : 1 - alpha = Q2Qc (7 # 10).
Proof. apply Qc_is_canon. reflexivity. Qed.

Lemma length_scale a t : length (scale a t) = length t.
Proof. unfold scale. by rewrite length_fmap. Qed.

Lemma add_same_length s t :
  length s = length t -> add s t = Ok (zip_with Qcplus s t).
Proof. intros H. unfold add. by rewrite decide_True. Qed.

Lemma ema_next_call (v prev : tensor) :
  zip_with Qcplus (scale alpha v) (scale (1 - alpha) prev) = ema v prev.
Proof.
  revert prev. induction v as [|x v IH]; intros [|p prev]; try done.
  cbn. rewrite one_minus_alpha. f_equal. apply IH.
Qed.

Lemma received_set_weights (v : tensor) (submit : outcome unit)
    (st : accumulator) :
  received (set_weights v submit st).2 = v :: received st.
Proof.
  unfold set_weights.
  destruct (moving_average_scores st); cbn; by case_match.
Qed.

End AccumulatorFacts.

Section Accumulator32Facts.
Import Float32 Accumulator32.

Lemma length_scale32 a t : length (scale a t) = length t.
Proof. unfold scale. by rewrite length_fmap. Qed.

Lemma add32_same_length s t :
  length s = length t -> add s t = Ok (zip_with add32 s t).
Proof. intros H. unfold add. by rewrite decide_True. Qed.

Lemma ema_zip (v prev : tensor32) :
  zip_with add32 (scale alpha v) (scale one_minus_alpha prev) = ema v prev.
Proof.
  revert prev. induction v as [|x v IH]; intros [|p prev]; try done.
  cbn [scale fmap list_fmap zip_with] in *. unfold ema. cbn [zip_with].
  f_equal. apply IH.
Qed.

(** The two factors, as float32 numbers: 0.300000012 and 0.699999988. *)
Lemma float32_factors :
  to_float32 alpha = f32 10066330 (-25) /\
  to_float32 one_minus_alpha = f32 11744051 (-24).
Proof. split; vm_compute; reflexivity. Qed.

Lemma ema_lookup (v prev : tensor32) (i : nat) (x p : float) :
  v !! i = Some x -> prev !! i = Some p ->
  ema v prev !! i
  = Some (add32 (mul32 (to_float32 alpha) x)
                (mul32 (to_float32 one_minus_alpha) p)).
Proof.
  intros Hx Hp. unfold ema. rewrite lookup_zip_with, Hx. cbn. by rewrite Hp.
Qed.

(** C1, as the code has it.  The update of the weight accumulator obeys
    the EMA law in float32 arithmetic.  On a call with input [v] over the
    same peers as the previous vector [prev], the vector it commits, which
    is also the vector it submits to the ledger, is at every peer index
    the rounded sum of the rounded products [0.3 * v] and [0.7 * prev],
    the two factors being [.3] and [1 - .3] converted to float32.  On the
    first call (no moving average yet) [prev] is a copy of the input, so
    the committed vector is that expression of the input alone, which
    need not be the input.  It is the input itself where the input is
    zero. *)
Theorem set_weights_float32_law (v : tensor32) (submit : outcome unit)
    (st : accumulator) :
  (moving_average_scores st = None ->
     committed (set_weights v submit st) = Some (ema v v) /\
     submitted (set_weights v submit st).2 = ema v v :: submitted st /\
     (forall (i : nat) (x : float),
        v !! i = Some x ->
        ema v v !! i
        = Some (add32 (mul32 (to_float32 alpha) x)
                      (mul32 (to_float32 one_minus_alpha) x))) /\
     (forall n : nat,
        v = replicate n (SpecFloat.S754_zero false) ->
        committed (set_weights v submit st) = Some v)) /\
  (forall prev : tensor32,
     moving_average_scores st = Some prev ->
     length v = length prev ->
     committed (set_weights v submit st) = Some (ema v prev) /\
     submitted (set_weights v submit st).2 = ema v prev :: submitted st /\
     forall (i : nat) (x p : float),
       v !! i = Some x -> prev !! i = Some p ->
       ema v prev !! i
       = Some (add32 (mul32 (to_float32 alpha) x)
                     (mul32 (to_float32 one_minus_alpha) p))).
Proof.
  split.
  - intros Hnone.
    assert (Hcommitted : committed (set_weights v submit st) = Some (ema v v)).
    { unfold committed, set_weights. rewrite Hnone. cbn [moving_average_scores].
      rewrite add32_same_length by (by rewrite !length_scale32).
      rewrite ema_zip. by destruct submit. }
    split; [done|]. split; [|split].
    + unfold set_weights. rewrite Hnone. cbn [moving_average_scores].
      rewrite add32_same_length by (by rewrite !length_scale32).
      rewrite ema_zip. by destruct submit.
    + intros i x Hx. by apply ema_lookup.
    + intros n ->. rewrite Hcommitted. f_equal. clear Hcommitted.
      induction n as [|n IH]; [done|].
      cbn [replicate]. unfold ema in *. cbn [zip_with]. by rewrite IH.
  - intros prev Hprev Hlen. unfold committed, set_weights. rewrite Hprev.
    cbn [moving_average_scores].
    rewrite Hprev, add32_same_length by (by rewrite !length_scale32).
    rewrite ema_zip. repeat split; try by destruct submit.
    intros i x p Hx Hp. by apply ema_lookup.
Qed.

(** The scenario of the specification: the first round commits
    [1, 0, 1/2], the second round folds [0, 1, 1/2] into it. *)
Lemma set_weights_float32_law_witness :
  let one := f32 8388608 (-23) in
  let half := f32 8388608 (-24) in
  let zero := SpecFloat.S754_zero false in
  let v1 := [one; zero; half] in
  let v2 := [zero; one; half] in
  let st1 := (set_weights v1 (Ok tt) fresh_accumulator).2 in
  committed (set_weights v1 (Ok tt) fresh_accumulator) = Some (ema v1 v1) /\
  committed (set_weights v2 (Ok tt) st1) = Some (ema v2 (ema v1 v1)).
Proof.
  intros one half zero v1 v2 st1. split.
  - destruct (set_weights_float32_law v1 (Ok tt) fresh_accumulator)
      as [Hfirst _].
    destruct Hfirst as [Hcommitted _]; [reflexivity|exact Hcommitted].
  - destruct (set_weights_float32_law v2 (Ok tt) st1) as [_ Hnext].
    destruct (Hnext (ema v1 v1)) as [Hcommitted _];
      [vm_compute; reflexivity|reflexivity|exact Hcommitted].
Defined.

(** C1, as stated, fails.  On the first call with the score 0.03 (the
    float32 number 16106127 * 2^-29) the committed vector holds the next
    float32 number, 0.0300000012: the sum of the two rounded products is
    not the input. *)
Lemma first_call_rounds_the_input :
  let v := [f32 16106127 (-29)] in
  moving_average_scores fresh_accumulator = None /\
  committed (set_weights v (Ok tt) fresh_accumulator)
    = Some [f32 16106128 (-29)] /\
  committed (set_weights v (Ok tt) fresh_accumulator) <> Some v.
Proof.
  cbv zeta. split; [reflexivity|]. split; [vm_compute; reflexivity|].
  vm_compute. intros H. discriminate H.
Qed.

(** *** The two models of [set_weights] agree on control flow and shapes

    The exact model and the float32 model raise in the same cases, with
    the same exception, and hold vectors of the same sizes afterwards:
    statements about failures and sizes made on one hold of the other. *)

Lemma add_same_shape (s t : tensor) (s32 t32 : tensor32) :
  length s = length s32 -> length t = length t32 ->
  match Tensor.add s t, add s32 t32 with
  | Ok r, Ok r32 => length r = length r32
  | Raise e, Raise e32 => e = e32
  | _, _ => False
  end.
Proof.
  intros Hs Ht. unfold Tensor.add, add.
  destruct (decide (length s = length t)) as [Heq|Hne].
  - rewrite decide_True by congruence.
    rewrite !length_zip_with. lia.
  - rewrite decide_False by congruence.
    destruct s as [|x [|x' s]], s32 as [|y [|y' s32]]; try done;
      destruct t as [|z [|z' t]], t32 as [|u [|u' t32]]; try done;
      cbn in *; rewrite ?length_fmap; lia.
Qed.

Lemma set_weights_same_shape (v : tensor) (v32 : tensor32)
    (submit : outcome unit) (st : Accumulator.accumulator) (st32 : accumulator) :
  length v = length v32 ->
  length <$> Accumulator.moving_average_scores st
    = length <$> moving_average_scores st32 ->
  (Accumulator.set_weights v submit st).1 = (set_weights v32 submit st32).1 /\
  length <$> Accumulator.committed (Accumulator.set_weights v submit st)
    = length <$> committed (set_weights v32 submit st32).
Proof.
  intros Hv Hst. unfold Accumulator.set_weights, set_weights,
    Accumulator.committed, committed.
  destruct (Accumulator.moving_average_scores st) as [m|],
    (moving_average_scores st32) as [m32|] eqn:H32; try done;
    cbn [Accumulator.moving_average_scores moving_average_scores];
    rewrite ?H32.
  - assert (Hm : length m = length m32) by (by injection Hst).
    pose proof (add_same_shape
                  (Tensor.scale Accumulator.alpha v)
                  (Tensor.scale (1 - Accumulator.alpha) m)
                  (scale alpha v32) (scale one_minus_alpha m32)) as Hadd.
    unfold Tensor.scale, scale in Hadd. rewrite !length_fmap in Hadd.
    specialize (Hadd Hv Hm). unfold Tensor.scale, scale.
    destruct (Tensor.add _ _) as [r|e], (add _ _) as [r32|e32]; try done;
      cbn; [by rewrite Hadd|rewrite H32; cbn; by rewrite Hadd, Hm].
  - pose proof (add_same_shape
                  (Tensor.scale Accumulator.alpha v)
                  (Tensor.scale (1 - Accumulator.alpha) v)
                  (scale alpha v32) (scale one_minus_alpha v32)) as Hadd.
    unfold Tensor.scale, scale in Hadd. rewrite !length_fmap in Hadd.
    specialize (Hadd Hv Hv). unfold Tensor.scale, scale.
    destruct (Tensor.add _ _) as [r|e], (add _ _) as [r32|e32]; try done;
      cbn; [by rewrite Hadd|by rewrite Hadd, Hv].
Qed.

End Accumulator32Facts.


(** ** RoundCoordinator *)

Section RoundLoopFacts.
Import Accumulator RoundLoop.

(** A commit fires exactly in the rounds that reach the merge with a
    counter equal to 4 modulo 5: the accumulator receives a vector in
    those rounds and in no other. *)
Lemma commit_fires_iff (env : round_env) (st : loop_state) :
  received (acc (round_body env st).2) <> received (acc st) <->
  reaches_commit env st = true.
Proof.
  unfold round_body, reaches_commit.
  destruct (metagraph_sync env) as [n|]; [|done].
  destruct (available_uids env) as [[|u us]|]; [done| |done].
  destruct (get_and_score env) as [scores|]; [|done].
  destruct (iadd (total_scores st) scores) as [total|] eqn:Hadd; cbn; [|done].
  case_decide as Hmod; cbn.
  - rewrite !bool_decide_eq_true_2 by done. cbn.
    split; [done|intros _].
    unfold commit.
    destruct (set_weights _ _ _) as [[[]|e'] a] eqn:Hsw; cbn.
    all: apply (f_equal snd) in Hsw; cbn in Hsw; subst a.
    all: rewrite received_set_weights; cbn.
    all: intros Heq; apply (f_equal length) in Heq; cbn in Heq; lia.
  - rewrite bool_decide_eq_true_2 by done.
    rewrite bool_decide_eq_false_2 by done. done.
Qed.

(** C8, as the code has it.  A round that raises is logged and the loop
    goes on with the state the round left.  That state is the state before
    the round whenever the exception is raised before the commit block
    (discovery, scoring or the merge raised, or the round is not a commit
    round).  When the commit block itself raises, the round's scores stay
    merged into the sum, the counter is reset to 0 and the accumulator
    keeps whatever [set_weights] did before it raised. *)
Theorem round_failure_effect (env : round_env) (st : loop_state)
    (logged : list exn) (e : exn) :
  (round_body env st).1 = Raise e ->
  (round env (st, logged)).2 = e :: logged /\
  (reaches_commit env st = false -> (round env (st, logged)).1 = st) /\
  (reaches_commit env st = true ->
   exists scores total : tensor,
     get_and_score env = Ok scores /\
     iadd (total_scores st) scores = Ok total /\
     (round env (st, logged)).1 = failed_commit_state env st total).
Proof.
  unfold round, reaches_commit, round_body. cbn.
  destruct (metagraph_sync env) as [n|]; cbn; [|by intros [= ->]].
  destruct (available_uids env) as [[|u us]|]; cbn;
    [done| |by intros [= ->]].
  destruct (get_and_score env) as [scores|]; cbn; [|by intros [= ->]].
  destruct (iadd (total_scores st) scores) as [total|] eqn:Hadd; cbn;
    [|by intros [= ->]].
  case_decide as Hmod; cbn.
  - rewrite !bool_decide_eq_true_2 by done.
    unfold commit. cbn.
    destruct (set_weights _ _ _) as [[[]|e'] a] eqn:Hsw; cbn; [done|].
    intros [= ->]. split; [done|]. split; [done|]. intros _.
    exists scores, total. repeat split; [done|].
    unfold failed_commit_state, div_scalar. by rewrite Hsw.
  - done.
Qed.

Lemma round_failure_effect_witness :
  let st := {| steps_passed := 4; total_scores := [Q2Qc 0];
               acc := fresh_accumulator |} in
  let env := ledger_down_round [Q2Qc 1] in
  (round_body env st).1 = Raise TransportError /\
  (round env (st, [])).2 = [TransportError].
Proof.
  intros st env.
  assert (H : (round_body env st).1 = Raise TransportError) by reflexivity.
  split; [exact H|].
  exact (proj1 (round_failure_effect env st [] TransportError H)).
Defined.

(** C8, as stated, fails.  After four rounds the fifth merges its scores
    and enters the commit block, where the ledger call raises: the sum,
    the counter and the moving average all differ from what they were
    when the round began. *)
Lemma round_failure_not_atomic :
  let before :=
    (query_synapse (replicate 4 (ok_round [Q2Qc 0])) (initial 1 fresh_accumulator, [])).1 in
  let after := (round (ledger_down_round [Q2Qc 1]) (before, [])).1 in
  (round_body (ledger_down_round [Q2Qc 1]) before).1 = Raise TransportError /\
  total_scores before = [Q2Qc 0] /\ total_scores after = [Q2Qc 1] /\
  steps_passed before = 4%Z /\ steps_passed after = 0%Z /\
  moving_average_scores (acc before) = None /\
  moving_average_scores (acc after) = Some [Q2Qc (1 # 5)] /\
  after <> before.
Proof.
  cbv zeta.
  repeat split; try (apply (bool_decide_unpack _); vm_compute; exact I).
  intros H. apply (f_equal steps_passed) in H. vm_compute in H. discriminate H.
Qed.

(** C2, evaluated on nine successful rounds over one peer that scores 1
    in each.  The first commit (round 5) receives the average of its five
    rounds and leaves the counter at 1 and the sum at zero.  The second
    commit fires in round 9, four rounds later: its window holds four
    vectors, whose average is 1, and the accumulator receives their sum
    over five.  No round raised. *)
Theorem second_commit_divides_by_five :
  let after n :=
    (query_synapse (replicate n (ok_round [Q2Qc 1])) (initial 1 fresh_accumulator, [])).1 in
  received (acc (after 4%nat)) = [] /\
  received (acc (after 5%nat)) = [[Q2Qc 1]] /\
  steps_passed (after 5%nat) = 1%Z /\
  total_scores (after 5%nat) = [Q2Qc 0] /\
  received (acc (after 8%nat)) = [[Q2Qc 1]] /\
  total_scores (after 8%nat) = [Q2Qc 3] /\
  received (acc (after 9%nat)) = [[Q2Qc (4 # 5)]; [Q2Qc 1]] /\
  window_average 1 (replicate 4 [Q2Qc 1]) = [Q2Qc 1] /\
  (query_synapse (replicate 9 (ok_round [Q2Qc 1])) (initial 1 fresh_accumulator, [])).2 = [].
Proof.
  cbv zeta.
  repeat split; apply (bool_decide_unpack _); vm_compute; exact I.
Qed.

End RoundLoopFacts.

(** ** TaskSupply *)

Section SupplyFacts.
Import Supply.
Context (O : oracle).

Lemma oracle_step_refl w : oracle_step w w [].
Proof. by split. Qed.

Lemma oracle_step_trans w1 w2 w3 evs1 evs2 :
  oracle_step w1 w2 evs1 -> oracle_step w2 w3 evs2 ->
  oracle_step w1 w3 (evs2 ++ evs1).
Proof.
  intros [H1 H2 H3 H4] [K1 K2 K3 K4]. split.
  - congruence.
  - congruence.
  - rewrite K3, H3. by rewrite (assoc_L (++)).
  - by apply Forall_app.
Qed.

Lemma calls_in_app evs1 evs2 : calls_in (evs1 ++ evs2) = (calls_in evs1 + calls_in evs2)%nat.
Proof. unfold calls_in. by rewrite filter_app, length_app. Qed.

Lemma creates_in_app evs1 evs2 :
  creates_in (evs1 ++ evs2) = (creates_in evs1 + creates_in evs2)%nat.
Proof. unfold creates_in. by rewrite filter_app, length_app. Qed.

Lemma calls_in_create : calls_in [EvCreate] = 0%nat.
Proof. reflexivity. Qed.

Lemma creates_in_create : creates_in [EvCreate] = 1%nat.
Proof. reflexivity. Qed.

Lemma calls_in_call : calls_in [EvCallOpenai] = 1%nat.
Proof. reflexivity. Qed.

Lemma creates_in_call : creates_in [EvCallOpenai] = 0%nat.
Proof. reflexivity. Qed.

Lemma requests_sent_step w w' evs :
  oracle_step w w' evs -> requests_sent w' = (creates_in evs + requests_sent w)%nat.
Proof. intros [_ _ H _]. unfold requests_sent. rewrite H. apply creates_in_app. Qed.

Lemma oracle_calls_step w w' evs :
  oracle_step w w' evs -> oracle_calls w' = (calls_in evs + oracle_calls w)%nat.
Proof. intros [_ _ H _]. unfold oracle_calls. rewrite H. apply calls_in_app. Qed.

Lemma filter_none {A} (P : A -> Prop) `{!forall x, Decision (P x)} (l : list A) :
  Forall (fun x => ~ P x) l -> filter P l = [].
Proof.
  induction 1 as [|x l Hx _ IH]; [done|]. by rewrite filter_cons_False.
Qed.

Lemma refills_step category item_type w w' evs :
  oracle_step w w' evs -> refills category item_type w' = refills category item_type w.
Proof.
  intros [_ _ H Hev]. unfold refills. rewrite H, filter_app, length_app.
  rewrite (filter_none _ evs); [done|].
  eapply Forall_impl; [exact Hev|]. by intros [] Hx.
Qed.

Lemma call_openai_attempts_step n req w :
  exists evs,
    oracle_step w (call_openai_attempts O n req w).2 evs /\
    calls_in evs = 0%nat /\ (creates_in evs <= n)%nat.
Proof.
  revert w. induction n as [|n IH]; intros w; cbn.
  - exists []. split; [apply oracle_step_refl|]. by split.
  - assert (Hc : oracle_step w (count_create w) [EvCreate]).
    { split; try done. by repeat constructor. }
    destruct (create O (created w) req) as [response|e]; cbn.
    + exists [EvCreate]. split; [done|]. split; [done|].
      rewrite creates_in_create. lia.
    + destruct (IH (count_create w)) as (evs & Hstep & Hcalls & Hcreates).
      exists (evs ++ [EvCreate]). split; [by eapply oracle_step_trans|].
      rewrite calls_in_app, creates_in_app, Hcalls, calls_in_create,
        creates_in_create. split; [done|lia].
Qed.

Lemma call_openai_step req w :
  exists evs,
    oracle_step w (call_openai O req w).2 evs /\
    calls_in evs = 1%nat /\ (creates_in evs <= 2)%nat.
Proof.
  unfold call_openai.
  destruct (call_openai_attempts_step 2 req (log EvCallOpenai w))
    as (evs & Hstep & Hcalls & Hcreates).
  exists (evs ++ [EvCallOpenai]). split.
  - eapply oracle_step_trans; [|exact Hstep].
    split; try done. by repeat constructor.
  - rewrite calls_in_app, creates_in_app, Hcalls, calls_in_call,
      creates_in_call. split; [done|lia].
Qed.

(** The loop of [get_list]: at most one oracle call per retry, a list
    that is returned is a non-empty extraction of an answer, and [None]
    is returned only after all the retries *)
Lemma get_list_retries_step n prompt w :
  exists evs,
    oracle_step w (get_list_retries O n prompt w).2 evs /\
    (calls_in evs <= n)%nat /\ (creates_in evs <= 2 * n)%nat /\
    match (get_list_retries O n prompt w).1 with
    | Some l => l <> [] /\ exists answer, extract_python_list O answer = Ok (Some l)
    | None => calls_in evs = n
    end.
Proof.
  revert w. induction n as [|n IH]; intros w; cbn [get_list_retries].
  - exists []. split; [apply oracle_step_refl|]. cbn. repeat split; lia.
  - destruct (call_openai_step
      {| model := "gpt-3.5-turbo"; content := prompt;
         temperature := Q2Qc (33 # 100); seed := randint O (draws w) |}
      (count_draw w)) as (evs1 & Hstep1 & Hcalls1 & Hcreates1).
    destruct (call_openai O _ (count_draw w)) as [answer w1]; cbn [snd] in *.
    assert (Hstep0 : oracle_step w w1 evs1).
    { destruct Hstep1 as [? ? ? ?]. by split. }
    set (answer' := match answer with
                    | Some a => if decide (a = "") then "" else replace_newlines a
                    | None => ""
                    end).
    destruct (IH w1) as (evs & Hstep & Hcalls & Hcreates & Hres).
    assert (Hretry : exists evs0,
      oracle_step w (get_list_retries O n prompt w1).2 evs0 /\
      (calls_in evs0 <= S n)%nat /\ (creates_in evs0 <= 2 * S n)%nat /\
      match (get_list_retries O n prompt w1).1 with
      | Some l => l <> [] /\ exists answer, extract_python_list O answer = Ok (Some l)
      | None => calls_in evs0 = S n
      end).
    { exists (evs ++ evs1). split; [by eapply oracle_step_trans|].
      rewrite calls_in_app, creates_in_app, Hcalls1.
      split; [lia|]. split; [lia|].
      destruct (get_list_retries O n prompt w1).1; [done|lia]. }
    fold answer'.
    destruct (extract_python_list O answer') as [[[|x l]|]|e] eqn:Hex; try done.
    cbn. exists evs1. split; [done|]. split; [lia|]. split; [lia|].
    split; [done|]. by exists answer'.
Qed.


(** *** The queue under a key *)

Lemma state_get_slot category item_type w :
  state_get category item_type w =
  match slot w category item_type with
  | Some items => (Ok items, w)
  | None => (Raise KeyError, w)
  end.
Proof.
  unfold state_get, slot.
  destruct (state w !! category) as [queues|]; cbn; [|done].
  by destruct (queues !! item_type).
Qed.

Lemma slot_is_Some_category w category item_type items :
  slot w category item_type = Some items -> is_Some (state w !! category).
Proof. unfold slot. destruct (state w !! category); [eauto|done]. Qed.

Lemma state_set_ok category item_type items w :
  is_Some (state w !! category) ->
  exists w',
    state_set category item_type items w = (Ok tt, w') /\
    slot w' category item_type = Some items /\
    template_lists w' = template_lists w /\ trace w' = trace w.
Proof.
  intros [queues Hq]. unfold state_set. rewrite Hq.
  eexists. split; [done|]. unfold slot. cbn.
  rewrite lookup_insert_eq. cbn. by rewrite lookup_insert_eq.
Qed.

Lemma keeps_categories_same w w' :
  state w' = state w -> keeps_categories w w'.
Proof. intros H c. by rewrite H. Qed.

Lemma quiet_refl category item_type w : quiet category item_type w w.
Proof. split; [by apply keeps_categories_same|done]. Qed.

Lemma quiet_trans category item_type w1 w2 w3 :
  quiet category item_type w1 w2 -> quiet category item_type w2 w3 ->
  quiet category item_type w1 w3.
Proof.
  intros [H1 H2] [K1 K2]. split; [|congruence].
  intros c Hc. by apply K1, H1.
Qed.

Lemma quiet_bind {A B} category item_type (m : M A) (f : A -> M B) w :
  quiet category item_type w (m w).2 ->
  (forall a w', quiet category item_type w' (f a w').2) ->
  quiet category item_type w ((m ≫= f) w).2.
Proof.
  intros Hm Hf. unfold mbind, M_bind.
  destruct (m w) as [[a|e] w'] eqn:Hmw; cbn in *; [|done].
  eapply quiet_trans; [exact Hm|apply Hf].
Qed.

Lemma quiet_oracle_step category item_type w w' evs :
  oracle_step w w' evs -> quiet category item_type w w'.
Proof.
  intros Hstep. split; [|by eapply refills_step].
  intros c. by rewrite (step_state _ _ _ Hstep).
Qed.

Lemma quiet_state_get category item_type c k w :
  quiet category item_type w (state_get c k w).2.
Proof. rewrite state_get_slot. destruct (slot w c k); apply quiet_refl. Qed.

Lemma quiet_state_set category item_type c k items w :
  quiet category item_type w (state_set c k items w).2.
Proof.
  unfold state_set. destruct (state w !! c) as [queues|] eqn:Hq; cbn;
    [|apply quiet_refl].
  split; [|done]. intros c' Hc'. cbn.
  destruct (decide (c = c')) as [->|Hne].
  - rewrite lookup_insert_eq. eauto.
  - by rewrite lookup_insert_ne.
Qed.

Lemma quiet_pop category item_type r w :
  quiet category item_type w (pop r w).2.
Proof. destruct r; cbn; (split; [by apply keeps_categories_same|done]). Qed.

Lemma quiet_pop_from category item_type c k r w :
  quiet category item_type w (pop_from c k r w).2.
Proof.
  unfold pop_from. pose proof (quiet_pop category item_type r w) as Hp.
  destruct (pop r w) as [[item r'] w1]; cbn in Hp.
  pose proof (quiet_state_set category item_type c k (Some r') w1) as Hs.
  destruct (state_set c k (Some r') w1) as [[[]|e] w2]; cbn in *;
    by eapply quiet_trans.
Qed.

Lemma quiet_pop_if_truthy category item_type c k items w :
  quiet category item_type w (pop_if_truthy c k items w).2.
Proof.
  unfold pop_if_truthy. apply quiet_bind; [apply quiet_refl|].
  intros t w'. destruct items as [r|]; [|apply quiet_refl].
  destruct t; [|apply quiet_refl].
  apply quiet_bind; [apply quiet_pop_from|].
  intros [item r'] w''. apply quiet_refl.
Qed.

Lemma quiet_serve category item_type c k items w :
  quiet category item_type w (serve c k items w).2.
Proof.
  unfold serve. apply quiet_bind; [apply quiet_pop_if_truthy|].
  intros [item items'] w1. apply quiet_bind; [apply quiet_refl|].
  intros t w2. apply quiet_bind; [|intros; apply quiet_refl].
  destruct t; [apply quiet_refl|apply quiet_state_set].
Qed.

Lemma get_list_step list_type theme w :
  exists evs,
    oracle_step w (get_list O list_type theme w).2 evs /\
    (calls_in evs <= 3)%nat /\ (creates_in evs <= 6)%nat /\
    match list_type_mapping list_type theme with
    | None => (get_list O list_type theme w).1 = None /\ calls_in evs = 0%nat
    | Some (default, _) =>
        (exists l answer,
           (get_list O list_type theme w).1 = Some (Own l) /\ l <> [] /\
           extract_python_list O answer = Ok (Some l)) \/
        ((get_list O list_type theme w).1 = Some (Default default) /\
         calls_in evs = 3%nat)
    end.
Proof.
  assert (Hlog : oracle_step w (log (EvGetList list_type) w) [EvGetList list_type]).
  { split; try done. by repeat constructor. }
  unfold get_list.
  destruct (list_type_mapping list_type theme) as [[default prompt]|].
  - destruct (get_list_retries_step max_retries prompt (log (EvGetList list_type) w))
      as (evs & Hstep & Hcalls & Hcreates & Hres).
    exists (evs ++ [EvGetList list_type]).
    destruct (get_list_retries O max_retries prompt _) as [[l|] w']; cbn in *.
    + split; [by eapply oracle_step_trans|].
      rewrite calls_in_app, creates_in_app.
      change (calls_in [EvGetList list_type]) with 0%nat.
      change (creates_in [EvGetList list_type]) with 0%nat.
      unfold max_retries in *.
      split; [lia|]. split; [lia|]. left.
      destruct Hres as [Hne [answer Hex]]. by exists l, answer.
    + split; [by eapply oracle_step_trans|].
      rewrite calls_in_app, creates_in_app.
      change (calls_in [EvGetList list_type]) with 0%nat.
      change (creates_in [EvGetList list_type]) with 0%nat.
      unfold max_retries in *.
      split; [lia|]. split; [lia|]. right. split; [done|lia].
  - exists [EvGetList list_type]. split; [done|].
    change (calls_in [EvGetList list_type]) with 0%nat.
    change (creates_in [EvGetList list_type]) with 0%nat.
    cbn. repeat split; lia.
Qed.

Lemma quiet_get_list_m category item_type list_type theme w :
  quiet category item_type w (get_list_m O list_type theme w).2.
Proof.
  unfold get_list_m.
  destruct (get_list_step list_type theme w) as (evs & Hstep & _).
  destruct (get_list O list_type theme w) as [r w']; cbn in *.
  by eapply quiet_oracle_step.
Qed.

Lemma refills_log category item_type ev w :
  refills category item_type (log ev w) =
  if decide (ev = EvRefill category item_type)
  then S (refills category item_type w) else refills category item_type w.
Proof.
  unfold refills, log. cbn [trace]. rewrite filter_cons. by case_decide.
Qed.

Lemma quiet_log category item_type ev w :
  ev <> EvRefill category item_type -> quiet category item_type w (log ev w).
Proof.
  intros Hne. split; [by apply keeps_categories_same|].
  rewrite refills_log. by rewrite decide_False.
Qed.

Lemma quiet_get_current_theme category item_type c w :
  item_type <> "themes" ->
  quiet category item_type w (get_current_theme O c w).2.
Proof.
  intros Hne. unfold get_current_theme.
  apply quiet_bind; [apply quiet_state_get|]. intros themes w1.
  apply quiet_bind; [apply quiet_refl|]. intros t w2.
  apply quiet_bind.
  - destruct t; [apply quiet_refl|].
    apply quiet_bind.
    + eapply quiet_trans; [|apply quiet_get_list_m].
      apply quiet_log. congruence.
    + intros themes' w3. apply quiet_bind; [apply quiet_state_set|].
      intros; apply quiet_refl.
  - intros themes' w3. apply quiet_bind; [apply quiet_pop_if_truthy|].
    intros [theme ?] w4. apply quiet_refl.
Qed.

(** A refill started for a key is counted once, whatever its result. *)
Lemma get_items_refills category item_type theme w :
  keeps_categories w (get_items O category item_type theme w).2 /\
  refills category item_type (get_items O category item_type theme w).2 =
  S (refills category item_type w).
Proof.
  unfold get_items.
  assert (Hlog : keeps_categories w (log (EvRefill category item_type) w) /\
    refills category item_type (log (EvRefill category item_type) w) =
    S (refills category item_type w)).
  { split; [by apply keeps_categories_same|].
    rewrite refills_log. by rewrite decide_True. }
  set (w0 := log (EvRefill category item_type) w) in *.
  assert (Hq : forall r : outcome (option listref) * supply,
    quiet category item_type w0 r.2 ->
    keeps_categories w r.2 /\
    refills category item_type r.2 = S (refills category item_type w)).
  { intros r [Hk Hr]. destruct Hlog as [Hk0 Hr0]. split; [|congruence].
    intros c Hc. by apply Hk, Hk0. }
  case_decide as Hthemes.
  - apply Hq, quiet_get_list_m.
  - apply Hq. apply quiet_bind.
    + destruct theme as [t|]; [apply quiet_refl|].
      apply quiet_bind; [by apply quiet_get_current_theme|].
      intros [t|] w'; apply quiet_refl.
    + intros theme' w'. apply quiet_get_list_m.
Qed.


(** *** Serving from a queue *)

Lemma state_set_cases category item_type items w :
  state_set category item_type items w = (Raise KeyError, w) \/
  exists w',
    state_set category item_type items w = (Ok tt, w') /\
    slot w' category item_type = Some items /\
    template_lists w' = template_lists w /\ trace w' = trace w.
Proof.
  destruct (state w !! category) as [queues|] eqn:Hq.
  - right. by apply state_set_ok.
  - left. unfold state_set. by rewrite Hq.
Qed.

Lemma truthy_same_template w w' items :
  template_lists w' = template_lists w -> truthy w' items = truthy w items.
Proof. intros H. destruct items as [[l|d]|]; cbn; by rewrite ?H. Qed.

Lemma contents_same_template w w' r :
  template_lists w' = template_lists w -> contents w' r = contents w r.
Proof. intros H. destruct r; cbn; by rewrite ?H. Qed.

Lemma truthy_true w r : truthy w (Some r) = true <-> contents w r <> [].
Proof. cbn. by rewrite bool_decide_eq_true. Qed.

Lemma truthy_false w r : truthy w (Some r) = false <-> contents w r = [].
Proof.
  cbn. rewrite bool_decide_eq_false. split; [|by intros ->; auto].
  intros H. by destruct (contents w r); [|destruct H].
Qed.

(** The effect of [pop] on a list object that ends with [x]. *)
Lemma pop_snoc r l x w :
  contents w r = l ++ [x] ->
  exists r' w',
    pop r w = (Some x, r', w') /\ contents w' r' = l /\
    state w' = state w /\ trace w' = trace w.
Proof.
  destruct r as [l0|d]; cbn; intros ->.
  - exists (Own l), w. by rewrite last_snoc, removelast_last.
  - exists (Default d), (set_template w d l).
    rewrite last_snoc, removelast_last. cbn. by rewrite decide_True.
Qed.

(** After a call that returns, the queue of the key holds no empty list:
    [serve] replaces an exhausted queue by [None]. *)
Lemma serve_leaves_no_empty_list category item_type items w q :
  is_ok (serve category item_type items w).1 = true ->
  slot (serve category item_type items w).2 category item_type = Some (Some q) ->
  contents (serve category item_type items w).2 q <> [].
Proof.
  unfold serve, pop_if_truthy, is_truthy, pop_from.
  unfold mbind, M_bind, mret, M_ret. cbn.
  assert (Hunset : forall w0,
    is_ok (let (o, w') := state_set category item_type None w0 in
           match o with Ok _ => (Ok (), w') | Raise e => (Raise e, w') end).1 = true ->
    slot (let (o, w') := state_set category item_type None w0 in
          match o with Ok _ => (Ok (), w') | Raise e => (Raise e, w') end).2
         category item_type <> Some (Some q)).
  { intros w0.
    destruct (state_set_cases category item_type None w0)
      as [->|(w' & -> & Hslot & _)]; cbn; [done|]. by rewrite Hslot. }
  destruct items as [r|]; cbn.
  - destruct (bool_decide (contents w r <> [])) eqn:Htruthy; cbn.
    + destruct (pop r w) as [[item r'] w1]; cbn.
      destruct (state_set_cases category item_type (Some r') w1)
        as [->|(w2 & -> & Hslot & Htpl & _)]; cbn; [done|].
      destruct (bool_decide (contents w2 r' <> [])) eqn:Htruthy2; cbn.
      * intros _. rewrite Hslot. intros [= <-].
        by apply bool_decide_eq_true in Htruthy2.
      * specialize (Hunset w2).
        destruct (state_set category item_type None w2) as [[[]|e] w3]; cbn in *;
          [|done].
        intros _ Hq. by destruct Hunset.
    + rewrite Htruthy. cbn. specialize (Hunset w).
      destruct (state_set category item_type None w) as [[[]|e] w3]; cbn in *;
        [|done].
      intros _ Hq. by destruct Hunset.
  - specialize (Hunset w).
    destruct (state_set category item_type None w) as [[[]|e] w3]; cbn in *;
      [|done].
    intros _ Hq. by destruct Hunset.
Qed.

(** Serving from a queue that ends with [x]. *)
Lemma serve_snoc category item_type r l x w :
  is_Some (state w !! category) ->
  contents w r = l ++ [x] ->
  exists w',
    serve category item_type (Some r) w = (Ok (Some x), w') /\
    trace w' = trace w /\
    match l with
    | [] => slot w' category item_type = Some None
    | _ :: _ =>
        exists r', slot w' category item_type = Some (Some r') /\
                   contents w' r' = l
    end.
Proof.
  intros Hcat Hl.
  destruct (pop_snoc r l x w Hl) as (r' & w1 & Hpop & Hl' & Hst1 & Htr1).
  assert (Hcat1 : is_Some (state w1 !! category)) by (by rewrite Hst1).
  destruct (state_set_ok category item_type (Some r') w1 Hcat1)
    as (w2 & Hset & Hslot2 & Htpl2 & Htr2).
  assert (Hl2 : contents w2 r' = l).
  { by rewrite (contents_same_template w1 w2). }
  unfold serve, pop_if_truthy, is_truthy, pop_from.
  unfold mbind, M_bind, mret, M_ret. cbn [truthy].
  rewrite (bool_decide_eq_true_2 (contents w r <> [])); last first.
  { rewrite Hl. by destruct l. }
  rewrite Hpop, Hset. cbn [truthy]. rewrite Hl2.
  destruct l as [|y l].
  - rewrite bool_decide_eq_false_2 by (by intros H; apply H).
    destruct (state_set_ok category item_type None w2) as (w3 & -> & Hslot3 & _ & Htr3).
    { by eapply slot_is_Some_category. }
    exists w3. split; [done|]. split; [congruence|done].
  - rewrite bool_decide_eq_true_2 by done.
    exists w2. split; [done|]. split; [congruence|]. by exists r'.
Qed.

(** Serving from an exhausted queue. *)
Lemma serve_empty category item_type items w :
  is_Some (state w !! category) ->
  truthy w items = false ->
  exists w',
    serve category item_type items w = (Ok None, w') /\
    trace w' = trace w /\ slot w' category item_type = Some None.
Proof.
  intros Hcat Hfalsy.
  destruct (state_set_ok category item_type None w Hcat)
    as (w' & Hset & Hslot & _ & Htr).
  exists w'. unfold serve, pop_if_truthy, is_truthy.
  unfold mbind, M_bind, mret, M_ret. rewrite Hfalsy.
  destruct items as [r|]; cbn [fst snd]; rewrite ?Hfalsy, Hset; done.
Qed.

Lemma refill_if_empty_eq category item_type theme items w :
  refill_if_empty O category item_type theme items w =
  if truthy w items then (Ok items, w)
  else match get_items O category item_type theme w with
       | (Raise e, w1) => (Raise e, w1)
       | (Ok items', w1) =>
           match state_set category item_type items' w1 with
           | (Raise e, w2) => (Raise e, w2)
           | (Ok _, w2) =>
               match items' with
               | None => (Raise TypeError, w2)
               | Some _ => (Ok items', w2)
               end
           end
       end.
Proof.
  unfold refill_if_empty, is_truthy, mbind, M_bind, mret, M_ret, raise.
  destruct (truthy w items); [done|].
  destruct (get_items O category item_type theme w) as [[items'|e] w1]; [|done].
  destruct (state_set category item_type items' w1) as [[[]|e] w2]; [|done].
  by destruct items'.
Qed.

Lemma update_counters_and_get_new_list_eq category item_type theme w :
  update_counters_and_get_new_list O category item_type theme w =
  match slot w category item_type with
  | None => (Raise KeyError, w)
  | Some items =>
      match refill_if_empty O category item_type theme items w with
      | (Raise e, w1) => (Raise e, w1)
      | (Ok items', w1) => serve category item_type items' w1
      end
  end.
Proof.
  unfold update_counters_and_get_new_list.
  unfold mbind at 1 2, M_bind. rewrite state_get_slot.
  by destruct (slot w category item_type).
Qed.

(** A call on a non-empty queue serves its last element and asks
    nothing of the oracle. *)
Lemma take_snoc category item_type theme r l x w :
  slot w category item_type = Some (Some r) ->
  contents w r = l ++ [x] ->
  exists w',
    update_counters_and_get_new_list O category item_type theme w
      = (Ok (Some x), w') /\
    trace w' = trace w /\
    match l with
    | [] => slot w' category item_type = Some None
    | _ :: _ =>
        exists r', slot w' category item_type = Some (Some r') /\
                   contents w' r' = l
    end.
Proof.
  intros Hslot Hl.
  destruct (serve_snoc category item_type r l x w) as (w' & Hserve & Hw');
    [by eapply slot_is_Some_category|done|].
  exists w'. split; [|done].
  rewrite update_counters_and_get_new_list_eq, Hslot, refill_if_empty_eq.
  rewrite (proj2 (truthy_true w r)); [done|].
  rewrite Hl. by destruct l.
Qed.


(** A call on an exhausted queue starts exactly one refill of its key. *)
Lemma take_refills_once category item_type theme items w :
  slot w category item_type = Some items ->
  truthy w items = false ->
  refills category item_type
    (update_counters_and_get_new_list O category item_type theme w).2
  = S (refills category item_type w).
Proof.
  intros Hslot Hfalsy.
  rewrite update_counters_and_get_new_list_eq, Hslot.
  rewrite refill_if_empty_eq, Hfalsy.
  destruct (get_items_refills category item_type theme w) as [_ Hrefill].
  destruct (get_items O category item_type theme w) as [[items'|e] w1];
    cbn [fst snd] in *; [|done].
  pose proof (quiet_state_set category item_type category item_type items' w1)
    as [_ Hset].
  destruct (state_set category item_type items' w1) as [[[]|e] w2];
    cbn [fst snd] in *; [|congruence].
  destruct items' as [q|]; [|cbn; congruence].
  pose proof (quiet_serve category item_type category item_type (Some q) w2)
    as [_ Hserve].
  congruence.
Qed.

(** A refill that returns an empty list: the call returns [None] and
    stores [None]. *)
Lemma take_empty_refill category item_type theme items q w w1 :
  slot w category item_type = Some items ->
  truthy w items = false ->
  get_items O category item_type theme w = (Ok (Some q), w1) ->
  contents w1 q = [] ->
  exists w',
    update_counters_and_get_new_list O category item_type theme w = (Ok None, w') /\
    slot w' category item_type = Some None.
Proof.
  intros Hslot Hfalsy Hitems Hq.
  rewrite update_counters_and_get_new_list_eq, Hslot.
  rewrite refill_if_empty_eq, Hfalsy, Hitems.
  destruct (get_items_refills category item_type theme w) as [Hkeep _].
  rewrite Hitems in Hkeep. cbn [snd] in Hkeep.
  destruct (state_set_ok category item_type (Some q) w1)
    as (w2 & -> & Hslot2 & Htpl2 & _).
  { apply Hkeep. by eapply slot_is_Some_category. }
  destruct (serve_empty category item_type (Some q) w2) as (w' & -> & _ & Hslot').
  { by eapply slot_is_Some_category. }
  { apply truthy_false. by rewrite (contents_same_template w1 w2). }
  by exists w'.
Qed.


(** A refill that returns a list ending with [x]: the call serves [x]
    and stores the rest. *)
Lemma take_after_refill category item_type theme items q l x w w1 :
  slot w category item_type = Some items ->
  truthy w items = false ->
  get_items O category item_type theme w = (Ok (Some q), w1) ->
  contents w1 q = l ++ [x] ->
  exists w',
    update_counters_and_get_new_list O category item_type theme w
      = (Ok (Some x), w') /\
    match l with
    | [] => slot w' category item_type = Some None
    | _ :: _ =>
        exists r', slot w' category item_type = Some (Some r') /\
                   contents w' r' = l
    end.
Proof.
  intros Hslot Hfalsy Hitems Hq.
  rewrite update_counters_and_get_new_list_eq, Hslot.
  rewrite refill_if_empty_eq, Hfalsy, Hitems.
  destruct (get_items_refills category item_type theme w) as [Hkeep _].
  rewrite Hitems in Hkeep. cbn [snd] in Hkeep.
  destruct (state_set_ok category item_type (Some q) w1)
    as (w2 & -> & Hslot2 & Htpl2 & _).
  { apply Hkeep. by eapply slot_is_Some_category. }
  destruct (serve_snoc category item_type q l x w2) as (w' & -> & _ & Hrest).
  { by eapply slot_is_Some_category. }
  { by rewrite (contents_same_template w1 w2). }
  by exists w'.
Qed.



(** A call returns when its key exists and either the queue is not
    empty or the refill returns a list. *)
Lemma take_returns category item_type theme items w :
  slot w category item_type = Some items ->
  truthy w items = true \/
  (exists q w1, get_items O category item_type theme w = (Ok (Some q), w1)) ->
  is_ok (update_counters_and_get_new_list O category item_type theme w).1 = true.
Proof.
  intros Hslot [Htruthy|(q & w1 & Hitems)].
  - destruct items as [r|]; [|done].
    apply truthy_true in Htruthy.
    apply exists_last in Htruthy as (l & x & Hl).
    destruct (take_snoc category item_type theme r l x w Hslot Hl)
      as (w' & -> & _).
    done.
  - destruct (truthy w items) eqn:Htruthy.
    + destruct items as [r|]; [|done].
      apply truthy_true in Htruthy.
      apply exists_last in Htruthy as (l & x & Hl).
      destruct (take_snoc category item_type theme r l x w Hslot Hl)
        as (w' & -> & _).
      done.
    + destruct (contents w1 q) as [|y l] eqn:Hq.
      * destruct (take_empty_refill category item_type theme items q w w1
                    Hslot Htruthy Hitems Hq) as (w' & -> & _).
        done.
      * assert (Hne : y :: l <> []) by done.
        apply exists_last in Hne as (l' & x & Hl').
        rewrite Hl' in Hq.
        destruct (take_after_refill category item_type theme items q l' x w w1
                    Hslot Htruthy Hitems Hq) as (w' & -> & _).
        done.
Qed.

(** C10, as the code has it.  After a call that returns, the queue stored
    under the key of the call is not an empty list.  A call that pops the
    only element stores [None], so that the next call on the key starts a
    refill.  A call whose refill returns an empty list returns [None] and
    does not raise.  A call returns whenever its key exists and its queue
    is not empty or its refill returns a list; an exception of the refill
    reaches the caller. *)
Theorem take_never_stores_an_empty_list (category item_type : string)
    (theme : option string) (w : supply) :
  (forall q : listref,
     is_ok (update_counters_and_get_new_list O category item_type theme w).1 = true ->
     slot (update_counters_and_get_new_list O category item_type theme w).2
          category item_type = Some (Some q) ->
     contents (update_counters_and_get_new_list O category item_type theme w).2 q
       <> []) /\
  (forall (q : listref) (x : string),
     slot w category item_type = Some (Some q) ->
     contents w q = [x] ->
     (update_counters_and_get_new_list O category item_type theme w).1
       = Ok (Some x) /\
     slot (update_counters_and_get_new_list O category item_type theme w).2
          category item_type = Some None /\
     refills category item_type
       (update_counters_and_get_new_list O category item_type theme
          (update_counters_and_get_new_list O category item_type theme w).2).2
     = S (refills category item_type w)) /\
  (forall (items : option listref) (q : listref) (w1 : supply),
     slot w category item_type = Some items ->
     truthy w items = false ->
     get_items O category item_type theme w = (Ok (Some q), w1) ->
     contents w1 q = [] ->
     (update_counters_and_get_new_list O category item_type theme w).1 = Ok None /\
     slot (update_counters_and_get_new_list O category item_type theme w).2
          category item_type = Some None) /\
  (forall items : option listref,
     slot w category item_type = Some items ->
     truthy w items = true \/
     (exists q w1, get_items O category item_type theme w = (Ok (Some q), w1)) ->
     is_ok (update_counters_and_get_new_list O category item_type theme w).1 = true) /\
  (forall (items : option listref) (e : exn) (w1 : supply),
     slot w category item_type = Some items ->
     truthy w items = false ->
     get_items O category item_type theme w = (Raise e, w1) ->
     update_counters_and_get_new_list O category item_type theme w = (Raise e, w1)).
Proof.
  split; [|split; [|split; [|split]]].
  - intros q. rewrite update_counters_and_get_new_list_eq.
    destruct (slot w category item_type) as [items|]; [|done].
    destruct (refill_if_empty O category item_type theme items w)
      as [[items'|e] w1]; [|done].
    apply serve_leaves_no_empty_list.
  - intros q x Hslot Hq.
    destruct (take_snoc category item_type theme q [] x w Hslot Hq)
      as (w' & Htake & Htr & Hslot').
    rewrite Htake. cbn [fst snd]. split; [done|]. split; [done|].
    rewrite (take_refills_once category item_type theme None w' Hslot');
      [|done].
    unfold refills. by rewrite Htr.
  - intros items q w1 Hslot Hfalsy Hitems Hq.
    destruct (take_empty_refill category item_type theme items q w w1
                Hslot Hfalsy Hitems Hq) as (w' & -> & Hslot').
    done.
  - intros items. apply take_returns.
  - intros items e w1 Hslot Hfalsy Hitems.
    rewrite update_counters_and_get_new_list_eq, Hslot.
    by rewrite refill_if_empty_eq, Hfalsy, Hitems.
Qed.

(** *** [get_list] against the answers of the oracle *)

(** A call gives the answer of the oracle and uses the requests it
    takes. *)
Lemma call_openai_answer (req : request) (w : supply) :
  (call_openai O req w).1 = (oracle_answer O req (created w)).1 /\
  created (call_openai O req w).2
    = (created w + (oracle_answer O req (created w)).2)%nat /\
  draws (call_openai O req w).2 = draws w /\
  oracle_calls (call_openai O req w).2 = S (oracle_calls w).
Proof.
  unfold call_openai, oracle_answer. cbn [call_openai_attempts log created].
  destruct (create O (created w) req) as [response|e]; cbn.
  - repeat split; lia.
  - destruct (create O (S (created w)) req) as [response|e']; cbn;
      repeat split; lia.
Qed.

Lemma validated_retry (answer : option string) :
  validated O answer
  = match extract_python_list O
            (match answer with
             | Some a => if decide (a = "") then "" else replace_newlines a
             | None => ""
             end) with
    | Ok (Some (x :: l)) => Some (x :: l)
    | _ => None
    end.
Proof.
  unfold validated. destruct answer as [a|]; [|done].
  case_decide as Ha; [|done]. by rewrite Ha.
Qed.

(** The loop returns the list of the first answer that holds one and
    makes no call after it; without such an answer it makes every call
    and returns nothing. *)
Lemma get_list_retries_first_valid (k : nat) (prompt : string) (w : supply) :
  match list_find (fun a => is_Some (validated O a))
                  (answers O k prompt (created w) (draws w)) with
  | Some (i, a) =>
      (get_list_retries O k prompt w).1 = validated O a /\
      oracle_calls (get_list_retries O k prompt w).2
        = (oracle_calls w + S i)%nat
  | None =>
      (get_list_retries O k prompt w).1 = None /\
      oracle_calls (get_list_retries O k prompt w).2
        = (oracle_calls w + k)%nat
  end.
Proof.
  revert w. induction k as [|k IH]; intros w.
  - cbn. split; [done|lia].
  - cbn [get_list_retries answers].
    set (req := {| model := "gpt-3.5-turbo"; content := prompt;
                   temperature := Q2Qc (33 # 100);
                   seed := randint O (draws w) |}).
    destruct (call_openai_answer req (count_draw w))
      as (Hanswer & Hcreated & Hdraws & Hcalls).
    change (created (count_draw w)) with (created w) in *.
    change (draws (count_draw w)) with (S (draws w)) in *.
    change (oracle_calls (count_draw w)) with (oracle_calls w) in *.
    destruct (call_openai O req (count_draw w)) as [answer w1].
    destruct (oracle_answer O req (created w)) as [answer' used].
    cbn [fst snd] in *. subst answer'.
    cbn [list_find]. rewrite (validated_retry answer).
    specialize (IH w1). rewrite Hcreated, Hdraws, Hcalls in IH.
    destruct (extract_python_list O _) as [[[|x l]|]|e] eqn:Hextract.
    2:{ rewrite decide_True by (by eexists). cbn [fst snd].
        rewrite (validated_retry answer), Hextract. split; [done|lia]. }
    all: rewrite decide_False by (by intros [? [=]]).
    all: destruct (list_find _ _) as [[i a]|];
      cbn [fmap option_fmap option_map prod_map fst snd id];
      destruct IH as [-> ->]; split; try done; lia.
Qed.

(** C7.  [get_list] returns and does not raise, whatever the oracle and
    the extraction do.  It calls the oracle at most three times (each call
    sends at most two completion requests) and leaves the queues alone.  A
    list type outside the mapping gives [None] without any call.  For a
    list type of the mapping, every answer of the oracle is checked for a
    list: the result is the non-empty list that the extraction finds in
    the first of the three answers that holds one, and no call is made
    after that answer; when none of the three answers holds a list, the
    result is the list of the [template] module for that list type. *)
Theorem get_list_retries_then_default (list_type : string)
    (theme : option string) (w : supply) :
  (get_list_m O list_type theme w).1 = Ok (get_list O list_type theme w).1 /\
  (oracle_calls (get_list O list_type theme w).2 <= oracle_calls w + 3)%nat /\
  (requests_sent (get_list O list_type theme w).2 <= requests_sent w + 6)%nat /\
  state (get_list O list_type theme w).2 = state w /\
  template_lists (get_list O list_type theme w).2 = template_lists w /\
  match list_type_mapping list_type theme with
  | None =>
      (get_list O list_type theme w).1 = None /\
      oracle_calls (get_list O list_type theme w).2 = oracle_calls w
  | Some (default, prompt) =>
      match list_find (fun a => is_Some (validated O a))
                      (answers O 3 prompt (created w) (draws w)) with
      | Some (i, answer) =>
          exists l : list string,
            validated O answer = Some l /\ l <> [] /\
            (get_list O list_type theme w).1 = Some (Own l) /\
            oracle_calls (get_list O list_type theme w).2
              = (oracle_calls w + S i)%nat
      | None =>
          (get_list O list_type theme w).1 = Some (Default default) /\
          oracle_calls (get_list O list_type theme w).2
            = (oracle_calls w + 3)%nat
      end
  end.
Proof.
  destruct (get_list_step list_type theme w)
    as (evs & Hstep & Hcalls & Hcreates & Hres).
  split.
  { unfold get_list_m. by destruct (get_list O list_type theme w). }
  rewrite (oracle_calls_step _ _ _ Hstep), (requests_sent_step _ _ _ Hstep).
  split; [lia|]. split; [lia|].
  split; [apply (step_state _ _ _ Hstep)|].
  split; [apply (step_template _ _ _ Hstep)|].
  rewrite <- (oracle_calls_step _ _ _ Hstep).
  destruct (list_type_mapping list_type theme) as [[default prompt]|] eqn:Hmap.
  - pose proof (get_list_retries_first_valid max_retries prompt
                  (log (EvGetList list_type) w)) as Hfirst.
    change (created (log (EvGetList list_type) w)) with (created w) in Hfirst.
    change (draws (log (EvGetList list_type) w)) with (draws w) in Hfirst.
    change (oracle_calls (log (EvGetList list_type) w))
      with (oracle_calls w) in Hfirst.
    change max_retries with 3%nat in Hfirst.
    unfold get_list. rewrite Hmap. change max_retries with 3%nat.
    destruct (list_find _ _) as [[i answer]|] eqn:Hfind.
    + destruct Hfirst as [Hlist Hn].
      apply list_find_Some in Hfind as (_ & [l Hl] & _).
      exists l. split; [done|]. split.
      { unfold validated in Hl.
        destruct (extract_python_list O _) as [[[|x l']|]|e]; try done.
        by injection Hl as <-. }
      destruct (get_list_retries O 3 prompt (log (EvGetList list_type) w))
        as [r w'] eqn:Hr. cbn [fst snd] in *.
      rewrite Hlist, Hl. by split.
    + destruct Hfirst as [Hnone Hn].
      destruct (get_list_retries O 3 prompt (log (EvGetList list_type) w))
        as [r w'] eqn:Hr. cbn [fst snd] in *.
      rewrite Hnone. by split.
  - destruct Hres as [Hnone Hn]. split; [done|].
    rewrite (oracle_calls_step _ _ _ Hstep). lia.
Qed.

(** C9.  [get_question] raises [ValueError] for every category other
    than "text" and "images" and leaves the state as it was.  This holds
    for "embeddings", the category the round loop dispatches. *)
Theorem get_question_rejects_other_categories (category : string)
    (w : supply) :
  category <> "text" ->
  category <> "images" ->
  get_question O category w = (Raise ValueError, w) /\
  forall steps : Z,
    get_question O (RoundLoop.round_category steps) w = (Raise ValueError, w).
Proof.
  intros Htext Himages. split.
  - unfold get_question. rewrite decide_False; [done|].
    rewrite !elem_of_cons, elem_of_nil. tauto.
  - intros steps. reflexivity.
Qed.

End SupplyFacts.


Lemma take_never_stores_an_empty_list_witness :
  let w := Supply.sample_supply (Some (Supply.Own ["q1"])) in
  Supply.slot w "text" "questions" = Some (Some (Supply.Own ["q1"])) /\
  Supply.slot
    (Supply.update_counters_and_get_new_list (Supply.oracle_answering "a,b,c")
       "text" "questions" None w).2 "text" "questions" = Some None.
Proof.
  intros w. split; [reflexivity|].
  destruct (take_never_stores_an_empty_list (Supply.oracle_answering "a,b,c")
              "text" "questions" None w) as (_ & Hlast & _).
  apply (Hlast (Supply.Own ["q1"]) "q1"); reflexivity.
Defined.

(** C10, as stated, fails: a call can raise.  With the oracle
    unreachable every refill falls back to the lists of [template], and
    the queues pop from those very lists.  Six calls for text questions:
    the queue serves its two questions, the refill falls back to the
    default questions and serves both, the next refill returns that same
    list, now empty, and the call returns [None], leaving the exhausted
    list of default themes stored under the themes key; the last call
    finds no theme and raises the [ValueError] of line 185. *)
Lemma take_raises_without_theme :
  let w := Supply.sample_supply (Some (Supply.Own ["q1"; "q2"])) in
  let five := Supply.take_many Supply.oracle_down 5 "text" "questions" None w in
  five.1 = [Ok (Some "q2"); Ok (Some "q1"); Ok (Some "d2"); Ok (Some "d1");
            Ok None] /\
  Supply.slot five.2 "text" "questions" = Some None /\
  Supply.slot five.2 "text" "themes"
    = Some (Some (Supply.Default Supply.question_themes)) /\
  Supply.contents five.2 (Supply.Default Supply.question_themes) = [] /\
  (Supply.update_counters_and_get_new_list Supply.oracle_down
     "text" "questions" None five.2).1 = Raise ValueError.
Proof. cbv zeta. repeat split; vm_compute; reflexivity. Qed.

Lemma get_question_rejects_other_categories_witness :
  "embeddings" <> "text" /\ "embeddings" <> "images" /\
  Supply.get_question Supply.oracle_down "embeddings" (Supply.sample_supply None)
    = (Raise ValueError, Supply.sample_supply None).
Proof.
  split; [discriminate|]. split; [discriminate|].
  apply (get_question_rejects_other_categories Supply.oracle_down "embeddings"
           (Supply.sample_supply None)); discriminate.
Defined.

(** ** PeerDispatcher *)

Section DispatchFacts.
Import Supply Dispatch.

Lemma query_miner_body_uid timeout_global uid syn_type d r :
  query_miner_body timeout_global uid syn_type d = Ok r -> r.1 = uid.
Proof.
  unfold query_miner_body. intros H.
  repeat case_match; simplify_eq; done.
Qed.

Lemma query_miner_result timeout_global uid syn_type d :
  query_miner timeout_global uid syn_type d
  = Ok (uid, query_result timeout_global uid syn_type d).
Proof.
  unfold query_miner, query_result.
  destruct (query_miner_body timeout_global uid syn_type d) as [[u r]|e] eqn:Hb;
    [|done].
  by rewrite <- (query_miner_body_uid _ _ _ _ _ Hb).
Qed.

Lemma gather_all_ok {A B} (f : A -> B) (l : list A) :
  gather ((fun a => Ok (f a)) <$> l) = Ok (f <$> l).
Proof. induction l as [|a l IH]; [done|]. cbn. by rewrite IH. Qed.

Lemma dispatch_batch_results timeout_global syn_type peers :
  dispatch_batch timeout_global syn_type peers
  = Ok ((fun p => (p.1, query_result timeout_global p.1 syn_type p.2)) <$> peers).
Proof.
  unfold dispatch_batch. rewrite <- gather_all_ok. f_equal.
  apply list_fmap_ext. intros i [uid d] _. apply query_miner_result.
Qed.

Lemma ask_questions_uids O uids w asked w' :
  ask_questions O uids w = (Ok asked, w') -> asked.*1 = uids.
Proof.
  revert w asked w'. induction uids as [|uid uids IH]; intros w asked w'; cbn.
  - unfold mret, M_ret. by intros [= <- <-].
  - unfold mbind, M_bind, mret, M_ret.
    destruct (get_question O "images" w) as [[messages|e] w1]; [|done].
    destruct (ask_questions O uids w1) as [[rest|e] w2] eqn:Hrest; [|done].
    intros [= <- <-]. cbn. f_equal. by eapply IH.
Qed.

(** As the file stands, no call gets an answer through: the name
    [timeout] is unbound, and the images validator passes the synapse type
    "images", which matches no branch. *)
Remark query_miner_unbound_timeout uid syn_type d :
  query_miner None uid syn_type d = Ok (uid, None).
Proof. reflexivity. Qed.

Remark query_miner_images_type timeout_global uid d :
  query_miner timeout_global uid images_query_type d = Ok (uid, None).
Proof. unfold query_miner, query_miner_body. by destruct timeout_global. Qed.

(** C4.  [query_miner] returns a result for its peer and does not raise:
    whatever the body of its [try] block raises (a transport error, a
    deserialization error, the [TimeoutError] of an expired deadline, or
    any other exception) becomes [(uid, None)].  A batch over N peers
    returns N results, in the order of the peers, and the result of each
    peer is the one its own call gives, whatever happens to the calls of
    the others.  [start_query] raises only when the task supply does:
    once every peer has its question, it returns one result per peer. *)
Theorem dispatch_isolates_failures (timeout_global : option Z)
    (syn_type : string) (peers : list (nat * dendrite_answer)) :
  (forall (uid : nat) (d : dendrite_answer),
     query_miner timeout_global uid syn_type d
       = Ok (uid, query_result timeout_global uid syn_type d) /\
     forall e : exn,
       query_miner_body timeout_global uid syn_type d = Raise e ->
       query_miner timeout_global uid syn_type d = Ok (uid, None)) /\
  (exists results : list (nat * option response),
     dispatch_batch timeout_global syn_type peers = Ok results /\
     length results = length peers /\
     results.*1 = peers.*1 /\
     forall (i uid : nat) (d : dendrite_answer),
       peers !! i = Some (uid, d) ->
       results !! i = Some (uid, query_result timeout_global uid syn_type d)) /\
  (forall (O : oracle) (dendrite : nat -> dendrite_answer)
          (available_uids : list nat) (w : supply),
     match (ask_questions O available_uids w).1 with
     | Ok _ =>
         exists results uid_to_messages,
           (start_query O timeout_global dendrite available_uids w).1
             = Ok (results, uid_to_messages) /\
           length results = length available_uids /\
           results.*1 = available_uids
     | Raise e =>
         (start_query O timeout_global dendrite available_uids w).1 = Raise e
     end).
Proof.
  split; [|split].
  - intros uid d. split; [apply query_miner_result|].
    intros e He. unfold query_miner. by rewrite He.
  - eexists. split; [apply dispatch_batch_results|].
    split; [by rewrite length_fmap|]. split.
    + rewrite <- list_fmap_compose. by apply list_fmap_ext.
    + intros i uid d Hi. rewrite list_lookup_fmap, Hi. done.
  - intros O dendrite uids w. unfold start_query.
    unfold mbind, M_bind.
    destruct (ask_questions O uids w) as [[asked|e] w'] eqn:Hask; cbn [fst];
      [|done].
    rewrite dispatch_batch_results. unfold mret, M_ret. cbn [fst].
    apply ask_questions_uids in Hask.
    eexists _, _. split; [done|]. subst uids.
    rewrite !length_fmap. split; [done|].
    rewrite <- !list_fmap_compose. by apply list_fmap_ext.
Qed.

End DispatchFacts.

Lemma dispatch_isolates_failures_witness :
  Dispatch.query_miner_body (Some 24%Z) 1 "embeddings" Dispatch.peer_down
    = Raise TimeoutError /\
  Dispatch.query_miner (Some 24%Z) 1 "embeddings" Dispatch.peer_down
    = Ok (1%nat, None).
Proof.
  split; [reflexivity|].
  destruct (dispatch_isolates_failures (Some 24%Z) "embeddings"
              [(0%nat, Dispatch.peer_up); (1%nat, Dispatch.peer_down);
               (2%nat, Dispatch.peer_up)]) as (Hone & _ & _).
  apply (proj2 (Hone 1%nat Dispatch.peer_down) TimeoutError). reflexivity.
Defined.

(** ** ScoringStrategy *)

Section ScoringFacts.
Import Dispatch Scoring.

Lemma first_tasks_closed {Q} query_responses (uid_to_question : gmap nat Q) :
  first_tasks false query_responses uid_to_question = Ok [].
Proof.
  induction query_responses as [|[uid response] rest IH]; [done|]. exact IH.
Qed.

Lemma finish_nothing env :
  finish env [] ∅
  = match telemetry env with Ok _ => Ok (∅, ∅) | Raise e => Raise e end.
Proof. reflexivity. Qed.

Lemma round_score_vector_from start n :
  peer_score ∅ <$> seq start n = zeros n.
Proof.
  revert start. induction n as [|n IH]; intros start; [done|].
  cbn. by rewrite IH.
Qed.

(** C6, as the code has it.  With the gate closed (the draw is not below
    1/8 for text, not below the float [1/1.1] for embeddings), the text
    scorer and the embeddings scorer create no task, whatever the peers
    answered.  When the telemetry call does not raise, both return the
    empty score mapping, in which every peer scores 0, and the round's
    score vector is all zero; when it raises, the scorer raises that
    exception. *)
Theorem closed_gate_scores_zero (env : scoring_env)
    (query_responses : list (nat * option response))
    (uid_to_question : gmap nat (option string))
    (uid_to_texts : gmap nat (list string)) :
  (text_gate env = false ->
   text_score_responses env query_responses uid_to_question
   = match telemetry env with Ok _ => Ok (∅, ∅) | Raise e => Raise e end) /\
  (embeddings_gate env = false ->
   embeddings_score_responses env query_responses uid_to_texts
   = match telemetry env with Ok _ => Ok (∅, ∅) | Raise e => Raise e end) /\
  (forall uid : nat, peer_score ∅ uid = 0) /\
  (forall n : nat, round_score_vector n ∅ = zeros n).
Proof.
  split; [|split; [|split]].
  - intros Hgate. unfold text_score_responses. rewrite Hgate.
    rewrite first_tasks_closed. cbn. apply finish_nothing.
  - intros Hgate. unfold embeddings_score_responses. rewrite Hgate.
    rewrite first_tasks_closed. cbn. apply finish_nothing.
  - intros uid. unfold peer_score. by rewrite lookup_empty.
  - intros n. apply round_score_vector_from.
Qed.

End ScoringFacts.

Lemma closed_gate_scores_zero_witness :
  let answers :=
    [(0%nat, Some (Dispatch.Text "a good answer")); (1%nat, None)] in
  Scoring.text_gate Scoring.env_closed = false /\
  Scoring.text_score_responses Scoring.env_closed answers
    {[ 0%nat := Some "q0"; 1%nat := Some "q1" ]} = Ok (∅, ∅).
Proof.
  intros answers. split; [reflexivity|].
  apply (closed_gate_scores_zero Scoring.env_closed answers
           {[ 0%nat := Some "q0"; 1%nat := Some "q1" ]} ∅).
  reflexivity.
Defined.

(** The threshold of the embeddings gate is the float below 10/11, and a
    draw equal to it leaves the gate closed. *)
Lemma embeddings_threshold_value :
  Scoring.embeddings_threshold
    = Q2Qc (8188362958855447 # 9007199254740992) /\
  Scoring.embeddings_threshold < Q2Qc (10 # 11) /\
  Scoring.embeddings_gate
    {| Scoring.random_number := Q2Qc (8188362958855447 # 9007199254740992);
       Scoring.reference_answers := fun _ => [];
       Scoring.reference_embeddings := fun _ => Ok [];
       Scoring.gather_scores := fun _ => Ok [];
       Scoring.wandb_on := false;
       Scoring.wandb_log := Ok tt |} = false.
Proof.
  split; [|split].
  - apply (bool_decide_unpack _). vm_compute. exact I.
  - apply (bool_decide_unpack _). vm_compute. exact I.
  - vm_compute. reflexivity.
Qed.

(** C6, as stated, fails.  With the gate closed and telemetry on, an
    exception of [wandb.log] leaves [score_responses]: the scorer returns
    no mapping, so no peer receives a score and the round has no score
    vector. *)
Lemma closed_gate_telemetry_raises :
  let answers :=
    [(0%nat, Some (Dispatch.Text "a good answer")); (1%nat, None)] in
  Scoring.text_gate Scoring.env_closed_log_down = false /\
  Scoring.embeddings_gate Scoring.env_closed_log_down = false /\
  Scoring.text_score_responses Scoring.env_closed_log_down answers
    {[ 0%nat := Some "q0"; 1%nat := Some "q1" ]} = Raise TransportError /\
  Scoring.embeddings_score_responses Scoring.env_closed_log_down answers
    {[ 0%nat := ["t0"]; 1%nat := ["t1"] ]} = Raise TransportError.
Proof.
  cbv zeta. repeat split; vm_compute; reflexivity.
Qed.

(** ** Concurrent calls *)

Section EventLoopFacts.
Import Supply EventLoop.
Context (O : oracle).

Lemma complete_eq i c s :
  complete O i c s =
  {| tasks := <[i := (c, Returned
        (update_counters_and_get_new_list O (category c) (item_type c)
           (theme c) (world s)).1)]> (tasks s);
     waiters := waiters s;
     holder := None;
     world := (update_counters_and_get_new_list O (category c) (item_type c)
                 (theme c) (world s)).2 |}.
Proof.
  unfold complete.
  by destruct (update_counters_and_get_new_list O _ _ _ (world s)).
Qed.

(** *** One refill at a time *)

Lemma lock_invariant_spawn calls w : lock_invariant (spawn calls w).
Proof.
  intros i. cbn. split; [done|].
  intros [c Hc]. rewrite list_lookup_fmap in Hc.
  by destruct (calls !! i).
Qed.

Lemma lock_invariant_complete i c p s :
  tasks s !! i = Some (c, p) ->
  holder s = None \/ holder s = Some i ->
  lock_invariant s -> lock_invariant (complete O i c s).
Proof.
  intros Hi Hholder Hinv j. rewrite complete_eq. cbn. split; [done|].
  intros [c' Hj]. destruct (decide (i = j)) as [->|Hne].
  - rewrite list_lookup_insert_eq in Hj by (by eapply lookup_lt_Some). done.
  - rewrite list_lookup_insert_ne in Hj by done.
    assert (holder s = Some j) as Hsj by (apply Hinv; eauto).
    destruct Hholder; congruence.
Qed.

Lemma lock_invariant_enter i c p s :
  tasks s !! i = Some (c, p) ->
  holder s = None ->
  lock_invariant s -> lock_invariant (enter O i c s).
Proof.
  intros Hi Hholder Hinv. unfold enter.
  assert (Hc : lock_invariant (complete O i c s)).
  { eapply lock_invariant_complete; eauto. }
  destruct (slot (world s) (category c) (item_type c)) as [items|]; [|done].
  destruct (truthy (world s) items); [done|].
  intros j. cbn. destruct (decide (i = j)) as [->|Hne].
  - rewrite list_lookup_insert_eq by (by eapply lookup_lt_Some).
    split; [eauto|done].
  - rewrite list_lookup_insert_ne by done. split; [congruence|].
    intros Hj. apply Hinv in Hj. congruence.
Qed.

Lemma lock_invariant_step i s :
  lock_invariant s -> lock_invariant (step O i s).
Proof.
  intros Hinv. unfold step.
  destruct (tasks s !! i) as [[c [| | |r]]|] eqn:Hi; [| | |done|done].
  - destruct (holder s) as [h|] eqn:Hh.
    + intros j. cbn. destruct (decide (i = j)) as [->|Hne].
      * rewrite list_lookup_insert_eq by (by eapply lookup_lt_Some).
        split; [|by intros [c' [=]]].
        intros Hj. rewrite <- Hh in Hj. apply Hinv in Hj as [c' Hj]. congruence.
      * rewrite list_lookup_insert_ne by done. rewrite <- Hh. apply Hinv.
    + destruct (waiters s) as [|j rest] eqn:Hw.
      * by eapply lock_invariant_enter.
      * intros k. cbn. destruct (decide (i = k)) as [->|Hne].
        -- rewrite list_lookup_insert_eq by (by eapply lookup_lt_Some).
           split; [done|by intros [c' [=]]].
        -- rewrite list_lookup_insert_ne by done. rewrite <- Hh. apply Hinv.
  - destruct (holder s) as [h|] eqn:Hh; [done|].
    destruct (waiters s) as [|j rest] eqn:Hw; [done|].
    case_decide; [|done].
    eapply (lock_invariant_enter i c Waiting
              {| tasks := tasks s; waiters := rest; holder := None;
                 world := world s |}); [done|done|].
    intros k. cbn. rewrite <- Hh. apply Hinv.
  - eapply lock_invariant_complete; [done| |done].
    right. apply Hinv. eauto.
Qed.

Lemma lock_invariant_run schedule s :
  lock_invariant s -> lock_invariant (run O schedule s).
Proof.
  revert s. induction schedule as [|i schedule IH]; intros s Hinv; [done|].
  cbn. apply IH. by apply lock_invariant_step.
Qed.

(** *** Two calls for the same exhausted queue *)

Section TwoCalls.
Context (c : call) (w0 : supply) (items : option listref) (q : listref).
Abbreviation take :=
  (update_counters_and_get_new_list O (category c) (item_type c) (theme c)).
Hypothesis exhausted : slot w0 (category c) (item_type c) = Some items.
Hypothesis exhausted_falsy : truthy w0 items = false.
Hypothesis refilled : slot (take w0).2 (category c) (item_type c) = Some (Some q).
Hypothesis refilled_truthy : truthy (take w0).2 (Some q) = true.

Lemma two_calls_step i s :
  two_calls O c w0 s -> two_calls O c w0 (step O i s).
Proof.
  intros Hs. destruct Hs as [|first|first|first r|first r|first r r'].
  - destruct i as [|[|i]]; unfold step, enter; cbn;
      rewrite ?exhausted, ?exhausted_falsy; cbn.
    + apply (one_refilling O c w0 true).
    + apply (one_refilling O c w0 false).
    + apply both_pending.
  - destruct first, i as [|[|i]]; unfold step; cbn; rewrite ?complete_eq; cbn.
    all: first [ apply (one_returned O c w0 true)
               | apply (one_returned O c w0 false)
               | apply (one_refilling_one_waiting O c w0 true)
               | apply (one_refilling_one_waiting O c w0 false)
               | apply (one_refilling O c w0 true)
               | apply (one_refilling O c w0 false) ].
  - destruct first, i as [|[|i]]; unfold step; cbn; rewrite ?complete_eq; cbn.
    all: first [ apply (one_returned_one_waiting O c w0 true)
               | apply (one_returned_one_waiting O c w0 false)
               | apply (one_refilling_one_waiting O c w0 true)
               | apply (one_refilling_one_waiting O c w0 false) ].
  - destruct first, i as [|[|i]]; unfold step, enter; cbn; subst r;
      rewrite ?refilled, ?refilled_truthy, ?complete_eq; cbn.
    all: first [ apply (both_returned O c w0 true)
               | apply (both_returned O c w0 false)
               | apply (one_returned O c w0 true)
               | apply (one_returned O c w0 false) ].
  - destruct first, i as [|[|i]]; unfold step, enter; cbn; subst r;
      rewrite ?refilled, ?refilled_truthy, ?complete_eq; cbn.
    all: first [ apply (both_returned O c w0 true)
               | apply (both_returned O c w0 false)
               | apply (one_returned_one_waiting O c w0 true)
               | apply (one_returned_one_waiting O c w0 false) ].
  - destruct first, i as [|[|i]]; unfold step; cbn.
    all: first [ apply (both_returned O c w0 true)
               | apply (both_returned O c w0 false) ].
Qed.

Lemma two_calls_run schedule s :
  two_calls O c w0 s -> two_calls O c w0 (run O schedule s).
Proof.
  revert s. induction schedule as [|i schedule IH]; intros s Hs; [done|].
  cbn. apply IH. by apply two_calls_step.
Qed.

Lemma two_calls_all_returned s :
  two_calls O c w0 s -> all_returned s -> world s = (take (take w0).2).2.
Proof.
  intros Hs Hall. unfold all_returned in Hall.
  destruct Hs as [|first|first|first r|first r|first r r']; [| | | | |done].
  all: try destruct first; cbn in Hall.
  all: repeat match goal with
              | H : Forall _ (_ :: _) |- _ => apply Forall_cons in H as [[? ?] H]
              end; done.
Qed.

End TwoCalls.

Lemma filter_at_most_one {A} (P : A -> Prop) `{!forall x, Decision (P x)}
    (l : list A) :
  (forall i j x y, l !! i = Some x -> l !! j = Some y -> P x -> P y -> i = j) ->
  (length (filter P l) <= 1)%nat.
Proof.
  induction l as [|a l IH]; intros Huniq; [cbn; lia|].
  rewrite filter_cons. case_decide as Ha.
  - rewrite (filter_none P l); [cbn; lia|].
    apply Forall_lookup. intros j y Hj Hy.
    discriminate (Huniq 0%nat (S j) a y eq_refl Hj Ha Hy).
  - apply IH. intros i j x y Hi Hj Hx Hy.
    assert (S i = S j) as [= ->] by (by eapply Huniq). done.
Qed.

Lemma ends_with_two {A} (l : list A) :
  (2 <= length l)%nat -> exists l' x y, l = (l' ++ [x]) ++ [y].
Proof.
  destruct l as [|y l _] using rev_ind; [cbn; lia|].
  destruct l as [|x l _] using rev_ind; [cbn; lia|].
  intros _. by exists l, x, y.
Qed.

(** C5, as the code has it.  One lock guards every queue: in every state
    the event loop can reach, whatever the calls and their keys, at most
    one call is in a refill, so refills of different categories are
    serialized as well.  Two calls on the same exhausted queue, whose
    refill returns at least two items, start one refill between them. *)
Theorem refills_are_serialized (calls : list call) (w : supply)
    (schedule : list nat) :
  (length (refilling (run O schedule (spawn calls w))) <= 1)%nat /\
  (forall (i j : nat) (c c' : call),
     tasks (run O schedule (spawn calls w)) !! i = Some (c, Refilling) ->
     tasks (run O schedule (spawn calls w)) !! j = Some (c', Refilling) ->
     i = j) /\
  (forall (c : call) (items : option listref) (q : listref) (w1 : supply),
     calls = [c; c] ->
     slot w (category c) (item_type c) = Some items ->
     truthy w items = false ->
     get_items O (category c) (item_type c) (theme c) w = (Ok (Some q), w1) ->
     (2 <= length (contents w1 q))%nat ->
     all_returned (run O schedule (spawn calls w)) ->
     refills (category c) (item_type c) (world (run O schedule (spawn calls w)))
     = S (refills (category c) (item_type c) w)).
Proof.
  assert (Huniq : forall (i j : nat) (c c' : call),
     tasks (run O schedule (spawn calls w)) !! i = Some (c, Refilling) ->
     tasks (run O schedule (spawn calls w)) !! j = Some (c', Refilling) ->
     i = j).
  { intros i j c c' Hi Hj.
    pose proof (lock_invariant_run schedule _ (lock_invariant_spawn calls w))
      as Hinv.
    assert (holder (run O schedule (spawn calls w)) = Some i) as Hhi
      by (apply Hinv; eauto).
    assert (holder (run O schedule (spawn calls w)) = Some j) as Hhj
      by (apply Hinv; eauto).
    congruence. }
  split; [|split; [exact Huniq|]].
  - apply filter_at_most_one. intros i j [c p] [c' p'] Hi Hj Hp Hp'.
    cbn in Hp, Hp'. subst p p'. by eapply Huniq.
  - intros c items q w1 -> Hslot Hfalsy Hitems Hlen Hall.
    destruct (ends_with_two (contents w1 q) Hlen) as (l & x & y & Hq).
    destruct (take_after_refill O (category c) (item_type c) (theme c)
                items q (l ++ [x]) y w w1 Hslot Hfalsy Hitems Hq)
      as (w2 & Htake & Hrest).
    assert (exists q', slot w2 (category c) (item_type c) = Some (Some q') /\
                       contents w2 q' = l ++ [x]) as (q' & Hslot2 & Hq').
    { destruct (l ++ [x]) eqn:E; [by destruct l|done]. }
    destruct (take_snoc O (category c) (item_type c) (theme c) q' l x w2
                Hslot2 Hq') as (w3 & Htake2 & Htr & _).
    assert (Htwo : two_calls O c w (run O schedule (spawn [c; c] w))).
    { apply (two_calls_run c w items q'); rewrite ?Htake; cbn [snd]; try done.
      - apply truthy_true. rewrite Hq'. by destruct l.
      - apply both_pending. }
    rewrite (two_calls_all_returned c w _ Htwo Hall), Htake. cbn [snd].
    rewrite Htake2. cbn [snd].
    unfold refills at 1. rewrite Htr.
    fold (refills (category c) (item_type c) w2).
    replace w2 with (update_counters_and_get_new_list O (category c)
                       (item_type c) (theme c) w).2 by (by rewrite Htake).
    by eapply take_refills_once.
Qed.

End EventLoopFacts.

Lemma refills_are_serialized_witness :
  let w := Supply.sample_supply None in
  let c := EventLoop.text_themes in
  let s := EventLoop.run (Supply.oracle_answering "a,b") [0; 1; 0; 1]%nat
             (EventLoop.spawn [c; c] w) in
  Supply.slot w "text" "themes" = Some None /\
  Supply.refills "text" "themes" (EventLoop.world s)
  = S (Supply.refills "text" "themes" w).
Proof.
  intros w c s. split; [reflexivity|].
  destruct (refills_are_serialized (Supply.oracle_answering "a,b") [c; c] w
              [0; 1; 0; 1]%nat) as (_ & _ & Hone).
  apply (Hone c None (Supply.Own ["a"; "b"])
           (Supply.get_items (Supply.oracle_answering "a,b") "text" "themes"
              None w).2).
  - reflexivity.
  - reflexivity.
  - reflexivity.
  - reflexivity.
  - cbn. lia.
  - repeat constructor; eexists; reflexivity.
Defined.

(** C5, as stated, fails.  When the refill returns a single item, the
    first call serves it and leaves the queue exhausted again, and the
    second call, which waited for the lock, starts a second refill.  And
    a call for another category does not refill concurrently: it waits for
    the lock while the first call refills. *)
Lemma one_item_refill_runs_twice :
  let w := Supply.sample_supply None in
  let same :=
    EventLoop.run (Supply.oracle_answering "a") [0; 1; 0; 1; 1]%nat
      (EventLoop.spawn [EventLoop.text_themes; EventLoop.text_themes] w) in
  let other :=
    EventLoop.run (Supply.oracle_answering "a,b") [0; 1]%nat
      (EventLoop.spawn [EventLoop.text_themes; EventLoop.images_themes] w) in
  (EventLoop.tasks same).*2
    = [EventLoop.Returned (Ok (Some "a")); EventLoop.Returned (Ok (Some "a"))] /\
  Supply.refills "text" "themes" w = 0%nat /\
  Supply.refills "text" "themes" (EventLoop.world same) = 2%nat /\
  (EventLoop.tasks other).*2 = [EventLoop.Refilling; EventLoop.Waiting].
Proof. cbv zeta. repeat split; vm_compute; reflexivity. Qed.

(** * Further properties *)

(** ** TaskSupply: themes, fallback and error cases *)

Section SupplyMore.
Import Supply.
Context (O : oracle).

(** [get_current_theme] pops the last theme and, unlike
    [update_counters_and_get_new_list], keeps the list it popped from under
    the themes key even when the pop emptied it. *)
Lemma get_current_theme_snoc category r l x w :
  slot w category "themes" = Some (Some r) ->
  contents w r = l ++ [x] ->
  exists r' w',
    get_current_theme O category w = (Ok (Some x), w') /\
    slot w' category "themes" = Some (Some r') /\
    contents w' r' = l /\
    trace w' = trace w /\
    keeps_categories w w'.
Proof.
  intros Hslot Hl.
  destruct (pop_snoc r l x w Hl) as (r' & w1 & Hpop & Hl' & Hst1 & Htr1).
  assert (Hcat1 : is_Some (state w1 !! category)).
  { rewrite Hst1. by eapply slot_is_Some_category. }
  destruct (state_set_ok category "themes" (Some r') w1 Hcat1)
    as (w2 & Hset & Hslot2 & Htpl2 & Htr2).
  exists r', w2.
  unfold get_current_theme, pop_if_truthy, is_truthy, pop_from.
  unfold mbind, M_bind, mret, M_ret.
  rewrite state_get_slot, Hslot.
  rewrite (proj2 (truthy_true w r)) by (rewrite Hl; by destruct l).
  cbv beta iota.
  rewrite ?(proj2 (truthy_true w r)) by (rewrite Hl; by destruct l).
  cbv beta iota. rewrite Hpop, Hset. split; [done|]. split; [done|].
  split; [by rewrite (contents_same_template w1 w2)|].
  split; [congruence|].
  pose proof (quiet_state_set category "themes" category "themes" (Some r') w1)
    as [Hk _].
  rewrite Hset in Hk. cbn in Hk.
  intros c Hc. apply Hk. by rewrite Hst1.
Qed.

(** X1.  [get_current_theme] returns the last theme of a non-empty themes
    queue without asking the oracle, and leaves the rest stored; after the
    last theme the stored queue is an empty list, not [None]. *)
Theorem get_current_theme_pops_last (category : string) (r : listref)
    (l : list string) (x : string) (w : supply) :
  slot w category "themes" = Some (Some r) ->
  contents w r = l ++ [x] ->
  (get_current_theme O category w).1 = Ok (Some x) /\
  trace (get_current_theme O category w).2 = trace w /\
  exists r' : listref,
    slot (get_current_theme O category w).2 category "themes" = Some (Some r') /\
    contents (get_current_theme O category w).2 r' = l.
Proof.
  intros Hslot Hl.
  destruct (get_current_theme_snoc category r l x w Hslot Hl)
    as (r' & w' & -> & Hslot' & Hl' & Htr & _).
  cbn. split; [done|]. split; [done|]. by exists r'.
Qed.

(** X2.  A refill of questions for which the caller supplies no theme
    takes the last theme of the themes queue, without an oracle call for
    it, and asks the oracle for questions on that theme; with a theme
    supplied, no queue is touched. *)
Theorem get_items_takes_one_theme (category item_type : string)
    (r : listref) (l : list string) (t : string) (w : supply) :
  item_type <> "themes" ->
  slot w category "themes" = Some (Some r) ->
  contents w r = l ++ [t] ->
  (exists (r' : listref) (w1 : supply),
     get_items O category item_type None w
       = get_list_m O (category +:+ "_questions") (Some t) w1 /\
     slot w1 category "themes" = Some (Some r') /\
     contents w1 r' = l /\
     oracle_calls w1 = oracle_calls w) /\
  (forall t' : string,
     state (get_items O category item_type (Some t') w).2 = state w /\
     template_lists (get_items O category item_type (Some t') w).2
       = template_lists w).
Proof.
  intros Hne Hslot Hl. split.
  - destruct (get_current_theme_snoc category r l t
                (log (EvRefill category item_type) w) Hslot Hl)
      as (r' & w1 & Htheme & Hslot1 & Hl1 & Htr1 & _).
    exists r', w1. split; [|split; [done|split; [done|]]].
    + unfold get_items. rewrite decide_False by done.
      unfold mbind, M_bind. rewrite Htheme. done.
    + unfold oracle_calls. rewrite Htr1. unfold log. cbn [trace].
      by rewrite filter_cons_False.
  - intros t'. unfold get_items. rewrite decide_False by done.
    unfold mbind, M_bind, mret, M_ret, get_list_m.
    destruct (get_list_step O (category +:+ "_questions") (Some t')
                (log (EvRefill category item_type) w)) as (evs & Hstep & _).
    destruct (get_list O _ _ _) as [res w']. cbn in *.
    split; [apply (step_state _ _ _ Hstep)|apply (step_template _ _ _ Hstep)].
Qed.

(** *** The fallback list is the list of [template] itself *)

Lemma serve_default category item_type d w :
  is_Some (state w !! category) ->
  exists w',
    serve category item_type (Some (Default d)) w
      = (Ok (last (template_lists w d)), w') /\
    template_lists w' d = removelast (template_lists w d) /\
    (forall d', d' <> d -> template_lists w' d' = template_lists w d') /\
    trace w' = trace w.
Proof.
  intros Hcat.
  destruct (template_lists w d) as [|y l0] eqn:Hd.
  - destruct (serve_empty category item_type (Some (Default d)) w Hcat)
      as (w' & Hserve & Htr & _).
    { apply truthy_false. done. }
    exists w'. split; [done|].
    unfold serve, pop_if_truthy, is_truthy in Hserve.
    unfold mbind, M_bind, mret, M_ret in Hserve.
    cbn [truthy contents] in Hserve. rewrite Hd in Hserve.
    rewrite bool_decide_eq_false_2 in Hserve by (by intros H; apply H).
    cbn [truthy contents] in Hserve. rewrite Hd in Hserve.
    rewrite bool_decide_eq_false_2 in Hserve by (by intros H; apply H).
    destruct (state_set_ok category item_type None w Hcat)
      as (w2 & Hset & _ & Htpl & _).
    rewrite Hset in Hserve. injection Hserve as <-.
    rewrite Htpl, Hd. done.
  - assert (Hne : y :: l0 <> []) by done.
    apply exists_last in Hne as (l & x & Hl). rewrite Hl in *.
    rewrite last_snoc, removelast_last.
    set (w1 := set_template w d l).
    assert (Hcat1 : is_Some (state w1 !! category)) by done.
    destruct (state_set_ok category item_type (Some (Default d)) w1 Hcat1)
      as (w2 & Hset & Hslot2 & Htpl2 & Htr2).
    assert (Hw2d : template_lists w2 d = l).
    { rewrite Htpl2. cbn. by rewrite decide_True. }
    assert (Hw2o : forall d', d' <> d -> template_lists w2 d' = template_lists w d').
    { intros d' Hd'. rewrite Htpl2. cbn. by rewrite decide_False. }
    unfold serve, pop_if_truthy, is_truthy, pop_from.
    unfold mbind, M_bind, mret, M_ret.
    cbn [truthy contents]. rewrite Hd.
    rewrite bool_decide_eq_true_2 by (by destruct l).
    cbv beta iota. cbn [pop]. rewrite Hd.
    rewrite last_snoc, removelast_last. fold w1. rewrite Hset.
    cbv beta iota. cbn [truthy contents]. rewrite Hw2d.
    destruct l as [|z l'].
    + rewrite bool_decide_eq_false_2 by (by intros H; apply H).
      destruct (state_set_ok category item_type None w2) as (w3 & -> & _ & Htpl3 & Htr3).
      { by eapply slot_is_Some_category. }
      exists w3. split; [done|]. rewrite Htpl3.
      split; [done|]. split; [done|]. by rewrite Htr3, Htr2.
    + rewrite bool_decide_eq_true_2 by done.
      exists w2. split; [done|]. split; [done|]. split; [done|].
      by rewrite Htr2.
Qed.

(** With the oracle unreachable, [get_list] falls back. *)
Lemma call_openai_attempts_down n req w :
  (forall k r, exists e, create O k r = Raise e) ->
  (call_openai_attempts O n req w).1 = None.
Proof.
  intros Hdown. revert w. induction n as [|n IH]; intros w; [done|].
  cbn. destruct (Hdown (created w) req) as [e ->]. apply IH.
Qed.

Lemma get_list_retries_down n prompt w :
  (forall k r, exists e, create O k r = Raise e) ->
  (forall x l, extract_python_list O "" <> Ok (Some (x :: l))) ->
  (get_list_retries O n prompt w).1 = None.
Proof.
  intros Hdown Hempty. revert w. induction n as [|n IH]; intros w; [done|].
  cbn [get_list_retries].
  pose proof (call_openai_attempts_down 2
    {| model := "gpt-3.5-turbo"; content := prompt;
       temperature := Q2Qc (33 # 100); seed := randint O (draws w) |}
    (log EvCallOpenai (count_draw w)) Hdown) as Hcall.
  unfold call_openai.
  destruct (call_openai_attempts O 2 _ _) as [answer w1]. cbn in Hcall.
  subst answer.
  destruct (extract_python_list O "") as [[[|x l]|]|e] eqn:Hex; try apply IH.
  by destruct (Hempty x l).
Qed.

(** X3.  The fallback of [get_list] hands out the list object of the
    [template] module, and the queue pops from it: with the oracle
    unreachable, a call on an exhausted themes queue returns the last
    element of the module's list and removes it from that list for good
    (the other lists of the module are left alone); once the module's list
    is empty the call returns [None]. *)
Theorem fallback_consumes_the_template_list (category : string)
    (theme : option string) (d : dflt) (prompt : string)
    (items : option listref) (w : supply) :
  list_type_mapping (category +:+ "_themes") None = Some (d, prompt) ->
  slot w category "themes" = Some items ->
  truthy w items = false ->
  (forall k r, exists e, create O k r = Raise e) ->
  (forall x l, extract_python_list O "" <> Ok (Some (x :: l))) ->
  (update_counters_and_get_new_list O category "themes" theme w).1
    = Ok (last (template_lists w d)) /\
  template_lists (update_counters_and_get_new_list O category "themes" theme w).2 d
    = removelast (template_lists w d) /\
  (forall d', d' <> d ->
     template_lists (update_counters_and_get_new_list O category "themes" theme w).2 d'
     = template_lists w d').
Proof.
  intros Hmap Hslot Hfalsy Hdown Hempty.
  rewrite update_counters_and_get_new_list_eq, Hslot.
  rewrite refill_if_empty_eq, Hfalsy.
  destruct (get_items_refills O category "themes" theme w) as [Hkeep _].
  unfold get_items in *. rewrite decide_True in * by done.
  unfold get_list_m in *.
  destruct (get_list_step O (category +:+ "_themes") None
              (log (EvRefill category "themes") w)) as (evs & Hstep & _).
  unfold get_list in *. rewrite Hmap in *.
  pose proof (get_list_retries_down max_retries prompt
    (log (EvGetList (category +:+ "_themes")) (log (EvRefill category "themes") w))
    Hdown Hempty) as Hnone.
  destruct (get_list_retries O max_retries prompt _) as [res w1].
  cbn in Hnone. subst res. cbn in Hkeep, Hstep.
  destruct (state_set_ok category "themes" (Some (Default d)) w1)
    as (w2 & -> & Hslot2 & Htpl2 & _).
  { apply Hkeep. by eapply slot_is_Some_category. }
  destruct (serve_default category "themes" d w2)
    as (w3 & -> & Hd & Hother & _).
  { by eapply slot_is_Some_category. }
  cbn [fst snd].
  assert (Htpl : template_lists w2 = template_lists w).
  { rewrite Htpl2. apply (step_template _ _ _ Hstep). }
  rewrite Hd, Htpl. split; [done|]. split; [done|].
  intros d' Hd'. rewrite Hother by done. by rewrite Htpl.
Qed.

(** X4.  Error cases of a call.  A key that [state] lacks raises
    [KeyError] and changes nothing.  When [state] holds a category that
    has no list type ([get_list] returns [None] for it), a call on its
    exhausted themes queue stores [None], makes no oracle call and raises
    the [TypeError] of the debug line. *)
Theorem take_error_cases (category item_type : string)
    (theme : option string) (w : supply) :
  (slot w category item_type = None ->
   update_counters_and_get_new_list O category item_type theme w
     = (Raise KeyError, w)) /\
  (forall items : option listref,
     list_type_mapping (category +:+ "_themes") None = None ->
     slot w category "themes" = Some items ->
     truthy w items = false ->
     (update_counters_and_get_new_list O category "themes" theme w).1
       = Raise TypeError /\
     slot (update_counters_and_get_new_list O category "themes" theme w).2
          category "themes" = Some None /\
     oracle_calls (update_counters_and_get_new_list O category "themes" theme w).2
       = oracle_calls w).
Proof.
  split.
  - intros Hnone. by rewrite update_counters_and_get_new_list_eq, Hnone.
  - intros items Hmap Hslot Hfalsy.
    rewrite update_counters_and_get_new_list_eq, Hslot.
    rewrite refill_if_empty_eq, Hfalsy.
    destruct (get_items_refills O category "themes" theme w) as [Hkeep _].
    unfold get_items in *. rewrite decide_True in * by done.
    unfold get_list_m, get_list in *. rewrite Hmap in *. cbn in Hkeep.
    destruct (state_set_ok category "themes" None
                (log (EvGetList (category +:+ "_themes"))
                   (log (EvRefill category "themes") w)))
      as (w2 & -> & Hslot2 & _ & Htr2).
    { apply Hkeep. by eapply slot_is_Some_category. }
    cbn. split; [done|]. split; [done|].
    unfold oracle_calls. rewrite Htr2. unfold log. cbn [trace].
    by rewrite !filter_cons_False.
Qed.

End SupplyMore.

Lemma get_current_theme_pops_last_witness :
  let w := Samples.fallback_supply in
  Supply.slot w "text" "themes" = Some (Some (Supply.Default Supply.question_themes)) /\
  (Supply.get_current_theme Supply.oracle_down "text" w).1 = Ok (Some "d2").
Proof.
  intros w. split; [reflexivity|].
  apply (get_current_theme_pops_last Supply.oracle_down "text"
           (Supply.Default Supply.question_themes) ["d1"] "d2" w);
    reflexivity.
Defined.

Lemma get_items_takes_one_theme_witness :
  let w := Samples.fallback_supply in
  "questions" <> "themes" /\
  Supply.state (Supply.get_items Supply.oracle_down "text" "questions"
                  (Some "art") w).2 = Supply.state w.
Proof.
  intros w. split; [discriminate|].
  destruct (get_items_takes_one_theme Supply.oracle_down "text" "questions"
              (Supply.Default Supply.question_themes) ["d1"] "d2" w)
    as [_ Hsupplied]; [discriminate|reflexivity|reflexivity|].
  apply Hsupplied.
Defined.

Lemma fallback_consumes_the_template_list_witness :
  let w := Supply.sample_supply None in
  Supply.slot w "text" "themes" = Some None /\
  (Supply.update_counters_and_get_new_list Supply.oracle_down
     "text" "themes" None w).1 = Ok (Some "d2").
Proof.
  intros w. split; [reflexivity|].
  apply (fallback_consumes_the_template_list Supply.oracle_down "text" None
           Supply.question_themes
           "Create a Python list of 50 unique and thought-provoking themes, each suitable for generating meaningful text-based questions. Limit each theme to a maximum of four words. The themes should be diverse and encompass a range of topics, including technology, philosophy, society, history, science, and art. Format the themes as elements in a Python list, and provide only the list without any additional text or explanations."
           None w).
  - reflexivity.
  - reflexivity.
  - reflexivity.
  - intros k r. by exists TransportError.
  - intros x l. discriminate.
Defined.

Lemma take_error_cases_witness :
  let w := Samples.stray_supply in
  Supply.slot w "embeddings" "themes" = Some None /\
  (Supply.update_counters_and_get_new_list Supply.oracle_down
     "embeddings" "themes" None w).1 = Raise TypeError.
Proof.
  intros w. split; [reflexivity|].
  destruct (take_error_cases Supply.oracle_down "embeddings" "themes" None w)
    as [_ Hstray].
  apply (Hstray None); reflexivity.
Defined.

(** ** WeightAccumulator and round loop: errors, bounds, invariants *)

Section AccumulatorMore.
Import Accumulator.

(** X5.  Failures of [set_weights].  An exception of the ledger call
    leaves the function after the moving average has been updated.  Score
    vectors whose sizes cannot be broadcast raise [RuntimeError] before
    anything is updated or submitted. *)
Theorem set_weights_failures (v : list Qc) (st : accumulator) :
  (forall (e : exn) (prev : list Qc),
     moving_average_scores st = Some prev ->
     length v = length prev ->
     (set_weights v (Raise e) st).1 = Raise e /\
     committed (set_weights v (Raise e) st) = Some (ema v prev)) /\
  (forall (submit : outcome unit) (prev : list Qc),
     moving_average_scores st = Some prev ->
     length v <> length prev ->
     length v <> 1%nat ->
     length prev <> 1%nat ->
     (set_weights v submit st).1 = Raise RuntimeError /\
     committed (set_weights v submit st) = Some prev /\
     submitted (set_weights v submit st).2 = submitted st).
Proof.
  split.
  - intros e prev Hprev Hlen. unfold committed, set_weights.
    rewrite Hprev. cbn.
    rewrite add_same_length by (by rewrite !length_scale).
    by rewrite ema_next_call.
  - intros submit prev Hprev Hne Hv Hp. unfold committed, set_weights.
    rewrite Hprev. cbn. unfold add.
    rewrite decide_False by (by rewrite !length_scale).
    destruct v as [|x [|y v]]; destruct prev as [|p [|p' prev]]; done.
Qed.

End AccumulatorMore.

Lemma set_weights_failures_witness :
  let st := {| Accumulator.moving_average_scores := Some [Q2Qc 1; Q2Qc 0];
               Accumulator.received := []; Accumulator.submitted := [] |} in
  (Accumulator.set_weights [Q2Qc 1; Q2Qc 1; Q2Qc 1] (Ok tt) st).1
    = Raise RuntimeError.
Proof.
  intros st.
  destruct (set_weights_failures [Q2Qc 1; Q2Qc 1; Q2Qc 1] st) as [_ Hsize].
  apply (Hsize (Ok tt) [Q2Qc 1; Q2Qc 0]); [reflexivity|cbn; lia..].
Defined.

Section RoundLoopMore.
Import Accumulator RoundLoop Dispatch Discovery.

(** What one round hands to [set_weights], from a counter between 0
    and 4. *)
Lemma round_hands_the_average (env : round_env) (st : loop_state)
    (logged : list exn) :
  (0 <= steps_passed st <= 4)%Z ->
  (0 <= steps_passed (round env (st, logged)).1 <= 4)%Z /\
  (received (acc (round env (st, logged)).1) = received (acc st) \/
   (steps_passed st = 4%Z /\
    exists scores total : list Qc,
      get_and_score env = Ok scores /\
      iadd (total_scores st) scores = Ok total /\
      received (acc (round env (st, logged)).1)
      = div_scalar total 5 :: received (acc st))).
Proof.
  intros Hb. unfold round, round_body. cbn.
  destruct (metagraph_sync env) as [n|]; cbn; [|by auto].
  destruct (available_uids env) as [[|u us]|]; cbn; [by auto| |by auto].
  destruct (get_and_score env) as [scores|]; cbn; [|by auto].
  destruct (iadd (total_scores st) scores) as [total|] eqn:Htotal; cbn;
    [|by auto].
  case_decide as Hmod; cbn.
  - assert (Hfour : steps_passed st = 4%Z).
    { assert (steps_passed st `mod` 5 = steps_passed st)%Z
        by (apply Z.mod_small; lia). lia. }
    unfold commit. cbn. rewrite Hfour.
    pose proof (received_set_weights (div_scalar total (4 + 1))
                  (ledger_submit env) (acc st)) as Hrec.
    destruct (set_weights _ _ _) as [[[]|e] a]; cbn in *.
    + split; [lia|]. right. split; [done|]. by exists scores, total.
    + split; [lia|]. right. split; [done|]. by exists scores, total.
  - assert (steps_passed st <> 4)%Z.
    { intros Heq. apply Hmod. cbn. by rewrite Heq. }
    split; [lia|by left].
Qed.

Lemma query_synapse_keeps_counter (envs : list round_env) (st : loop_state)
    (logged : list exn) :
  (0 <= steps_passed st <= 4)%Z ->
  (0 <= steps_passed (query_synapse envs (st, logged)).1 <= 4)%Z.
Proof.
  revert st logged. induction envs as [|env envs IH]; intros st logged Hb;
    [done|].
  cbn. destruct (round env (st, logged)) as [st1 logged1] eqn:Hround.
  apply IH.
  pose proof (round_hands_the_average env st logged Hb) as [Hb1 _].
  by rewrite Hround in Hb1.
Qed.

(** X7.  The round counter stays between 0 and 4, whatever the rounds
    do, so the divisor [steps_passed + 1] of a commit is always 5.  After
    any number of rounds, the next round hands a vector to [set_weights]
    only when the counter is 4, and the vector is then the sum held so
    far with the round's scores added, divided by 5. *)
Theorem counter_stays_below_five (envs : list round_env) (env : round_env)
    (st : loop_state) (logged : list exn) :
  (0 <= steps_passed st <= 4)%Z ->
  (0 <= steps_passed (query_synapse envs (st, logged)).1 <= 4)%Z /\
  (received (acc (round env (query_synapse envs (st, logged))).1)
     = received (acc (query_synapse envs (st, logged)).1) \/
   (steps_passed (query_synapse envs (st, logged)).1 = 4%Z /\
    exists scores total : list Qc,
      get_and_score env = Ok scores /\
      iadd (total_scores (query_synapse envs (st, logged)).1) scores
        = Ok total /\
      received (acc (round env (query_synapse envs (st, logged))).1)
      = div_scalar total 5
          :: received (acc (query_synapse envs (st, logged)).1))).
Proof.
  intros Hb.
  pose proof (query_synapse_keeps_counter envs st logged Hb) as Hreached.
  split; [done|].
  destruct (query_synapse envs (st, logged)) as [reached logged'].
  by destruct (round_hands_the_average env reached logged' Hreached).
Qed.

(** *** Reachable peers *)

Lemma gather_check_uid (probe : nat -> outcome bool) (uids : list nat) :
  gather ((fun uid => check_uid (probe uid) uid) <$> uids)
  = Ok ((fun uid => if bool_decide (probe uid = Ok true) then Some uid else None)
          <$> uids).
Proof.
  induction uids as [|uid uids IH]; [done|]. cbn. rewrite IH.
  by destruct (probe uid) as [[]|e].
Qed.

Lemma omap_reachable (probe : nat -> outcome bool) (uids : list nat) :
  omap id ((fun uid => if bool_decide (probe uid = Ok true) then Some uid else None)
             <$> uids)
  = filter (fun uid => probe uid = Ok true) uids.
Proof.
  induction uids as [|uid uids IH]; [done|].
  rewrite filter_cons. csimpl. rewrite IH.
  case_bool_decide; by case_decide.
Qed.

(** X8.  [get_available_uids] does not raise and returns, in the order of
    the metagraph, exactly the uids whose probe answered with success: a
    probe that fails or raises removes its own uid only, and uid 0 is kept
    like any other. *)
Theorem get_available_uids_filters (probe : nat -> outcome bool)
    (uids : list nat) :
  get_available_uids probe uids
  = Ok (filter (fun uid => probe uid = Ok true) uids).
Proof.
  unfold get_available_uids. by rewrite gather_check_uid, omap_reachable.
Qed.

(** X9.  A round in which no probe succeeds changes nothing: the counter,
    the sum and the moving average are as before, and nothing is logged,
    even when scoring or the ledger would have raised. *)
Theorem round_without_reachable_peers (n : nat) (probe : nat -> outcome bool)
    (scores : outcome (list Qc)) (submit : outcome unit)
    (st : loop_state) (logged : list exn) :
  (forall uid : nat, (uid < n)%nat -> probe uid <> Ok true) ->
  round (discovered_round n probe scores submit) (st, logged) = (st, logged).
Proof.
  intros Hnone. unfold round, round_body. cbn.
  unfold get_available_uids. rewrite gather_check_uid, omap_reachable.
  rewrite (filter_none _ (seq 0 n)); [done|].
  apply Forall_forall. intros uid Huid. apply Hnone.
  apply elem_of_seq in Huid. lia.
Qed.

End RoundLoopMore.

Lemma counter_stays_below_five_witness :
  let start := RoundLoop.initial 1 RoundLoop.fresh_accumulator in
  let reached :=
    RoundLoop.query_synapse (replicate 8 (RoundLoop.ok_round [Q2Qc 1]))
      (start, []) in
  (0 <= RoundLoop.steps_passed start <= 4)%Z /\
  (0 <= RoundLoop.steps_passed reached.1 <= 4)%Z /\
  Accumulator.received
    (RoundLoop.acc (RoundLoop.round (RoundLoop.ok_round [Q2Qc 1]) reached).1)
  = div_scalar [Q2Qc 4] 5 :: Accumulator.received (RoundLoop.acc reached.1).
Proof.
  intros start reached.
  destruct (counter_stays_below_five
              (replicate 8 (RoundLoop.ok_round [Q2Qc 1]))
              (RoundLoop.ok_round [Q2Qc 1]) start [])
    as [Hcounter Hhanded]; [cbn; lia|].
  split; [cbn; lia|]. split; [exact Hcounter|].
  apply (bool_decide_unpack _). vm_compute. exact I.
Defined.

Lemma round_without_reachable_peers_witness :
  let st := RoundLoop.initial 2 RoundLoop.fresh_accumulator in
  RoundLoop.round
    (Discovery.discovered_round 2 (fun _ => Raise TimeoutError)
       (Raise NameError) (Ok tt)) (st, [])
  = (st, []).
Proof.
  intros st.
  apply (round_without_reachable_peers 2 (fun _ => Raise TimeoutError)
           (Raise NameError) (Ok tt) st []).
  intros uid _. discriminate.
Defined.

(** ** PeerDispatcher: streams and questions *)

Section DispatchMore.
Import Supply Dispatch TextQuery.

Lemma string_app_assoc (s1 s2 s3 : string) :
  (s1 +:+ s2) +:+ s3 = s1 +:+ (s2 +:+ s3).
Proof.
  induction s1 as [|c s1 IH]; [done|].
  change (String c ((s1 +:+ s2) +:+ s3) = String c (s1 +:+ (s2 +:+ s3))).
  by rewrite IH.
Qed.

Lemma string_app_empty_r (s : string) : s +:+ "" = s.
Proof.
  induction s as [|c s IH]; [done|].
  change (String c (s +:+ "") = String c s). by rewrite IH.
Qed.

Lemma read_chunks_join (cs : list chunk) (responses : string) :
  Forall readable cs ->
  read_chunks cs responses = Ok (responses +:+ join (chunk_text <$> cs)).
Proof.
  intros Hcs. revert responses.
  induction Hcs as [|c cs Hc _ IH]; intros responses.
  - cbn. by rewrite string_app_empty_r.
  - destruct c as [[|part parts]|]; [done| |]; cbn [read_chunks].
    + rewrite IH, string_app_assoc. done.
    + rewrite IH. done.
Qed.

Lemma read_chunks_unreadable (cs : list chunk) (responses : string) :
  ChunkList [] ∈ cs -> read_chunks cs responses = Raise IndexError.
Proof.
  revert responses. induction cs as [|c cs IH]; intros responses Hin.
  - by apply elem_of_nil in Hin.
  - apply elem_of_cons in Hin as [<-|Hin]; [done|].
    destruct c as [[|part parts]|]; cbn; [done|by apply IH..].
Qed.

(** X10.  The text of a peer is the concatenation, in arrival order, of
    the first elements of the list chunks of the first stream: chunks that
    are not lists add nothing, and further streams are not read.  This is
    the text branch of [query_miner] once the name [timeout] of its first
    line is bound; as the file stands it is not, and the result is
    [(uid, None)] (remark [query_miner_unbound_timeout]). *)
Theorem text_is_the_first_stream (timeout : Z) (uid : nat)
    (d : dendrite_answer) (resp : stream) (others : list stream) :
  streaming d = Ok (resp :: others) ->
  Forall readable (chunks resp) ->
  ending resp = Ok tt ->
  query_miner (Some timeout) uid "text" d
  = Ok (uid, Some (Text (join (chunk_text <$> chunks resp)))).
Proof.
  intros Hstreams Hreadable Hend.
  unfold query_miner, query_miner_body.
  rewrite decide_False by (intros [H|H]; discriminate H).
  rewrite decide_True by done.
  rewrite Hstreams. unfold read_stream.
  by rewrite (read_chunks_join _ "" Hreadable), Hend.
Qed.

(** X11.  A text response is all or nothing: when the first stream raises
    after some chunks, or yields an empty list as a chunk, the chunks
    already read are dropped and the peer's result is [(uid, None)]. *)
Theorem text_is_all_or_nothing (timeout_global : option Z) (uid : nat)
    (d : dendrite_answer) (resp : stream) (others : list stream) :
  streaming d = Ok (resp :: others) ->
  ChunkList [] ∈ chunks resp \/ (exists e, ending resp = Raise e) ->
  query_miner timeout_global uid "text" d = Ok (uid, None).
Proof.
  intros Hstreams Hbad.
  unfold query_miner, query_miner_body.
  destruct timeout_global as [timeout|]; [|done].
  rewrite decide_False by (intros [H|H]; discriminate H).
  rewrite decide_True by done.
  rewrite Hstreams. unfold read_stream.
  destruct Hbad as [Hin|[e He]].
  - by rewrite (read_chunks_unreadable _ "" Hin).
  - rewrite He. by destruct (read_chunks (chunks resp) "").
Qed.

(** *** Questions follow the queue *)

Lemma ask_questions_for_images O uids :
  ask_questions O uids = ask_questions_for O "images" uids.
Proof. induction uids as [|uid uids IH]; [done|]. cbn. by rewrite IH. Qed.

Lemma get_question_known O category w :
  category = "text" \/ category = "images" ->
  get_question O category w
  = update_counters_and_get_new_list O category "questions" None w.
Proof.
  intros Hc. unfold get_question. rewrite decide_True; [done|].
  rewrite !elem_of_cons. tauto.
Qed.

Lemma ask_questions_for_queue O category uids :
  category = "text" \/ category = "images" ->
  forall l w r,
    slot w category "questions" = Some (Some r) ->
    contents w r = l ->
    (length uids <= length l)%nat ->
    exists w',
      ask_questions_for O category uids w
        = (Ok (zip uids (Some <$> reverse l)), w') /\
      trace w' = trace w.
Proof.
  intros Hc. induction uids as [|uid uids IH]; intros l w r Hslot Hl Hlen.
  - exists w. by cbn.
  - destruct l as [|x l _] using rev_ind; [cbn in Hlen; lia|].
    rewrite length_app in Hlen. cbn in Hlen.
    destruct (take_snoc O category "questions" None r l x w Hslot Hl)
      as (w1 & Htake & Htr1 & Hrest).
    cbn [ask_questions_for]. unfold mbind, M_bind, mret, M_ret.
    rewrite get_question_known, Htake by done.
    rewrite reverse_snoc. cbn [fmap list_fmap zip zip_with].
    destruct l as [|y l].
    + destruct uids as [|u uids]; [|cbn in Hlen; lia].
      exists w1. by cbn.
    + destruct Hrest as (r' & Hslot1 & Hl1).
      destruct (IH (y :: l) w1 r' Hslot1 Hl1) as (w' & Hask & Htr);
        [cbn in *; lia|].
      exists w'. unfold mbind, M_bind in Hask |- *. rewrite Hask.
      split; [done|congruence].
Qed.

Lemma foldl_insert_fresh (asked : list (nat * option string))
    (m : gmap nat (option string)) (uid : nat) :
  uid ∉ asked.*1 ->
  foldl (fun m a => <[a.1 := a.2]> m) m asked !! uid = m !! uid.
Proof.
  revert m. induction asked as [|a asked IH]; intros m Hnotin; [done|].
  cbn in *. apply not_elem_of_cons in Hnotin as [Hne Hnotin].
  rewrite IH by done. by rewrite lookup_insert_ne.
Qed.

Lemma foldl_insert_lookup (asked : list (nat * option string))
    (m : gmap nat (option string)) (uid : nat) (q : option string) :
  NoDup asked.*1 -> (uid, q) ∈ asked ->
  foldl (fun m a => <[a.1 := a.2]> m) m asked !! uid = Some q.
Proof.
  revert m. induction asked as [|a asked IH]; intros m Hnodup Hin.
  - by apply elem_of_nil in Hin.
  - cbn in *. apply NoDup_cons in Hnodup as [Hfresh Hnodup].
    apply elem_of_cons in Hin as [<-|Hin].
    + rewrite foldl_insert_fresh by done. cbn. by rewrite lookup_insert_eq.
    + by apply IH.
Qed.

(** X12.  While the queue holds enough questions, a [start_query] asks
    nothing of the oracle: the peers receive the queued questions from the
    last one backwards, in the order of the peers, every peer gets a
    result, and [uid_to_question] records under each uid the question that
    peer received (for uids without repetition). *)
Theorem start_query_follows_the_queue (O : oracle) (timeout_global : option Z)
    (dendrite : nat -> dendrite_answer) (available_uids : list nat)
    (w : supply) (r : listref) (l : list string) :
  slot w "text" "questions" = Some (Some r) ->
  contents w r = l ->
  (length available_uids <= length l)%nat ->
  exists results uid_to_question w',
    start_query O timeout_global dendrite available_uids w
      = (Ok (results, uid_to_question), w') /\
    trace w' = trace w /\
    results.*1 = available_uids /\
    (NoDup available_uids ->
     forall (i uid : nat) (q : string),
       available_uids !! i = Some uid ->
       reverse l !! i = Some q ->
       uid_to_question !! uid = Some (Some q)).
Proof.
  intros Hslot Hl Hlen.
  destruct (ask_questions_for_queue O "text" available_uids (or_introl eq_refl)
              l w r Hslot Hl Hlen) as (w' & Hask & Htr).
  unfold start_query, mbind, M_bind. rewrite Hask.
  rewrite dispatch_batch_results. unfold mret, M_ret.
  eexists _, _, w'. split; [done|]. split; [done|].
  assert (Huids : (zip available_uids (Some <$> reverse l)).*1 = available_uids).
  { apply fst_zip. rewrite length_fmap, length_reverse. lia. }
  split.
  - rewrite <- !list_fmap_compose.
    rewrite <- Huids at 2. by apply list_fmap_ext.
  - intros Hnodup i uid q Hi Hq.
    apply foldl_insert_lookup; [by rewrite Huids|].
    apply list_elem_of_lookup. exists i.
    rewrite lookup_zip_with, Hi. cbn. rewrite list_lookup_fmap, Hq. done.
Qed.

End DispatchMore.

Lemma text_is_the_first_stream_witness :
  Dispatch.query_miner (Some 24%Z) 7 "text" Dispatch.peer_up
  = Ok (7%nat, Some (Dispatch.Text "ab")).
Proof.
  apply (text_is_the_first_stream 24%Z 7 Dispatch.peer_up
           {| Dispatch.chunks := [Dispatch.ChunkList ["a"]; Dispatch.ChunkList ["b"]];
              Dispatch.ending := Ok tt |} []).
  - reflexivity.
  - repeat constructor; discriminate.
  - reflexivity.
Defined.

Lemma text_is_all_or_nothing_witness :
  let d := {| Dispatch.unary := Raise TimeoutError;
              Dispatch.streaming :=
                Ok [ {| Dispatch.chunks := [Dispatch.ChunkList ["a"]];
                        Dispatch.ending := Raise TransportError |} ] |} in
  Dispatch.query_miner (Some 24%Z) 7 "text" d = Ok (7%nat, None).
Proof.
  intros d.
  apply (text_is_all_or_nothing (Some 24%Z) 7 d
           {| Dispatch.chunks := [Dispatch.ChunkList ["a"]];
              Dispatch.ending := Raise TransportError |} []).
  - reflexivity.
  - right. by exists TransportError.
Defined.

Lemma start_query_follows_the_queue_witness :
  let w := Supply.sample_supply (Some (Supply.Own ["q1"; "q2"; "q3"])) in
  exists results uid_to_question w',
    TextQuery.start_query Supply.oracle_down (Some 24%Z)
      (fun _ => Dispatch.peer_up) [5; 8]%nat w
    = (Ok (results, uid_to_question), w') /\
    Supply.trace w' = Supply.trace w /\
    results.*1 = [5; 8]%nat.
Proof.
  intros w.
  destruct (start_query_follows_the_queue Supply.oracle_down (Some 24%Z)
              (fun _ => Dispatch.peer_up) [5; 8]%nat w
              (Supply.Own ["q1"; "q2"; "q3"]) ["q1"; "q2"; "q3"])
    as (results & m & w' & Hq & Htr & Huids & _).
  - reflexivity.
  - reflexivity.
  - cbn. lia.
  - by exists results, m, w'.
Defined.

(** ** ScoringStrategy: who gets a score *)

Section ScoringMore.
Import Dispatch Scoring ImageScoring.

Lemma record_scores_fresh (scored : list (nat * option Qc))
    (m : gmap nat Qc) (k : nat) :
  k ∉ scored.*1 -> record_scores m scored !! k = m !! k.
Proof.
  unfold record_scores. revert m.
  induction scored as [|p scored IH]; intros m Hk; [done|].
  cbn in *. apply not_elem_of_cons in Hk as [Hne Hk].
  rewrite IH by done. by rewrite lookup_insert_ne.
Qed.

Lemma record_scores_keeps (scored : list (nat * option Qc))
    (m : gmap nat Qc) (k : nat) :
  is_Some (m !! k) -> is_Some (record_scores m scored !! k).
Proof.
  unfold record_scores. revert m.
  induction scored as [|p scored IH]; intros m Hk; [done|].
  cbn. apply IH. destruct (decide (p.1 = k)) as [->|Hne].
  - rewrite lookup_insert_eq. eauto.
  - by rewrite lookup_insert_ne.
Qed.

Lemma record_scores_adds (scored : list (nat * option Qc))
    (m : gmap nat Qc) (k : nat) :
  k ∈ scored.*1 -> is_Some (record_scores m scored !! k).
Proof.
  revert m. induction scored as [|p scored IH]; intros m Hk.
  - by apply elem_of_nil in Hk.
  - cbn in Hk. apply elem_of_cons in Hk as [->|Hk].
    + unfold record_scores. cbn. apply record_scores_keeps.
      rewrite lookup_insert_eq. eauto.
    + unfold record_scores. cbn. by apply IH.
Qed.

(** The tail shared by the scorers. *)
Lemma finish_result env tasks scores r :
  finish env tasks scores = Ok r ->
  exists scored_responses,
    gather_or_empty (gather_scores env) tasks = Ok scored_responses /\
    r = (record_scores scores (zip tasks scored_responses),
         record_scores scores (zip tasks scored_responses)).
Proof.
  unfold finish.
  destruct (gather_or_empty (gather_scores env) tasks) as [rs|e]; [|done].
  destruct (telemetry env); [|done]. intros [= <-]. by exists rs.
Qed.

(** *** Text and embeddings *)

Lemma first_tasks_nil {Q} (will_score_all : bool)
    (query_responses : list (nat * option response))
    (uid_to_question : gmap nat Q) :
  first_tasks will_score_all query_responses uid_to_question = Ok [] ->
  will_score_all = false \/
  Forall (fun p => truthy_response p.2 = false) query_responses.
Proof.
  destruct will_score_all; [|by left]. intros Hnil. right.
  induction query_responses as [|[uid response] rest IH]; [done|].
  cbn in Hnil. destruct (truthy_response response) eqn:Htruthy.
  - destruct (uid_to_question !! uid); [|done].
    by destruct (first_tasks true rest uid_to_question).
  - constructor; [done|]. by apply IH.
Qed.

(** X13.  As the file stands, the text scorer and the embeddings scorer
    never return a score.  Their second gather awaits the coroutines of
    the first phase a second time, which raises: a pass returns only when
    no task was created, that is when the gate is closed or no peer sent
    a response, and then it returns two empty mappings.  With the gate
    open and a response from some peer, the pass raises. *)
Theorem scorers_return_no_score (env : scoring_env)
    (query_responses : list (nat * option response))
    (uid_to_question : gmap nat (option string))
    (uid_to_texts : gmap nat (list string)) :
  (forall r,
     text_score_responses env query_responses uid_to_question = Ok r ->
     r = (∅, ∅) /\
     (text_gate env = false \/
      Forall (fun p => truthy_response p.2 = false) query_responses)) /\
  (forall r,
     embeddings_score_responses env query_responses uid_to_texts = Ok r ->
     r = (∅, ∅) /\
     (embeddings_gate env = false \/
      Forall (fun p => truthy_response p.2 = false) query_responses)) /\
  (forall uid response,
     (uid, response) ∈ query_responses -> truthy_response response = true ->
     (text_gate env = true ->
      is_ok (text_score_responses env query_responses uid_to_question)
        = false) /\
     (embeddings_gate env = true ->
      is_ok (embeddings_score_responses env query_responses uid_to_texts)
        = false)).
Proof.
  assert (Htext : forall r,
    text_score_responses env query_responses uid_to_question = Ok r ->
    r = (∅, ∅) /\
    (text_gate env = false \/
     Forall (fun p => truthy_response p.2 = false) query_responses)).
  { intros r. unfold text_score_responses.
    destruct (first_tasks _ _ _) as [[|t ts]|e] eqn:Hfirst; [| |done].
    - cbn. unfold finish. cbn. intros Hr. split.
      + destruct (telemetry env); by simplify_eq.
      + by eapply first_tasks_nil.
    - cbn [gather_or_empty].
      by destruct (text_second_loop _ _) as [appended|e]. }
  assert (Hembeddings : forall r,
    embeddings_score_responses env query_responses uid_to_texts = Ok r ->
    r = (∅, ∅) /\
    (embeddings_gate env = false \/
     Forall (fun p => truthy_response p.2 = false) query_responses)).
  { intros r. unfold embeddings_score_responses.
    destruct (first_tasks _ _ _) as [[|t ts]|e] eqn:Hfirst; [| |done].
    - cbn. unfold finish. cbn. intros Hr. split.
      + destruct (telemetry env); by simplify_eq.
      + by eapply first_tasks_nil.
    - cbn [gather_or_empty].
      destruct (reference_embeddings env (t :: ts)) as [answers|e]; [|done].
      by destruct (embeddings_second_loop _ _ _) as [[appended scores]|e]. }
  split; [exact Htext|]. split; [exact Hembeddings|].
  intros uid response Hin Htruthy.
  assert (Hnot : ~ Forall (fun p => truthy_response p.2 = false) query_responses).
  { intros Hall. rewrite Forall_forall in Hall.
    specialize (Hall _ Hin). cbn in Hall. congruence. }
  split; intros Hgate.
  - destruct (text_score_responses _ _ _) as [r|e] eqn:Hr; [|done].
    destruct (Htext r eq_refl) as [_ [Hclosed|Hall]]; [congruence|done].
  - destruct (embeddings_score_responses _ _ _) as [r|e] eqn:Hr; [|done].
    destruct (Hembeddings r eq_refl) as [_ [Hclosed|Hall]]; [congruence|done].
Qed.

(** *** Images *)

Lemma first_loop_effect env query_responses uid_to_messages scores tasks scores' :
  first_loop env query_responses uid_to_messages scores = Ok (tasks, scores') ->
  (forall k, k ∉ query_responses.*1 -> scores' !! k = scores !! k) /\
  (forall k, is_Some (scores !! k) -> is_Some (scores' !! k)) /\
  (forall k, k ∈ tasks -> k ∈ query_responses.*1) /\
  (forall uid r, (uid, r) ∈ query_responses ->
     uid ∈ tasks \/ is_Some (scores' !! uid)) /\
  (NoDup query_responses.*1 ->
   forall uid r, (uid, r) ∈ query_responses -> scored_zero r ->
     scores' !! uid = Some 0 /\ uid ∉ tasks).
Proof.
  revert scores tasks scores'.
  induction query_responses as [|[u resp] rest IH];
    intros scores tasks scores' Hloop.
  - cbn in Hloop. injection Hloop as <- <-.
    split; [done|]. split; [done|].
    split; [intros k Hk; by apply elem_of_nil in Hk|].
    split; [intros uid r Hin; by apply elem_of_nil in Hin|].
    intros _ uid r Hin. by apply elem_of_nil in Hin.
  - cbn [first_loop] in Hloop.
    assert (Hzero : forall tasks scores',
      first_loop env rest uid_to_messages (<[u := 0]> scores) = Ok (tasks, scores') ->
      scored_zero resp ->
      (forall k, k ∉ ((u, resp) :: rest).*1 -> scores' !! k = scores !! k) /\
      (forall k, is_Some (scores !! k) -> is_Some (scores' !! k)) /\
      (forall k, k ∈ tasks -> k ∈ ((u, resp) :: rest).*1) /\
      (forall uid r, (uid, r) ∈ (u, resp) :: rest ->
         uid ∈ tasks \/ is_Some (scores' !! uid)) /\
      (NoDup ((u, resp) :: rest).*1 ->
       forall uid r, (uid, r) ∈ (u, resp) :: rest -> scored_zero r ->
         scores' !! uid = Some 0 /\ uid ∉ tasks)).
    { intros tasks0 scores0 Hrest _.
      destruct (IH _ _ _ Hrest) as (Hfresh & Hkeep & Htasks & Hall & Hz).
      cbn [fmap list_fmap fst]. split; [|split; [|split; [|split]]].
      - intros k Hk. apply not_elem_of_cons in Hk as [Hne Hk].
        rewrite Hfresh by done. by rewrite lookup_insert_ne.
      - intros k Hk. apply Hkeep.
        destruct (decide (u = k)) as [->|Hne];
          [rewrite lookup_insert_eq; eauto|by rewrite lookup_insert_ne].
      - intros k Hk. right. by apply Htasks.
      - intros uid r Hin. apply elem_of_cons in Hin as [[= -> ->]|Hin].
        + right. apply Hkeep. rewrite lookup_insert_eq. eauto.
        + by eapply Hall.
      - intros Hnodup uid r Hin Hr.
        apply NoDup_cons in Hnodup as [Hu Hnodup].
        apply elem_of_cons in Hin as [[= -> ->]|Hin].
        + split.
          * rewrite Hfresh by done. by rewrite lookup_insert_eq.
          * intros Hin. by apply Hu, Htasks.
        + by eapply Hz. }
    destruct (truthy_response resp) eqn:Htruthy.
    + destruct resp as [[[|syn ss]|s]|]; try done.
      destruct (completion syn) as [url|] eqn:Hcompletion.
      * destruct (download env url); [|done].
        destruct (uid_to_messages !! u); [|done].
        destruct (first_loop env rest uid_to_messages scores)
          as [[tasks0 scores0]|] eqn:Hrest; [|done].
        injection Hloop as <- <-.
        destruct (IH _ _ _ Hrest) as (Hfresh & Hkeep & Htasks & Hall & Hz).
        cbn [fmap list_fmap fst]. split; [|split; [|split; [|split]]].
        -- intros k Hk. apply not_elem_of_cons in Hk as [Hne Hk]. by apply Hfresh.
        -- done.
        -- intros k Hk. apply elem_of_cons in Hk as [->|Hk];
             [left|right; by apply Htasks].
        -- intros uid r Hin. apply elem_of_cons in Hin as [[= -> ->]|Hin].
           ++ left. left.
           ++ destruct (Hall uid r Hin); [left; by right|by right].
        -- intros Hnodup uid r Hin Hr.
           apply NoDup_cons in Hnodup as [Hu Hnodup].
           apply elem_of_cons in Hin as [[= -> ->]|Hin].
           ++ destruct Hr as [Hr|(syn' & rest' & [= <- <-] & Hr)];
                [cbn in Hr, Htruthy; congruence|congruence].
           ++ destruct (Hz Hnodup uid r Hin Hr) as [Hs Hnot]. split; [done|].
              intros Hin'. apply elem_of_cons in Hin' as [->|Hin']; [|done].
              apply Hu. by apply (list_elem_of_fmap_2 fst rest (u, r)).
      * apply Hzero; [done|]. right. by exists syn, ss.
    + apply Hzero; [done|by left].
Qed.

(** X14.  The image scorer scores every peer it was given.  When a pass
    returns (and awaiting the score tasks gives one result per task), its
    two mappings are the same and every peer of the batch has an entry.
    Among peers with distinct uids, one that sent no response, or a
    response without a completion, has the entry 0. *)
Theorem image_scores_every_peer (env : image_env)
    (query_responses : list (nat * option response))
    (uid_to_messages : gmap nat (option string))
    (scores uid_scores_dict : gmap nat Qc) :
  one_result_per_task (scoring env) ->
  score_responses env query_responses uid_to_messages
    = Ok (scores, uid_scores_dict) ->
  uid_scores_dict = scores /\
  (forall uid r, (uid, r) ∈ query_responses -> is_Some (scores !! uid)) /\
  (NoDup query_responses.*1 ->
   forall uid r, (uid, r) ∈ query_responses -> scored_zero r ->
     scores !! uid = Some 0).
Proof.
  intros Hgather Hscore. unfold score_responses in Hscore.
  destruct (first_loop env query_responses uid_to_messages ∅)
    as [[tasks s]|] eqn:Hloop; [|done].
  destruct (first_loop_effect _ _ _ _ _ _ Hloop)
    as (_ & _ & _ & Hall & Hz).
  apply finish_result in Hscore as (rs & Hrs & [= -> ->]).
  assert (Hfst : (zip tasks rs).*1 = tasks).
  { apply fst_zip. destruct tasks as [|t tasks]; [cbn; lia|].
    cbn in Hrs. apply Hgather in Hrs. lia. }
  split; [done|]. split.
  - intros uid r Hin. destruct (Hall uid r Hin) as [Ht|Hs].
    + apply record_scores_adds. by rewrite Hfst.
    + by apply record_scores_keeps.
  - intros Hnodup uid r Hin Hr.
    destruct (Hz Hnodup uid r Hin Hr) as [Hs Hnot].
    rewrite record_scores_fresh; [done|]. by rewrite Hfst.
Qed.

(** X15.  The image scorer does not isolate a failed download: when the
    image host is unreachable and some peer of the batch returned a
    completion, the pass raises and no peer is scored. *)
Theorem image_download_failure_aborts (env : image_env)
    (query_responses : list (nat * option response))
    (uid_to_messages : gmap nat (option string))
    (uid : nat) (syn : synapse) (rest : list synapse) (url : string) :
  (forall u, exists e, download env u = Raise e) ->
  (uid, Some (Synapses (syn :: rest))) ∈ query_responses ->
  completion syn = Some url ->
  is_ok (score_responses env query_responses uid_to_messages) = false.
Proof.
  intros Hdown Hin Hurl. unfold score_responses.
  assert (Hloop : forall scores,
    is_ok (first_loop env query_responses uid_to_messages scores) = false).
  { induction query_responses as [|[u resp] qs IH]; intros scores.
    - by apply elem_of_nil in Hin.
    - cbn [first_loop]. apply elem_of_cons in Hin as [[= <- <-]|Hin].
      + cbn. rewrite Hurl. by destruct (Hdown url) as [e ->].
      + specialize (IH Hin).
        destruct (truthy_response resp); [|apply IH].
        destruct resp as [[[|syn' ss]|s]|]; try done.
        destruct (completion syn') as [url'|]; [|apply IH].
        destruct (Hdown url') as [e ->]. done. }
  specialize (Hloop ∅).
  by destruct (first_loop env query_responses uid_to_messages ∅) as [[? ?]|].
Qed.

End ScoringMore.

Lemma scorers_return_no_score_witness :
  let answers := [(0%nat, Some (Dispatch.Text "an answer")); (1%nat, None)] in
  let questions : gmap nat (option string) :=
    {[ 0%nat := Some "q0"; 1%nat := Some "q1" ]} in
  Scoring.text_score_responses Scoring.env_closed answers questions
    = Ok (∅, ∅) /\
  Scoring.text_score_responses Scoring.env_open answers questions
    = Raise RuntimeError /\
  is_ok (Scoring.embeddings_score_responses Scoring.env_open answers ∅)
    = false.
Proof.
  intros answers questions.
  destruct (scorers_return_no_score Scoring.env_open answers questions ∅)
    as (_ & _ & Hopen).
  destruct (Hopen 0%nat (Some (Dispatch.Text "an answer"))) as [_ Hemb];
    [left|reflexivity|].
  destruct (scorers_return_no_score Scoring.env_closed answers questions ∅)
    as (Hclosed & _ & _).
  split; [|split].
  - destruct (Scoring.text_score_responses Scoring.env_closed answers questions)
      as [r|e] eqn:Hr; [|by vm_compute in Hr].
    by destruct (Hclosed r eq_refl) as [-> _].
  - reflexivity.
  - apply Hemb. reflexivity.
Defined.

Lemma image_scores_every_peer_witness :
  let answers :=
    [(0%nat, Some (Dispatch.Synapses
                     [ {| Dispatch.completion := Some "url";
                          Dispatch.embeddings := None |} ]));
     (1%nat, None)] in
  exists scores : gmap nat Qc,
    ImageScoring.score_responses ImageScoring.env_up answers
      {[ 0%nat := Some "q0"; 1%nat := Some "q1" ]} = Ok (scores, scores) /\
    scores !! 1%nat = Some (Q2Qc 0).
Proof.
  intros answers.
  destruct (ImageScoring.score_responses ImageScoring.env_up answers
              {[ 0%nat := Some "q0"; 1%nat := Some "q1" ]})
    as [[scores d]|e] eqn:Hscore; [|by vm_compute in Hscore].
  destruct (image_scores_every_peer ImageScoring.env_up answers
              {[ 0%nat := Some "q0"; 1%nat := Some "q1" ]} scores d)
    as (-> & _ & Hzero); [|exact Hscore|].
  - intros tasks results [= <-]. by rewrite length_fmap.
  - exists scores. split; [done|].
    assert (Hnodup : NoDup answers.*1) by (by apply (bool_decide_unpack _)).
    apply (Hzero Hnodup 1%nat None).
    + right. left.
    + by left.
Defined.

Lemma image_download_failure_aborts_witness :
  let answers :=
    [(0%nat, None);
     (1%nat, Some (Dispatch.Synapses
                     [ {| Dispatch.completion := Some "url";
                          Dispatch.embeddings := None |} ]))] in
  is_ok (ImageScoring.score_responses ImageScoring.env_host_down answers
           {[ 0%nat := Some "q0"; 1%nat := Some "q1" ]}) = false.
Proof.
  intros answers.
  apply (image_download_failure_aborts ImageScoring.env_host_down answers
           {[ 0%nat := Some "q0"; 1%nat := Some "q1" ]} 1%nat
           {| Dispatch.completion := Some "url"; Dispatch.embeddings := None |}
           [] "url").
  - intros u. by exists TransportError.
  - right. left.
  - reflexivity.
Defined.

(** ** Embeddings: the texts of each peer and the batches of a request *)

Section EmbeddingsMore.
Import EmbeddingsQuery.

Lemma assign_from_spec (k : nat) (texts : list string) (uids : list nat) :
  forall index : nat,
    ((index + length uids) * k <= length texts)%nat ->
    (assign_from k texts index uids).*1 = uids /\
    Forall (fun p => length p.2 = k) (assign_from k texts index uids) /\
    concat (assign_from k texts index uids).*2
      = take (k * length uids) (drop (index * k) texts).
Proof.
  induction uids as [|uid uids IH]; intros index Hlen.
  - cbn. split; [done|]. split; [constructor|].
    by rewrite Nat.mul_0_r.
  - cbn in Hlen. destruct (IH (S index)) as (Huids & Hall & Hconcat);
      [cbn; lia|].
    cbn. split; [by rewrite Huids|]. split.
    + constructor; [|done]. cbn.
      rewrite length_take, length_drop. nia.
    + rewrite Hconcat. cbn.
      replace (k + index * k)%nat with (index * k + k)%nat by lia.
      rewrite <- drop_drop, take_take_drop. f_equal. lia.
Qed.

(** X16.  [EmbeddingsValidator.start_query] cuts the random texts into
    consecutive slices: with [k = len(texts) // len(uids)], every peer
    receives exactly [k] texts, the slices taken in the order of the peers
    are the first [k * len(uids)] texts, and the remaining texts are sent
    to nobody.  An empty peer list is a division by zero. *)
Theorem assign_texts_slices (random_texts : list string)
    (available_uids : list nat) :
  assign_texts random_texts [] = None /\
  (available_uids <> [] ->
   exists prompts : list (nat * list string),
     assign_texts random_texts available_uids = Some prompts /\
     prompts.*1 = available_uids /\
     Forall (fun p => length p.2
                      = (length random_texts / length available_uids)%nat)
            prompts /\
     concat prompts.*2
       = take (length random_texts / length available_uids
               * length available_uids) random_texts).
Proof.
  split; [done|]. intros Hne.
  destruct available_uids as [|uid uids]; [done|].
  set (n := length (uid :: uids)).
  set (k := (length random_texts / n)%nat).
  assert (Hn : n <> 0%nat) by (subst n; cbn; lia).
  assert (Hk : (n * k <= length random_texts)%nat)
    by (apply Nat.Div0.mul_div_le).
  destruct (assign_from_spec k random_texts (uid :: uids) 0)
    as (Huids & Hall & Hconcat); [fold n; lia|].
  exists (assign_from k random_texts 0 (uid :: uids)).
  split; [done|]. split; [done|]. split; [done|].
  by rewrite Hconcat.
Qed.

(** *** Batches *)

Lemma chunks_cover {A} (batch_size k : nat) (texts : list A) :
  (length texts <= k * batch_size)%nat ->
  concat ((fun j => take batch_size (drop (j * batch_size) texts)) <$> seq 0 k)
  = texts.
Proof.
  revert texts. induction k as [|k IH]; intros texts Hlen.
  - cbn in *. destruct texts; [done|cbn in Hlen; lia].
  - cbn [seq]. rewrite <- fmap_S_seq, fmap_cons, <- list_fmap_compose.
    cbn [concat]. rewrite Nat.mul_0_l, drop_0.
    etrans; [|apply (take_drop batch_size texts)]. f_equal.
    etrans; [|apply (IH (drop batch_size texts)); rewrite length_drop; lia].
    f_equal. apply list_fmap_ext. intros i j _. cbn [compose].
    by rewrite drop_drop.
Qed.

Lemma batch_count_enough (n batch_size : nat) :
  batch_size <> 0%nat ->
  (n <= (n + batch_size - 1) / batch_size * batch_size)%nat.
Proof.
  intros Hb.
  pose proof (Nat.div_mod_eq (n + batch_size - 1) batch_size) as Hdiv.
  pose proof (Nat.mod_upper_bound (n + batch_size - 1) batch_size Hb) as Hmod.
  nia.
Qed.

Lemma batch_index_in_range (n batch_size j : nat) :
  batch_size <> 0%nat ->
  (j < (n + batch_size - 1) / batch_size)%nat ->
  (j * batch_size < n)%nat.
Proof.
  intros Hb Hj.
  pose proof (Nat.div_mod_eq (n + batch_size - 1) batch_size) as Hdiv.
  nia.
Qed.

Lemma batches_spec {A} (texts : list A) (batch_size : nat) :
  batch_size <> 0%nat ->
  exists bs : list (list A),
    batches texts batch_size = Some bs /\
    concat bs = texts /\
    Forall (fun b => b <> [] /\ (length b <= batch_size)%nat) bs.
Proof.
  intros Hb. unfold batches.
  destruct batch_size as [|b]; [done|].
  eexists. split; [done|]. split.
  - apply chunks_cover, batch_count_enough. lia.
  - apply Forall_fmap, Forall_forall. intros j Hj.
    apply elem_of_seq in Hj as [_ Hj]. cbn [plus] in Hj.
    apply batch_index_in_range in Hj; [|lia].
    split.
    + intros Hnil. apply (f_equal length) in Hnil.
      rewrite length_take, length_drop in Hnil. cbn [length] in Hnil. lia.
    + rewrite length_take. lia.
Qed.

(** X17.  The batches of [call_openai_embeddings] lose nothing: put end to
    end they are the texts, none is empty and none exceeds the batch size.
    A batch size of 0 is an error. *)
Theorem batches_cover_the_texts {A} (texts : list A) (batch_size : nat) :
  batches texts 0 = None /\
  (batch_size <> 0%nat ->
   exists bs : list (list A),
     batches texts batch_size = Some bs /\
     concat bs = texts /\
     Forall (fun b => b <> [] /\ (length b <= batch_size)%nat) bs).
Proof.
  split; [done|]. apply batches_spec.
Qed.

Section Requests.
Context (blank : string -> bool).

Lemma concat_filter_nonempty {A} (ls : list (list A)) :
  concat (filter (fun b => b <> []) ls) = concat ls.
Proof.
  induction ls as [|l ls IH]; [done|].
  rewrite filter_cons. case_decide as Hl; cbn [concat].
  - f_equal. apply IH.
  - rewrite Hl. apply IH.
Qed.

Lemma filter_concat_batches {A} (P : A -> Prop) `{!forall x, Decision (P x)}
    (ls : list (list A)) :
  concat (filter P <$> ls) = filter P (concat ls).
Proof.
  induction ls as [|l ls IH]; [done|].
  cbn. by rewrite filter_app, IH.
Qed.

(** The requests are the batches without their blank texts, the empty
    ones dropped. *)
Lemma requests_of_batches (texts : list string) (batch_size : nat)
    (bs : list (list string)) :
  batches texts batch_size = Some bs ->
  concat bs = texts ->
  requests blank texts batch_size
    = Some (filter (fun b => b <> [])
              ((fun batch => filter (fun text => blank text = false) batch) <$> bs)) /\
  concat (filter (fun b => b <> [])
            ((fun batch => filter (fun text => blank text = false) batch) <$> bs))
    = filter (fun text => blank text = false) texts.
Proof.
  intros Hbs Hconcat. unfold requests. rewrite Hbs. split; [done|].
  by rewrite concat_filter_nonempty, filter_concat_batches, Hconcat.
Qed.

(** X18.  The embedding requests carry the texts that are not blank, all
    of them and in their order; blank texts are sent nowhere, a request is
    never empty and never longer than the batch size. *)
Theorem requests_carry_the_nonblank_texts (texts : list string)
    (batch_size : nat) :
  batch_size <> 0%nat ->
  exists reqs : list (list string),
    requests blank texts batch_size = Some reqs /\
    concat reqs = filter (fun text => blank text = false) texts /\
    Forall (fun r => r <> [] /\ (length r <= batch_size)%nat /\
                     Forall (fun text => blank text = false) r) reqs.
Proof.
  intros Hb.
  destruct (batches_spec texts batch_size Hb) as (bs & Hbs & Hconcat & Hall).
  destruct (requests_of_batches texts batch_size bs Hbs Hconcat)
    as [Hreqs Hcarried].
  eexists. split; [exact Hreqs|]. split; [exact Hcarried|].
  apply Forall_forall. intros r Hr.
  apply list_elem_of_filter in Hr as [Hne Hr].
  apply list_elem_of_fmap in Hr as (b & -> & Hbin).
  split; [done|]. split.
  - rewrite Forall_forall in Hall. destruct (Hall b Hbin) as [_ Hlen].
    pose proof (length_filter (fun text => blank text = false) b). lia.
  - apply Forall_forall. intros t Ht.
    by apply list_elem_of_filter in Ht as [? _].
Qed.

Lemma collect_length (embed : list string -> outcome (list (list Qc)))
    (completed : list (list string)) :
  (forall r, r ∈ completed ->
     exists es, embed r = Ok es /\ length es = length r) ->
  length (collect embed completed) = length (concat completed).
Proof.
  induction completed as [|r rs IH]; intros Hok; [done|].
  unfold collect in *. cbn. rewrite !length_app.
  destruct (Hok r) as (es & -> & Hes); [left|].
  rewrite Hes. f_equal. apply IH. intros r' Hr'. apply Hok. by right.
Qed.

(** X19.  When every embedding request succeeds with one embedding per
    text, [call_openai_embeddings] returns as many embeddings as there are
    texts that are not blank, in whatever order the requests complete: a
    blank text has no embedding, so the result is shorter than the input
    by the number of blank texts. *)
Theorem one_embedding_per_nonblank_text
    (embed : list string -> outcome (list (list Qc)))
    (completion_order : list (list string) -> list (list string))
    (texts : list string) (batch_size : nat) :
  batch_size <> 0%nat ->
  (forall tasks, completion_order tasks ≡ₚ tasks) ->
  (forall r, exists es, embed r = Ok es /\ length es = length r) ->
  exists all_embeddings : list (list Qc),
    call_openai_embeddings blank embed completion_order texts batch_size
      = Some all_embeddings /\
    length all_embeddings
      = length (filter (fun text => blank text = false) texts).
Proof.
  intros Hb Hperm Hembed.
  destruct (batches_spec texts batch_size Hb) as (bs & Hbs & Hcover & _).
  destruct (requests_of_batches texts batch_size bs Hbs Hcover)
    as [Hreqs Hconcat].
  unfold call_openai_embeddings. rewrite Hreqs. eexists. split; [done|].
  rewrite collect_length by (intros r _; apply Hembed).
  rewrite <- Hconcat. rewrite !length_concat.
  by rewrite Hperm.
Qed.

End Requests.

End EmbeddingsMore.

Lemma assign_texts_slices_witness :
  [5; 8]%nat <> [] /\
  EmbeddingsQuery.assign_texts ["a"; "b"; "c"; "d"; "e"] [5; 8]%nat
  = Some [(5%nat, ["a"; "b"]); (8%nat, ["c"; "d"])].
Proof.
  split; [discriminate|].
  destruct (assign_texts_slices ["a"; "b"; "c"; "d"; "e"] [5; 8]%nat)
    as [_ Hslices].
  destruct (Hslices ltac:(discriminate)) as (prompts & Hsome & _).
  rewrite Hsome. by vm_compute in Hsome.
Defined.

Lemma batches_cover_the_texts_witness :
  3%nat <> 0%nat /\
  exists bs : list (list nat),
    EmbeddingsQuery.batches [1; 2; 3; 4; 5; 6; 7]%nat 3 = Some bs /\
    concat bs = [1; 2; 3; 4; 5; 6; 7]%nat.
Proof.
  split; [discriminate|].
  destruct (batches_cover_the_texts [1; 2; 3; 4; 5; 6; 7]%nat 3)
    as [_ Hcover].
  destruct (Hcover ltac:(discriminate)) as (bs & Hbs & Hconcat & _).
  by exists bs.
Defined.

Lemma requests_carry_the_nonblank_texts_witness :
  let blank := fun s : string => bool_decide (s = "") in
  10%nat <> 0%nat /\
  exists reqs : list (list string),
    EmbeddingsQuery.requests blank ["a"; ""; "b"] 10 = Some reqs /\
    concat reqs = ["a"; "b"].
Proof.
  intros blank. split; [discriminate|].
  destruct (requests_carry_the_nonblank_texts blank ["a"; ""; "b"] 10)
    as (reqs & Hreqs & Hconcat & _); [discriminate|].
  by exists reqs.
Defined.

Lemma one_embedding_per_nonblank_text_witness :
  let blank := fun s : string => bool_decide (s = "") in
  let embed := fun r : list string => Ok ((fun _ => [Q2Qc 1]) <$> r) in
  exists all_embeddings : list (list Qc),
    EmbeddingsQuery.call_openai_embeddings blank embed reverse
      ["a"; ""; "b"] 1 = Some all_embeddings /\
    length all_embeddings = 2%nat.
Proof.
  intros blank embed.
  apply (one_embedding_per_nonblank_text blank embed reverse ["a"; ""; "b"] 1).
  - discriminate.
  - intros tasks. apply reverse_Permutation.
  - intros r. exists ((fun _ => [Q2Qc 1]) <$> r). split; [done|].
    by rewrite length_fmap.
Defined.

(** ** The event loop: no call is left waiting *)

Section EventLoopMore.
Import Supply EventLoop.
Context (O : oracle).

Lemma queue_invariant_spawn calls w : queue_invariant (spawn calls w).
Proof.
  split; [constructor|]. intros i. cbn. split.
  - intros Hi. by apply elem_of_nil in Hi.
  - intros [c Hc]. rewrite list_lookup_fmap in Hc. by destruct (calls !! i).
Qed.

(** Moving task [i] to a phase other than [Waiting], with the other
    waiting tasks queued in [ws]. *)
Lemma queue_invariant_update (s : loop) (i : nat) (c : call) (p p' : phase)
    (ws : list nat) (s' : loop) :
  tasks s !! i = Some (c, p) ->
  p' <> Waiting ->
  NoDup ws ->
  (forall k, k ∈ ws <-> (exists c', tasks s !! k = Some (c', Waiting)) /\ k <> i) ->
  tasks s' = <[i := (c, p')]> (tasks s) ->
  waiters s' = ws ->
  queue_invariant s'.
Proof.
  intros Hi Hp' Hnodup Hws Htasks Hwaiters. split; [by rewrite Hwaiters|].
  intros k. rewrite Hwaiters, Htasks, Hws.
  destruct (decide (i = k)) as [->|Hne].
  - rewrite list_lookup_insert_eq by (by eapply lookup_lt_Some).
    split; [by intros [_ ?]|]. intros [c' [= _ Heq]]. by destruct Hp'.
  - rewrite list_lookup_insert_ne by done. split; [by intros [? _]|].
    intros Hk. split; [done|congruence].
Qed.

Lemma enter_shape i c s :
  exists p', p' <> Waiting /\
    tasks (enter O i c s) = <[i := (c, p')]> (tasks s) /\
    waiters (enter O i c s) = waiters s.
Proof.
  unfold enter.
  destruct (slot (world s) (category c) (item_type c)) as [items|];
    [destruct (truthy (world s) items)|]; rewrite ?complete_eq; cbn;
    eexists; (split; [|split; reflexivity]); done.
Qed.

Lemma queue_invariant_step i s :
  queue_invariant s -> queue_invariant (step O i s).
Proof.
  intros Hinv. pose proof Hinv as [Hnodup Hq]. unfold step.
  destruct (tasks s !! i) as [[c [| | |r]]|] eqn:Hi; [| | |done|done].
  - assert (Hnot : i ∉ waiters s).
    { intros Hin. apply Hq in Hin as [c' Hc']. congruence. }
    assert (Hothers : forall k,
      k ∈ waiters s <-> (exists c', tasks s !! k = Some (c', Waiting)) /\ k <> i).
    { intros k. rewrite Hq. split; [|by intros [? _]].
      intros [c' Hk]. split; [eauto|]. intros ->. congruence. }
    assert (Hwait : queue_invariant
      {| tasks := <[i := (c, Waiting)]> (tasks s); waiters := waiters s ++ [i];
         holder := holder s; world := world s |}).
    { split; cbn.
      - apply NoDup_app. split; [done|]. split; [|apply NoDup_singleton].
        intros k Hk Hk'. apply list_elem_of_singleton in Hk' as ->. done.
      - intros k. rewrite elem_of_app, list_elem_of_singleton.
        destruct (decide (i = k)) as [->|Hne].
        + rewrite list_lookup_insert_eq by (by eapply lookup_lt_Some).
          split; [eauto|by right].
        + rewrite list_lookup_insert_ne by done. rewrite Hq.
          split; [intros [?|?]; [done|congruence]|by left]. }
    destruct (holder s); [done|].
    destruct (waiters s) as [|j rest] eqn:Hw; [|by rewrite <- Hw in Hwait |- *].
    destruct (enter_shape i c s) as (p' & Hp' & Htasks & Hwaiters).
    eapply (queue_invariant_update s i c Pending p' []); try done.
    by rewrite Hwaiters.
  - destruct (holder s) as [h|]; [done|].
    destruct (waiters s) as [|j rest] eqn:Hw; [done|].
    case_decide as Hij; [subst j|done].
    apply NoDup_cons in Hnodup as [Hfresh Hnodup].
    set (s0 := {| tasks := tasks s; waiters := rest; holder := None;
                  world := world s |}).
    destruct (enter_shape i c s0) as (p' & Hp' & Htasks & Hwaiters).
    eapply (queue_invariant_update s i c Waiting p' rest); try done.
    intros k. specialize (Hq k). rewrite elem_of_cons in Hq. split.
    + intros Hk. split; [apply Hq; by right|]. intros ->. done.
    + intros [Hk Hne]. apply Hq in Hk as [->|Hk]; done.
  - assert (Hothers : forall k,
      k ∈ waiters s <-> (exists c', tasks s !! k = Some (c', Waiting)) /\ k <> i).
    { intros k. rewrite Hq. split; [|by intros [? _]].
      intros [c' Hk]. split; [eauto|]. intros ->. congruence. }
    eapply (queue_invariant_update s i c Refilling
              (Returned (update_counters_and_get_new_list O (category c)
                           (item_type c) (theme c) (world s)).1) (waiters s));
      try done; by rewrite complete_eq.
Qed.

Lemma queue_invariant_run schedule s :
  queue_invariant s -> queue_invariant (run O schedule s).
Proof.
  revert s. induction schedule as [|i schedule IH]; intros s Hinv; [done|].
  cbn. apply IH. by apply queue_invariant_step.
Qed.

Lemma pending_moves s i c :
  tasks s !! i = Some (c, Pending) -> step O i s <> s.
Proof.
  intros Hi Hstuck. unfold step in Hstuck. rewrite Hi in Hstuck.
  assert (Hlt : (i < length (tasks s))%nat) by (by eapply lookup_lt_Some).
  destruct (enter_shape i c s) as (p' & Hp' & Htasks & _).
  assert (Hp : p' <> Pending).
  { revert Htasks. unfold enter.
    destruct (slot (world s) (category c) (item_type c)) as [items|];
      [destruct (truthy (world s) items)|]; rewrite ?complete_eq;
      cbn [tasks]; intros Htasks Heq; subst p';
      apply (f_equal (fun l => l !! i)) in Htasks;
      rewrite !list_lookup_insert_eq in Htasks by done; congruence. }
  apply (f_equal (fun s => tasks s !! i)) in Hstuck. rewrite Hi in Hstuck.
  destruct (holder s), (waiters s); cbn [tasks] in Hstuck;
    rewrite ?Htasks, list_lookup_insert_eq in Hstuck by done; congruence.
Qed.

Lemma refilling_moves s i c :
  tasks s !! i = Some (c, Refilling) -> step O i s <> s.
Proof.
  intros Hi Hstuck. unfold step in Hstuck. rewrite Hi, complete_eq in Hstuck.
  apply (f_equal (fun s => tasks s !! i)) in Hstuck. cbn in Hstuck.
  rewrite list_lookup_insert_eq in Hstuck by (by eapply lookup_lt_Some).
  congruence.
Qed.

Lemma first_waiter_moves s j rest cj :
  holder s = None -> waiters s = j :: rest ->
  tasks s !! j = Some (cj, Waiting) -> step O j s <> s.
Proof.
  intros Hfree Hw Hj Hstuck. unfold step in Hstuck.
  rewrite Hj, Hfree, Hw, decide_True in Hstuck by done.
  set (s0 := {| tasks := tasks s; waiters := rest; holder := None;
                world := world s |}) in *.
  destruct (enter_shape j cj s0) as (p' & Hp' & Htasks & _).
  rewrite Hstuck in Htasks. cbn in Htasks.
  apply (f_equal (fun l => l !! j)) in Htasks.
  rewrite list_lookup_insert_eq in Htasks by (by eapply lookup_lt_Some).
  congruence.
Qed.

(** While a call has not returned, some task can run. *)
Lemma some_task_moves s i c p :
  lock_invariant s -> queue_invariant s ->
  tasks s !! i = Some (c, p) -> (forall r, p <> Returned r) ->
  exists j, step O j s <> s.
Proof.
  intros Hlock [Hnodup Hq] Hi Hp. destruct p as [| | |r].
  - exists i. by eapply pending_moves.
  - destruct (holder s) as [h|] eqn:Hh.
    + apply Hlock in Hh as [ch Hh]. exists h. by eapply refilling_moves.
    + assert (i ∈ waiters s) as Hin by (apply Hq; eauto).
      destruct (waiters s) as [|j rest] eqn:Hw; [by apply elem_of_nil in Hin|].
      assert (exists cj, tasks s !! j = Some (cj, Waiting)) as [cj Hj].
      { apply Hq. left. }
      exists j. by eapply first_waiter_moves.
  - exists i. by eapply refilling_moves.
  - by destruct (Hp r).
Qed.

Lemma returned_or_not (t : call * phase) :
  {exists r, t.2 = Returned r} + {forall r, t.2 <> Returned r}.
Proof.
  destruct t as [c [| | |r]]; cbn; [by right|by right|by right|left; by exists r].
Qed.

(** X20.  The lock never leaves a call behind.  In every state the event
    loop can reach, whatever the schedule, the calls waiting for the lock
    are exactly the queued ones, each queued once, and either every call
    has returned or some task can run and change the state: a call that
    raises inside the lock releases it like one that returns. *)
Theorem calls_never_deadlock (calls : list call) (w : supply)
    (schedule : list nat) :
  queue_invariant (run O schedule (spawn calls w)) /\
  (all_returned (run O schedule (spawn calls w)) \/
   exists i, step O i (run O schedule (spawn calls w))
             <> run O schedule (spawn calls w)).
Proof.
  assert (Hq : queue_invariant (run O schedule (spawn calls w)))
    by apply queue_invariant_run, queue_invariant_spawn.
  assert (Hlock : lock_invariant (run O schedule (spawn calls w)))
    by apply lock_invariant_run, lock_invariant_spawn.
  split; [done|]. revert Hq Hlock.
  generalize (run O schedule (spawn calls w)). intros s Hq Hlock.
  assert (Hall : all_returned s \/
    exists i c p, tasks s !! i = Some (c, p) /\ forall r, p <> Returned r).
  { unfold all_returned. induction (tasks s) as [|t l IH]; [by left|].
    destruct (returned_or_not t) as [Ht|Ht].
    - destruct IH as [IH|(i & c & p & Hi & Hp)].
      + left. by constructor.
      + right. by exists (S i), c, p.
    - right. destruct t as [c p]. by exists 0%nat, c, p. }
  destruct Hall as [Hall|(i & c & p & Hi & Hp)]; [by left|].
  right. by eapply some_task_moves.
Qed.

End EventLoopMore.

(** ** An images round *)

Section ImageRoundMore.
Import Supply Dispatch Scoring ImageScoring ImageRound.

Lemma query_result_images timeout_global uid d :
  query_result timeout_global uid images_query_type d = None.
Proof. unfold query_result, query_miner_body. by destruct timeout_global. Qed.

Lemma first_loop_no_response (env : image_env) (uids : list nat)
    (uid_to_messages : gmap nat (option string)) (scores : gmap nat Qc) :
  first_loop env ((fun uid => (uid, None)) <$> uids) uid_to_messages scores
  = Ok ([], foldl (fun s uid => <[uid := 0]> s) scores uids).
Proof.
  revert scores. induction uids as [|uid uids IH]; intros scores; [done|].
  cbn. apply IH.
Qed.

Lemma foldl_insert_zero (uids : list nat) (scores : gmap nat Qc) (uid : nat) :
  foldl (fun s uid => <[uid := 0]> s) scores uids !! uid
  = if bool_decide (uid ∈ uids) then Some 0 else scores !! uid.
Proof.
  revert scores. induction uids as [|u uids IH]; intros scores.
  - by rewrite bool_decide_eq_false_2 by apply not_elem_of_nil.
  - cbn [foldl]. rewrite IH.
    destruct (decide (uid ∈ uids)) as [Hin|Hnotin].
    + rewrite !bool_decide_eq_true_2; [done|by right|done].
    + rewrite (bool_decide_eq_false_2 _ Hnotin).
      destruct (decide (uid = u)) as [->|Hne].
      * rewrite lookup_insert_eq. by rewrite bool_decide_eq_true_2 by left.
      * rewrite lookup_insert_ne by done.
        rewrite bool_decide_eq_false_2; [done|].
        intros Hin. apply elem_of_cons in Hin as [?|?]; done.
Qed.

(** X21.  As the file stands, an images round scores every peer 0.
    [ImageValidator] passes the query type "images", which no branch of
    [query_miner] handles, so every response is [None]; [score_responses]
    then downloads nothing and creates no score task, and (when the
    questions are supplied and the telemetry call does not raise) gives
    every peer of the round the entry 0 and no other peer an entry,
    whatever the peers answered. *)
Theorem image_round_scores_zero (O : oracle) (timeout_global : option Z)
    (env : image_env) (dendrite : nat -> dendrite_answer)
    (available_uids : list nat) (w : supply) :
  is_ok (ask_questions O available_uids w).1 = true ->
  telemetry (scoring env) = Ok tt ->
  exists scores : gmap nat Qc,
    (get_and_score O timeout_global env dendrite available_uids w).1
      = Ok (scores, scores) /\
    forall uid : nat,
      scores !! uid
      = if bool_decide (uid ∈ available_uids) then Some 0 else None.
Proof.
  intros Hasked Hlog.
  destruct (ask_questions O available_uids w) as [[asked|e] w'] eqn:Hask;
    [|done].
  pose proof (ask_questions_uids _ _ _ _ _ Hask) as Huids.
  exists (foldl (fun s uid => <[uid := 0]> s) ∅ available_uids). split.
  - unfold get_and_score, Dispatch.start_query, mbind, M_bind.
    rewrite Hask, dispatch_batch_results. unfold mret, M_ret.
    cbn [fst snd]. unfold score_responses.
    rewrite <- list_fmap_compose.
    assert (Hnone :
      ((fun p : nat * dendrite_answer =>
          (p.1, query_result timeout_global p.1 images_query_type p.2))
       ∘ (fun a : nat * option string => (a.1, dendrite a.1))) <$> asked
      = (fun uid : nat => (uid, @None response)) <$> asked.*1).
    { rewrite <- list_fmap_compose. apply list_fmap_ext. intros i a _. cbn.
      by rewrite query_result_images. }
    rewrite Hnone, Huids, first_loop_no_response.
    unfold finish. cbn [gather_or_empty zip record_scores foldl].
    by rewrite Hlog.
  - intros uid. rewrite foldl_insert_zero. by rewrite lookup_empty.
Qed.

End ImageRoundMore.

Lemma image_round_scores_zero_witness :
  exists scores : gmap nat Qc,
    (ImageRound.get_and_score Supply.oracle_down (Some 35%Z)
       ImageScoring.env_host_down (fun _ => Dispatch.peer_up) [5; 8]%nat
       (Supply.sample_supply None)).1 = Ok (scores, scores) /\
    scores !! 5%nat = Some 0 /\ scores !! 6%nat = None.
Proof.
  destruct (image_round_scores_zero Supply.oracle_down (Some 35%Z)
              ImageScoring.env_host_down (fun _ => Dispatch.peer_up)
              [5; 8]%nat (Supply.sample_supply None))
    as (scores & Hscores & Hentries).
  - vm_compute. reflexivity.
  - reflexivity.
  - exists scores. split; [exact Hscores|].
    split; [apply (Hentries 5%nat)|apply (Hentries 6%nat)].
Defined.

(** ** A text round *)

Section TextRoundMore.
Import Supply Dispatch Scoring TextQuery TextRound.

Lemma first_tasks_no_response {Q} (will_score_all : bool) (uids : list nat)
    (uid_to_question : gmap nat Q) :
  first_tasks will_score_all ((fun uid => (uid, None)) <$> uids) uid_to_question
  = Ok [].
Proof.
  induction uids as [|uid uids IH]; [done|].
  cbn. by rewrite andb_false_r.
Qed.

Lemma ask_questions_for_uids O category uids w asked w' :
  ask_questions_for O category uids w = (Ok asked, w') -> asked.*1 = uids.
Proof.
  revert w asked w'. induction uids as [|uid uids IH]; intros w asked w'; cbn.
  - unfold mret, M_ret. by intros [= <- <-].
  - unfold mbind, M_bind, mret, M_ret.
    destruct (get_question O category w) as [[messages|e] w1]; [|done].
    destruct (ask_questions_for O category uids w1) as [[rest|e] w2] eqn:Hrest;
      [|done].
    intros [= <- <-]. cbn. f_equal. by eapply IH.
Qed.

(** X22.  As the file stands, a text round scores nobody.  The first line
    of [query_miner] reads the name [timeout], which is bound nowhere, so
    every response is [None]; the text scorer then creates no task,
    whether its gate is open or closed, and (when the questions are
    supplied and the telemetry call does not raise) returns two empty
    mappings, whatever the peers answered. *)
Theorem text_round_scores_nobody (O : oracle) (env : scoring_env)
    (dendrite : nat -> dendrite_answer) (available_uids : list nat)
    (w : supply) :
  is_ok (ask_questions_for O "text" available_uids w).1 = true ->
  telemetry env = Ok tt ->
  (get_and_score O None env dendrite available_uids w).1 = Ok (∅, ∅).
Proof.
  intros Hasked Hlog.
  destruct (ask_questions_for O "text" available_uids w) as [[asked|e] w']
    eqn:Hask; [|done].
  pose proof (ask_questions_for_uids _ _ _ _ _ _ Hask) as Huids.
  unfold get_and_score, TextQuery.start_query, mbind, M_bind.
  rewrite Hask, dispatch_batch_results. unfold mret, M_ret.
  cbn [fst snd]. unfold text_score_responses.
  assert (Hnone :
    ((fun p : nat * dendrite_answer =>
        (p.1, query_result None p.1 text_query_type p.2))
       <$> ((fun a : nat * option string => (a.1, dendrite a.1)) <$> asked))
    = (fun uid : nat => (uid, @None response)) <$> asked.*1).
  { rewrite <- !list_fmap_compose. by apply list_fmap_ext. }
  rewrite Hnone, Huids, first_tasks_no_response.
  cbn [gather_or_empty zip text_second_loop regather app]. unfold finish.
  cbn [gather_or_empty zip record_scores foldl]. by rewrite Hlog.
Qed.

End TextRoundMore.

Lemma text_round_scores_nobody_witness :
  (TextRound.get_and_score Supply.oracle_down None Scoring.env_open
     (fun _ => Dispatch.peer_up) [5; 8]%nat
     (Supply.sample_supply (Some (Supply.Own ["q1"; "q2"; "q3"])))).1
  = Ok (∅, ∅).
Proof.
  apply (text_round_scores_nobody Supply.oracle_down Scoring.env_open
           (fun _ => Dispatch.peer_up) [5; 8]%nat
           (Supply.sample_supply (Some (Supply.Own ["q1"; "q2"; "q3"])))).
  - vm_compute. reflexivity.
  - reflexivity.
Defined.
